(** * Mesa format translation and NIR varying linking: a shallow embedding

    The development follows two translation units of the Mesa tree:
    - [util/format/u_format.c]: rectangle copy, format predicates, the
      compatibility test, the generic pixel translator in two and three
      dimensions and the swizzle helpers (module [Format]);
    - [compiler/nir/nir_linking_helpers.c]: removal of unused varyings,
      marking of transform-feedback varyings, the comparison function and
      the remap assignment of the varying compactor, the sort of variables
      by location and the linked driver location assignment (module
      [Linking]).

    C integers are modelled by [Z] with the wrap-around of their width written
    out (module [Mach]); arrays of four elements by the record [vec4];
    byte buffers by functions from byte offsets to bytes.

    The definitions come first; the properties proved of them follow in the
    modules [MachFacts], [FormatFacts] and [LinkingFacts]. *)

From Stdlib Require Import ZArith List Bool Lia Floats Uint63.
From Stdlib Require Import Strings.Byte.
From Stdlib Require Import Sorted Permutation.
Import ListNotations.
Local Open Scope Z_scope.

(** ** Machine integers *)
Module Mach.

(** Value of an unsigned [w]-bit integer holding [x]. *)
Definition wrap (w x : Z) : Z := x mod 2 ^ w.

Definition u8 (x : Z) : Z := wrap 8 x.
Definition u32 (x : Z) : Z := wrap 32 x.
Definition u64 (x : Z) : Z := wrap 64 x.

(** Value of a signed 32-bit [int] holding [x] (two's complement). *)
Definition s32 (x : Z) : Z := (x + 2 ^ 31) mod 2 ^ 32 - 2 ^ 31.

(** [MAX2] of util/macros.h. *)
Definition MAX2 (a b : Z) : Z := if b <? a then a else b.

End Mach.

(** ** Arrays of four elements ([channel[4]], [swizzle[4]], [float[4]]) *)
Record vec4 (A : Type) : Type := Vec4 { v0 : A; v1 : A; v2 : A; v3 : A }.
Arguments Vec4 {A} _ _ _ _.
Arguments v0 {A} _.
Arguments v1 {A} _.
Arguments v2 {A} _.
Arguments v3 {A} _.

(** [v[i]] for an index the code has checked to be below 4.  Indices and
    swizzle entries are unsigned in the source: they are modelled in [N]. *)
Definition at4 {A} (v : vec4 A) (i : N) : A :=
  match i with
  | 0%N => v0 v
  | 1%N => v1 v
  | 2%N => v2 v
  | _ => v3 v
  end.

(** [v[i]] for an unchecked index: reading past the array is undefined. *)
Definition at4_opt {A} (v : vec4 A) (i : N) : option A :=
  if (i <? 4)%N then Some (at4 v i) else None.

(** [v[i] = a] for an index below 4. *)
Definition set4 {A} (v : vec4 A) (i : N) (a : A) : vec4 A :=
  match i with
  | 0%N => Vec4 a (v1 v) (v2 v) (v3 v)
  | 1%N => Vec4 (v0 v) a (v2 v) (v3 v)
  | 2%N => Vec4 (v0 v) (v1 v) a (v3 v)
  | _ => Vec4 (v0 v) (v1 v) (v2 v) a
  end.

(** The indices visited by [for (chan = 0; chan < 4; ++chan)]. *)
Definition range4 : list N := [0%N; 1%N; 2%N; 3%N].

(** ** util/format/u_format.c *)
Module Format.

(** *** Format descriptors (util/format/u_format.h) *)

(** [enum util_format_layout]. *)
Inductive util_format_layout : Type :=
| UTIL_FORMAT_LAYOUT_PLAIN
| UTIL_FORMAT_LAYOUT_SUBSAMPLED
| UTIL_FORMAT_LAYOUT_S3TC
| UTIL_FORMAT_LAYOUT_RGTC
| UTIL_FORMAT_LAYOUT_ETC
| UTIL_FORMAT_LAYOUT_BPTC
| UTIL_FORMAT_LAYOUT_ASTC
| UTIL_FORMAT_LAYOUT_ATC
| UTIL_FORMAT_LAYOUT_FXT1
| UTIL_FORMAT_LAYOUT_OTHER.

(** [enum util_format_type]. *)
Inductive util_format_type : Type :=
| UTIL_FORMAT_TYPE_VOID
| UTIL_FORMAT_TYPE_UNSIGNED
| UTIL_FORMAT_TYPE_SIGNED
| UTIL_FORMAT_TYPE_FIXED
| UTIL_FORMAT_TYPE_FLOAT.

(** [enum util_format_colorspace]. *)
Inductive util_format_colorspace : Type :=
| UTIL_FORMAT_COLORSPACE_RGB
| UTIL_FORMAT_COLORSPACE_SRGB
| UTIL_FORMAT_COLORSPACE_YUV
| UTIL_FORMAT_COLORSPACE_ZS.

(** [enum pipe_format]: the identifiers u_format.c names, and the rest of the
    enumeration by number. *)
Inductive pipe_format : Type :=
| PIPE_FORMAT_RGTC1_SNORM
| PIPE_FORMAT_RGTC2_SNORM
| PIPE_FORMAT_LATC1_SNORM
| PIPE_FORMAT_LATC2_SNORM
| PIPE_FORMAT_BPTC_RGBA_UNORM
| PIPE_FORMAT_ETC1_RGB8
| PIPE_FORMAT_R1_UNORM
| PIPE_FORMAT_UYVY
| PIPE_FORMAT_YUYV
| PIPE_FORMAT_R8G8_B8G8_UNORM
| PIPE_FORMAT_G8R8_G8B8_UNORM
| PIPE_FORMAT_NUM (n : Z).

Definition layout_eqb (a b : util_format_layout) : bool :=
  match a, b with
  | UTIL_FORMAT_LAYOUT_PLAIN, UTIL_FORMAT_LAYOUT_PLAIN
  | UTIL_FORMAT_LAYOUT_SUBSAMPLED, UTIL_FORMAT_LAYOUT_SUBSAMPLED
  | UTIL_FORMAT_LAYOUT_S3TC, UTIL_FORMAT_LAYOUT_S3TC
  | UTIL_FORMAT_LAYOUT_RGTC, UTIL_FORMAT_LAYOUT_RGTC
  | UTIL_FORMAT_LAYOUT_ETC, UTIL_FORMAT_LAYOUT_ETC
  | UTIL_FORMAT_LAYOUT_BPTC, UTIL_FORMAT_LAYOUT_BPTC
  | UTIL_FORMAT_LAYOUT_ASTC, UTIL_FORMAT_LAYOUT_ASTC
  | UTIL_FORMAT_LAYOUT_ATC, UTIL_FORMAT_LAYOUT_ATC
  | UTIL_FORMAT_LAYOUT_FXT1, UTIL_FORMAT_LAYOUT_FXT1
  | UTIL_FORMAT_LAYOUT_OTHER, UTIL_FORMAT_LAYOUT_OTHER => true
  | _, _ => false
  end.

Definition type_eqb (a b : util_format_type) : bool :=
  match a, b with
  | UTIL_FORMAT_TYPE_VOID, UTIL_FORMAT_TYPE_VOID
  | UTIL_FORMAT_TYPE_UNSIGNED, UTIL_FORMAT_TYPE_UNSIGNED
  | UTIL_FORMAT_TYPE_SIGNED, UTIL_FORMAT_TYPE_SIGNED
  | UTIL_FORMAT_TYPE_FIXED, UTIL_FORMAT_TYPE_FIXED
  | UTIL_FORMAT_TYPE_FLOAT, UTIL_FORMAT_TYPE_FLOAT => true
  | _, _ => false
  end.

Definition colorspace_eqb (a b : util_format_colorspace) : bool :=
  match a, b with
  | UTIL_FORMAT_COLORSPACE_RGB, UTIL_FORMAT_COLORSPACE_RGB
  | UTIL_FORMAT_COLORSPACE_SRGB, UTIL_FORMAT_COLORSPACE_SRGB
  | UTIL_FORMAT_COLORSPACE_YUV, UTIL_FORMAT_COLORSPACE_YUV
  | UTIL_FORMAT_COLORSPACE_ZS, UTIL_FORMAT_COLORSPACE_ZS => true
  | _, _ => false
  end.

Definition format_eqb (a b : pipe_format) : bool :=
  match a, b with
  | PIPE_FORMAT_RGTC1_SNORM, PIPE_FORMAT_RGTC1_SNORM
  | PIPE_FORMAT_RGTC2_SNORM, PIPE_FORMAT_RGTC2_SNORM
  | PIPE_FORMAT_LATC1_SNORM, PIPE_FORMAT_LATC1_SNORM
  | PIPE_FORMAT_LATC2_SNORM, PIPE_FORMAT_LATC2_SNORM
  | PIPE_FORMAT_BPTC_RGBA_UNORM, PIPE_FORMAT_BPTC_RGBA_UNORM
  | PIPE_FORMAT_ETC1_RGB8, PIPE_FORMAT_ETC1_RGB8
  | PIPE_FORMAT_R1_UNORM, PIPE_FORMAT_R1_UNORM
  | PIPE_FORMAT_UYVY, PIPE_FORMAT_UYVY
  | PIPE_FORMAT_YUYV, PIPE_FORMAT_YUYV
  | PIPE_FORMAT_R8G8_B8G8_UNORM, PIPE_FORMAT_R8G8_B8G8_UNORM
  | PIPE_FORMAT_G8R8_G8B8_UNORM, PIPE_FORMAT_G8R8_G8B8_UNORM => true
  | PIPE_FORMAT_NUM n, PIPE_FORMAT_NUM m => n =? m
  | _, _ => false
  end.

(** [struct util_format_block]. *)
Record util_format_block : Type := {
  width : Z;
  height : Z;
  bits : Z
}.

(** [struct util_format_channel_description]; the bit-fields [type:5],
    [normalized:1], [pure_integer:1], [size:9] and [shift:16]. *)
Record util_format_channel_description : Type := {
  type : util_format_type;
  normalized : bool;
  pure_integer : bool;
  size : Z;
  shift : Z
}.

(** [struct util_format_description], the fields u_format.c reads. *)
Record util_format_description : Type := {
  format : pipe_format;
  block : util_format_block;
  layout : util_format_layout;
  nr_channels : Z;
  is_mixed : bool;
  is_unorm : bool;
  is_snorm : bool;
  channel : vec4 util_format_channel_description;
  swizzle : vec4 N;
  colorspace : util_format_colorspace
}.

(** [desc->block.width] and [desc->block.height]. *)
Definition block_width (desc : util_format_description) : Z := width (block desc).
Definition block_height (desc : util_format_description) : Z := height (block desc).

(** Modelled from the spec: [enum pipe_swizzle] is declared in
    pipe/p_defines.h, which is not among the sources.  Each swizzle entry
    names a source channel (0-3) or one of the sentinels constant-0,
    constant-1 and none. *)
Definition PIPE_SWIZZLE_X : N := 0.
Definition PIPE_SWIZZLE_Y : N := 1.
Definition PIPE_SWIZZLE_Z : N := 2.
Definition PIPE_SWIZZLE_W : N := 3.
Definition PIPE_SWIZZLE_0 : N := 4.
Definition PIPE_SWIZZLE_1 : N := 5.
Definition PIPE_SWIZZLE_NONE : N := 6.

(** *** util_is_format_compatible *)

Definition util_is_format_compatible (src_desc dst_desc : util_format_description) : bool :=
  if format_eqb (format src_desc) (format dst_desc) then true
  else if negb (layout_eqb (layout src_desc) UTIL_FORMAT_LAYOUT_PLAIN)
          || negb (layout_eqb (layout dst_desc) UTIL_FORMAT_LAYOUT_PLAIN) then false
  else if negb (bits (block src_desc) =? bits (block dst_desc))
          || negb (nr_channels src_desc =? nr_channels dst_desc)
          || negb (colorspace_eqb (colorspace src_desc) (colorspace dst_desc)) then false
  else if negb (forallb (fun chan =>
                   size (at4 (channel src_desc) chan) =? size (at4 (channel dst_desc) chan))
                  range4) then false
  else
    forallb (fun chan =>
      let swz := at4 (swizzle dst_desc) chan in
      if (swz <? 4)%N then
        if negb (at4 (swizzle src_desc) chan =? swz)%N then false
        else if negb (type_eqb (type (at4 (channel src_desc) swz))
                               (type (at4 (channel dst_desc) swz)))
                || negb (Bool.eqb (normalized (at4 (channel src_desc) swz))
                                  (normalized (at4 (channel dst_desc) swz)))
        then false
        else true
      else true) range4.

(** The compatibility relation as section 4.2 of the specification words it. *)
Definition compatible_spec (src dst : util_format_description) : Prop :=
  format src = format dst \/
  (layout src = UTIL_FORMAT_LAYOUT_PLAIN /\ layout dst = UTIL_FORMAT_LAYOUT_PLAIN /\
   bits (block src) = bits (block dst) /\
   nr_channels src = nr_channels dst /\
   colorspace src = colorspace dst /\
   (forall chan, (chan < 4)%N ->
      size (at4 (channel src) chan) = size (at4 (channel dst) chan)) /\
   (forall i, (i < 4)%N ->
      (at4 (swizzle dst) i < 4)%N ->
      at4 (swizzle src) i = at4 (swizzle dst) i /\
      type (at4 (channel src) (at4 (swizzle dst) i)) =
        type (at4 (channel dst) (at4 (swizzle dst) i)) /\
      normalized (at4 (channel src) (at4 (swizzle dst) i)) =
        normalized (at4 (channel dst) (at4 (swizzle dst) i)))).

(** *** Byte buffers

    A buffer is the memory object a [void *] or [ubyte *] argument points
    into, addressed by the byte offset from that pointer.  The destination,
    the source and every scratch allocation are distinct objects ([memcpy]
    requires it of its arguments). *)
Definition buffer : Type := Z -> byte.

(** [memcpy(dst + d, src + s, n)]. *)
Definition memcpy (dst : buffer) (d : Z) (src : buffer) (s : Z) (n : Z) : buffer :=
  fun a => if (d <=? a) && (a <? d + n) then src (s + (a - d)) else dst a.

(** The row loop of [util_copy_rect]: [height] times, [memcpy(dst, src, width)]
    followed by [dst += dst_stride; src += src_stride]. *)
Fixpoint copy_rows (height : nat) (dst : buffer) (d dst_stride : Z)
         (src : buffer) (s src_stride width : Z) : buffer :=
  match height with
  | O => dst
  | S h => copy_rows h (memcpy dst d src s width) (d + dst_stride) dst_stride
                     src (s + src_stride) src_stride width
  end.

(** *** Descriptor lookup and the predicate layer *)
Section Formats.

(** [util_format_description(format)]: the descriptor table, an external
    collaborator (the generated u_format_table.c). *)
Variable describe : pipe_format -> util_format_description.

(** Modelled from the spec: [util_format_get_blocksize],
    [util_format_get_blockwidth] and [util_format_get_blockheight] are inline
    helpers of util/format/u_format.h, which is not among the sources.  They
    return the block byte size (the block bit count over 8, and 1 when that
    is 0), the block width and the block height of the descriptor. *)
Definition util_format_get_blocksize (format : pipe_format) : Z :=
  let bytes := bits (block (describe format)) / 8 in
  if bytes =? 0 then 1 else bytes.

Definition util_format_get_blockwidth (format : pipe_format) : Z :=
  width (block (describe format)).

Definition util_format_get_blockheight (format : pipe_format) : Z :=
  height (block (describe format)).

(** [util_copy_rect].  [None] is a failed [assert].  The unsigned arguments
    are values below 2^32 and [src_stride] is an [int]; every product the
    source computes in [unsigned] wraps at 32 bits. *)
Definition util_copy_rect (dst : buffer) (format : pipe_format)
           (dst_stride dst_x dst_y width height : Z)
           (src : buffer) (src_stride src_x src_y : Z) : option buffer :=
  let src_stride_pos := if src_stride <? 0 then Mach.s32 (- src_stride) else src_stride in
  let blocksize := Mach.s32 (util_format_get_blocksize format) in
  let blockwidth := Mach.s32 (util_format_get_blockwidth format) in
  let blockheight := Mach.s32 (util_format_get_blockheight format) in
  if negb ((0 <? blocksize) && (0 <? blockwidth) && (0 <? blockheight)) then None
  else
    let dst_x := dst_x / blockwidth in
    let dst_y := dst_y / blockheight in
    let width := Mach.u32 (width + blockwidth - 1) / blockwidth in
    let height := Mach.u32 (height + blockheight - 1) / blockheight in
    let src_x := src_x / blockwidth in
    let src_y := src_y / blockheight in
    let d := Mach.u32 (dst_x * blocksize) + Mach.u32 (dst_y * dst_stride) in
    let s := Mach.u32 (src_x * blocksize) + Mach.u32 (src_y * src_stride_pos) in
    let width := Mach.u32 (width * blocksize) in
    if (width =? dst_stride) && (width =? Mach.u32 src_stride) then
      Some (memcpy dst d src s (Mach.u32 (height * width)))
    else
      Some (copy_rows (Z.to_nat height) dst d dst_stride src s src_stride width).

(** Modelled from the spec: [util_format_get_first_non_void_channel] is an
    inline helper of util/format/u_format.h, which is not among the sources.
    It returns the index of the first channel whose type is not void, and -1
    when there is none. *)
Definition util_format_get_first_non_void_channel (format : pipe_format) : Z :=
  let desc := describe format in
  match find (fun i => negb (type_eqb (type (at4 (channel desc) i)) UTIL_FORMAT_TYPE_VOID))
             range4 with
  | Some i => Z.of_N i
  | None => -1
  end.

Definition util_format_is_pure_integer (format : pipe_format) : bool :=
  let desc := describe format in
  let i := util_format_get_first_non_void_channel format in
  if i =? -1 then false
  else pure_integer (at4 (channel desc) (Z.to_N i)).

Definition util_format_is_pure_sint (format : pipe_format) : bool :=
  let desc := describe format in
  let i := util_format_get_first_non_void_channel format in
  if i =? -1 then false
  else type_eqb (type (at4 (channel desc) (Z.to_N i))) UTIL_FORMAT_TYPE_SIGNED
       && pure_integer (at4 (channel desc) (Z.to_N i)).

Definition util_format_is_pure_uint (format : pipe_format) : bool :=
  let desc := describe format in
  let i := util_format_get_first_non_void_channel format in
  if i =? -1 then false
  else type_eqb (type (at4 (channel desc) (Z.to_N i))) UTIL_FORMAT_TYPE_UNSIGNED
       && pure_integer (at4 (channel desc) (Z.to_N i)).

(** The geometry [util_copy_rect] derives from its arguments: the bytes of
    one row of blocks, the number of block rows, and the offset of the first
    block of a view with the given stride. *)
Definition rect_row_bytes (format : pipe_format) (w : Z) : Z :=
  Mach.u32 (Mach.u32 (w + util_format_get_blockwidth format - 1)
            / util_format_get_blockwidth format
            * util_format_get_blocksize format).

Definition rect_rows (format : pipe_format) (h : Z) : Z :=
  Mach.u32 (h + util_format_get_blockheight format - 1)
  / util_format_get_blockheight format.

Definition rect_origin (format : pipe_format) (stride x y : Z) : Z :=
  Mach.u32 (x / util_format_get_blockwidth format
            * util_format_get_blocksize format)
  + Mach.u32 (y / util_format_get_blockheight format * stride).

(** A descriptor whose block extents are positive [int]s and whose bit count
    is an [unsigned]. *)
Definition block_ok (format : pipe_format) : Prop :=
  0 < block_width (describe format) < 2 ^ 31 /\
  0 < block_height (describe format) < 2 ^ 31 /\
  0 <= bits (block (describe format)) < 2 ^ 32.

End Formats.

(** [util_format_fits_8unorm].  The plain-layout loop visits the channels
    [0 .. nr_channels - 1]. *)
Definition util_format_fits_8unorm (format_desc : util_format_description) : bool :=
  if colorspace_eqb (colorspace format_desc) UTIL_FORMAT_COLORSPACE_SRGB then false
  else
    match layout format_desc with
    | UTIL_FORMAT_LAYOUT_S3TC => true
    | UTIL_FORMAT_LAYOUT_RGTC =>
        if format_eqb (format format_desc) PIPE_FORMAT_RGTC1_SNORM
           || format_eqb (format format_desc) PIPE_FORMAT_RGTC2_SNORM
           || format_eqb (format format_desc) PIPE_FORMAT_LATC1_SNORM
           || format_eqb (format format_desc) PIPE_FORMAT_LATC2_SNORM
        then false else true
    | UTIL_FORMAT_LAYOUT_BPTC =>
        if format_eqb (format format_desc) PIPE_FORMAT_BPTC_RGBA_UNORM then true else false
    | UTIL_FORMAT_LAYOUT_ETC =>
        if format_eqb (format format_desc) PIPE_FORMAT_ETC1_RGB8 then true else false
    | UTIL_FORMAT_LAYOUT_PLAIN =>
        forallb (fun chan =>
                   match type (at4 (channel format_desc) chan) with
                   | UTIL_FORMAT_TYPE_VOID => true
                   | UTIL_FORMAT_TYPE_UNSIGNED =>
                       if negb (normalized (at4 (channel format_desc) chan))
                          || (8 <? size (at4 (channel format_desc) chan))
                       then false else true
                   | _ => false
                   end)
                (map N.of_nat (seq 0 (Z.to_nat (nr_channels format_desc))))
    | _ =>
        match format format_desc with
        | PIPE_FORMAT_R1_UNORM
        | PIPE_FORMAT_UYVY
        | PIPE_FORMAT_YUYV
        | PIPE_FORMAT_R8G8_B8G8_UNORM
        | PIPE_FORMAT_G8R8_G8B8_UNORM => true
        | _ => false
        end
    end.

(** *** The generic pixel translator *)

(** A pack or unpack capability, a function pointer taking
    [(dst, dst_stride, src, src_stride, width, height)]: it reads the rows at
    [src] and returns the object [dst] points into, rewritten. *)
Definition convert_rows : Type :=
  buffer -> Z -> Z -> buffer -> Z -> Z -> Z -> Z -> buffer.

(** [struct util_format_pack_description]: a null function pointer is [None]. *)
Record util_format_pack_description : Type := {
  pack_rgba_8unorm : option convert_rows;
  pack_rgba_float : option convert_rows;
  pack_rgba_uint : option convert_rows;
  pack_rgba_sint : option convert_rows;
  pack_z_float : option convert_rows;
  pack_s_8uint : option convert_rows
}.

(** [struct util_format_unpack_description]. *)
Record util_format_unpack_description : Type := {
  unpack_rgba_8unorm : option convert_rows;
  unpack_rgba : option convert_rows;
  unpack_z_float : option convert_rows;
  unpack_s_8uint : option convert_rows
}.

(** What a call of [util_format_translate] comes to: it returns [ok] and
    leaves [dst] in the destination object, or it stops on a failed [assert]
    or on undefined behaviour (a remainder by zero, a call through a null
    capability). *)
Inductive outcome : Type :=
| Done (ok : bool) (dst : buffer)
| Abort.

(** [assert(x % b == 0)]. *)
Definition aligned (x b : Z) : bool := (0 <? b) && (x mod b =? 0).

(** State of the row-batch loops. *)
Record batch_state : Type := {
  st_dst : buffer;
  st_tmp : buffer;
  st_dst_row : Z;
  st_src_row : Z;
  st_height : Z
}.

Section Translate.

Variable describe : pipe_format -> util_format_description.
(** [util_format_pack_description] and [util_format_unpack_description]: the
    capability tables, external collaborators. *)
Variable pack_description : pipe_format -> util_format_pack_description.
Variable unpack_description : pipe_format -> util_format_unpack_description.
(** [malloc]: the [n]-th allocation of the call, of the given size, fails
    ([None]) or yields a fresh object. *)
Variable malloc : nat -> Z -> option buffer.

(** One pass of
    [unpack(tmp_row, tmp_stride, src_row, src_stride, width, rows);
     pack(dst_row, dst_stride, tmp_row, tmp_stride, width, rows);] *)
Definition convert_batch (unpack pack : convert_rows) (src : buffer)
           (dst_stride src_stride tmp_stride width rows : Z) (st : batch_state) : batch_state :=
  let tmp := unpack (st_tmp st) 0 tmp_stride src (st_src_row st) src_stride width rows in
  let dst := pack (st_dst st) (st_dst_row st) dst_stride tmp 0 tmp_stride width rows in
  {| st_dst := dst; st_tmp := tmp; st_dst_row := st_dst_row st;
     st_src_row := st_src_row st; st_height := st_height st |}.

(** [while (height >= y_step) { unpack; pack; dst_row += dst_step;
    src_row += src_step; height -= y_step; }] *)
Fixpoint batch_loop (fuel : nat) (unpack pack : convert_rows) (src : buffer)
         (dst_stride src_stride tmp_stride width y_step dst_step src_step : Z)
         (st : batch_state) : batch_state :=
  match fuel with
  | O => st
  | S fuel' =>
      if y_step <=? st_height st then
        let st1 := convert_batch unpack pack src dst_stride src_stride tmp_stride
                                 width y_step st in
        batch_loop fuel' unpack pack src dst_stride src_stride tmp_stride width
                   y_step dst_step src_step
                   {| st_dst := st_dst st1; st_tmp := st_tmp st1;
                      st_dst_row := st_dst_row st1 + dst_step;
                      st_src_row := st_src_row st1 + src_step;
                      st_height := st_height st1 - y_step |}
      else st
  end.

(** The batch loop followed by [if (height) { unpack; pack; }]: the body
    shared by the 8-bit unorm, signed, unsigned and float paths. *)
Definition convert_rect (unpack pack : convert_rows) (dst src tmp : buffer)
           (dst_row src_row dst_stride src_stride tmp_stride width height
            y_step dst_step src_step : Z) : buffer :=
  let st := batch_loop (Z.to_nat height) unpack pack src dst_stride src_stride
                       tmp_stride width y_step dst_step src_step
                       {| st_dst := dst; st_tmp := tmp; st_dst_row := dst_row;
                          st_src_row := src_row; st_height := height |} in
  if st_height st =? 0 then st_dst st
  else st_dst (convert_batch unpack pack src dst_stride src_stride tmp_stride
                             width (st_height st) st).

(** Modelled from the spec: [util_format_unpack_z_float],
    [util_format_pack_z_float], [util_format_unpack_s_8uint] and
    [util_format_pack_s_8uint] are inline helpers of util/format/u_format.h,
    which is not among the sources.  Each converts one scanline of [width]
    pixels through the capability of that name (strides 0, one row). *)
Definition convert_scanline (f : convert_rows) (dst : buffer) (d : Z)
           (src : buffer) (s : Z) (width : Z) : buffer :=
  f dst d 0 src s 0 width 1.

(** The scanline loop of the depth/stencil path, [while (height--) { ... }];
    [tmp_z] and [tmp_s] are [None] when null. *)
Fixpoint zs_loop (height : nat)
         (z s : option (convert_rows * convert_rows * buffer))
         (dst src : buffer) (dst_row src_row dst_step src_step width : Z) : buffer :=
  match height with
  | O => dst
  | S h =>
      let dst1 :=
        match z with
        | Some (unpack_z, pack_z, tmp_z) =>
            convert_scanline pack_z dst dst_row
              (convert_scanline unpack_z tmp_z 0 src src_row width) 0 width
        | None => dst
        end in
      let dst2 :=
        match s with
        | Some (unpack_s, pack_s, tmp_s) =>
            convert_scanline pack_s dst1 dst_row
              (convert_scanline unpack_s tmp_s 0 src src_row width) 0 width
        | None => dst1
        end in
      zs_loop h
              (match z with
               | Some (u, p, tmp_z) =>
                   Some (u, p, convert_scanline u tmp_z 0 src src_row width)
               | None => None
               end)
              (match s with
               | Some (u, p, tmp_s) =>
                   Some (u, p, convert_scanline u tmp_s 0 src src_row width)
               | None => None
               end)
              dst2 src (dst_row + dst_step) (src_row + src_step) dst_step src_step width
  end.

(** The conversion path [util_format_translate] takes, in the order the
    source tests for them. *)
Inductive translate_path : Type :=
| PATH_COPY
| PATH_ZS
| PATH_8UNORM
| PATH_SINT
| PATH_UINT
| PATH_FLOAT.

Definition translate_path_of (dst_format src_format : pipe_format) : translate_path :=
  let dst_format_desc := describe dst_format in
  let src_format_desc := describe src_format in
  if util_is_format_compatible src_format_desc dst_format_desc then PATH_COPY
  else if colorspace_eqb (colorspace src_format_desc) UTIL_FORMAT_COLORSPACE_ZS
          || colorspace_eqb (colorspace dst_format_desc) UTIL_FORMAT_COLORSPACE_ZS
  then PATH_ZS
  else if util_format_fits_8unorm src_format_desc
          || util_format_fits_8unorm dst_format_desc
  then PATH_8UNORM
  else if util_format_is_pure_sint describe src_format
          || util_format_is_pure_sint describe dst_format
  then PATH_SINT
  else if util_format_is_pure_uint describe src_format
          || util_format_is_pure_uint describe dst_format
  then PATH_UINT
  else PATH_FLOAT.

(** The four [assert]s on the coordinates and the two on [y_step]. *)
Definition translate_asserts (dst_format src_format : pipe_format)
           (dst_x dst_y src_x src_y : Z) : bool :=
  let dst_format_desc := describe dst_format in
  let src_format_desc := describe src_format in
  let y_step := Mach.MAX2 (block_height dst_format_desc) (block_height src_format_desc) in
  aligned dst_x (block_width dst_format_desc)
  && aligned dst_y (block_height dst_format_desc)
  && aligned src_x (block_width src_format_desc)
  && aligned src_y (block_height src_format_desc)
  && aligned y_step (block_height dst_format_desc)
  && aligned y_step (block_height src_format_desc).

(** The body of a batch path once its capabilities are known:
    [tmp_stride = MAX2(width, x_step) * 4 * sizeof *tmp_row;
     tmp_row = malloc(y_step * tmp_stride); if (!tmp_row) return FALSE; ...] *)
Definition batch_path (elt_size : Z) (unpack pack : convert_rows) (dst src : buffer)
           (dst_row src_row dst_stride src_stride width height
            x_step y_step dst_step src_step : Z) : outcome :=
  let tmp_stride := Mach.u32 (Mach.u32 (Mach.MAX2 width x_step * 4) * elt_size) in
  match malloc 0 (Mach.u32 (y_step * tmp_stride)) with
  | None => Done false dst
  | Some tmp_row =>
      Done true (convert_rect unpack pack dst src tmp_row dst_row src_row dst_stride
                              src_stride tmp_stride width height y_step dst_step src_step)
  end.

(** A call through a capability the source does not test: null is undefined. *)
Definition batch_path_unchecked (elt_size : Z) (unpack pack : option convert_rows)
           (dst src : buffer)
           (dst_row src_row dst_stride src_stride width height
            x_step y_step dst_step src_step : Z) : outcome :=
  let tmp_stride := Mach.u32 (Mach.u32 (Mach.MAX2 width x_step * 4) * elt_size) in
  match malloc 0 (Mach.u32 (y_step * tmp_stride)) with
  | None => Done false dst
  | Some tmp_row =>
      match unpack, pack with
      | Some u, Some p =>
          Done true (convert_rect u p dst src tmp_row dst_row src_row dst_stride
                                  src_stride tmp_stride width height y_step dst_step src_step)
      | _, _ => if height =? 0 then Done true dst else Abort
      end
  end.

(** [util_format_translate]. *)
Definition util_format_translate (dst_format : pipe_format) (dst : buffer)
           (dst_stride dst_x dst_y : Z)
           (src_format : pipe_format) (src : buffer)
           (src_stride src_x src_y width height : Z) : outcome :=
  let pack := pack_description dst_format in
  let unpack := unpack_description src_format in
  let dst_format_desc := describe dst_format in
  let src_format_desc := describe src_format in
  if util_is_format_compatible src_format_desc dst_format_desc then
    match util_copy_rect describe dst dst_format dst_stride dst_x dst_y width height
                         src (Mach.s32 src_stride) src_x src_y with
    | Some dst' => Done true dst'
    | None => Abort
    end
  else if negb (translate_asserts dst_format src_format dst_x dst_y src_x src_y) then Abort
  else
    let dst_row := Mach.u32 (dst_y * dst_stride)
                   + Mach.u32 (dst_x * (bits (block dst_format_desc) / 8)) in
    let src_row := Mach.u32 (src_y * src_stride)
                   + Mach.u32 (src_x * (bits (block src_format_desc) / 8)) in
    let y_step := Mach.MAX2 (block_height dst_format_desc) (block_height src_format_desc) in
    let x_step := Mach.MAX2 (block_width dst_format_desc) (block_width src_format_desc) in
    let dst_step := Mach.u32 (y_step / block_height dst_format_desc * dst_stride) in
    let src_step := Mach.u32 (y_step / block_height src_format_desc * src_stride) in
    if colorspace_eqb (colorspace src_format_desc) UTIL_FORMAT_COLORSPACE_ZS
       || colorspace_eqb (colorspace dst_format_desc) UTIL_FORMAT_COLORSPACE_ZS then
      if negb ((x_step =? 1) && (y_step =? 1)) then Abort
      else
        let tmp_z :=
          match unpack_z_float unpack, pack_z_float pack with
          | Some u, Some p =>
              match malloc 0 (width * 4) with
              | Some t => Some (u, p, t)
              | None => None
              end
          | _, _ => None
          end in
        let allocations :=
          match unpack_z_float unpack, pack_z_float pack with
          | Some _, Some _ => 1%nat
          | _, _ => 0%nat
          end in
        let tmp_s :=
          match unpack_s_8uint unpack, pack_s_8uint pack with
          | Some u, Some p =>
              match malloc allocations (width * 1) with
              | Some t => Some (u, p, t)
              | None => None
              end
          | _, _ => None
          end in
        Done true (zs_loop (Z.to_nat height) tmp_z tmp_s dst src dst_row src_row
                           dst_step src_step width)
    else if util_format_fits_8unorm src_format_desc
            || util_format_fits_8unorm dst_format_desc then
      match unpack_rgba_8unorm unpack, pack_rgba_8unorm pack with
      | Some u, Some p =>
          batch_path 1 u p dst src dst_row src_row dst_stride src_stride width height
                     x_step y_step dst_step src_step
      | _, _ => Done false dst
      end
    else if util_format_is_pure_sint describe src_format
            || util_format_is_pure_sint describe dst_format then
      if negb (Bool.eqb (util_format_is_pure_sint describe src_format)
                        (util_format_is_pure_sint describe dst_format))
      then Done false dst
      else
        batch_path_unchecked 4 (unpack_rgba unpack) (pack_rgba_sint pack) dst src
                             dst_row src_row dst_stride src_stride width height
                             x_step y_step dst_step src_step
    else if util_format_is_pure_uint describe src_format
            || util_format_is_pure_uint describe dst_format then
      match unpack_rgba unpack, pack_rgba_uint pack with
      | Some u, Some p =>
          batch_path 4 u p dst src dst_row src_row dst_stride src_stride width height
                     x_step y_step dst_step src_step
      | _, _ => Done false dst
      end
    else
      match unpack_rgba unpack, pack_rgba_float pack with
      | Some u, Some p =>
          batch_path 4 u p dst src dst_row src_row dst_stride src_stride width height
                     x_step y_step dst_step src_step
      | _, _ => Done false dst
      end.

End Translate.

(** One channel of the depth/stencil path as the scanline loop sees it: the
    two capabilities and the scratch row [tmp] that [malloc] returned for
    them.  The channel is left out ([None], the null scratch pointer) when
    a capability is missing on either side or the allocation failed. *)
Definition zs_channel (unpack pack : option convert_rows) (tmp : option buffer) :
  option (convert_rows * convert_rows * buffer) :=
  match unpack, pack, tmp with
  | Some u, Some p, Some t => Some (u, p, t)
  | _, _, _ => None
  end.

(** *** util_get_depth_format_mrd *)

(** Conversion of an unsigned integer below 2^63 to [double]. *)
Definition double_of_unsigned (x : Z) : float := PrimFloat.of_uint63 (Uint63.of_Z x).

(** [util_get_depth_format_mrd].  [None] is undefined behaviour: a read past
    [channel[3]] (the swizzle entry is a sentinel) or a shift by 64 or more. *)
Definition util_get_depth_format_mrd (desc : util_format_description) : option float :=
  let mrd := (1 / double_of_unsigned (Mach.s32 (Z.shiftl 1 24) - 1))%float in
  let depth_channel := at4 (swizzle desc) 0 in
  match at4_opt (channel desc) depth_channel with
  | None => None
  | Some c =>
      if type_eqb (type c) UTIL_FORMAT_TYPE_UNSIGNED && normalized c then
        let depth_bits := size c in
        if (depth_bits <? 0) || (64 <=? depth_bits) then None
        else Some (1 / double_of_unsigned (Mach.u64 (Mach.u64 (Z.shiftl 1 depth_bits) - 1)))%float
      else Some mrd
  end.

(** *** Swizzle application *)

(** [union pipe_color_union]: four 32-bit words, read as [f[4]], [i[4]] or
    [ui[4]].  A [float] is modelled by its IEEE-754 binary32 bit pattern;
    the swizzle helpers only copy floats and store the literals 0 and 1. *)
Definition pipe_color_union : Type := vec4 Z.

Definition float_0 : Z := 0.
Definition float_1 : Z := 0x3f800000.

(** One iteration of the loop of [pipe_swizzle_4f]. *)
Definition pipe_swizzle_4f_step (src : vec4 Z) (swz : vec4 N) (dst : vec4 Z) (i : N) : vec4 Z :=
  if (at4 swz i <=? PIPE_SWIZZLE_W)%N then set4 dst i (at4 src (at4 swz i))
  else if (at4 swz i =? PIPE_SWIZZLE_0)%N then set4 dst i float_0
  else if (at4 swz i =? PIPE_SWIZZLE_1)%N then set4 dst i float_1
  else dst.

(** [pipe_swizzle_4f]; [dst] and [src] are distinct arrays. *)
Definition pipe_swizzle_4f (dst src : vec4 Z) (swz : vec4 N) : vec4 Z :=
  fold_left (pipe_swizzle_4f_step src swz) range4 dst.

(** One iteration of either loop of [util_format_apply_color_swizzle]; [one]
    is the literal stored for the constant-1 sentinel (1 or 1.0f), [zero]
    the one stored otherwise (0 or 0.0f). *)
Definition apply_color_swizzle_step (one zero : Z) (src : pipe_color_union) (swz : vec4 N)
           (dst : pipe_color_union) (c : N) : pipe_color_union :=
  match at4 swz c with
  | 0%N => set4 dst c (at4 src 0)
  | 1%N => set4 dst c (at4 src 1)
  | 2%N => set4 dst c (at4 src 2)
  | 3%N => set4 dst c (at4 src 3)
  | _ => set4 dst c (if (at4 swz c =? PIPE_SWIZZLE_1)%N then one else zero)
  end.

(** [util_format_apply_color_swizzle]. *)
Definition util_format_apply_color_swizzle (dst src : pipe_color_union) (swz : vec4 N)
           (is_integer : bool) : pipe_color_union :=
  if is_integer then fold_left (apply_color_swizzle_step 1 0 src swz) range4 dst
  else fold_left (apply_color_swizzle_step float_1 float_0 src swz) range4 dst.

(** *** Example descriptors, as the generated table has them *)

Definition chan (t : util_format_type) (norm pure : bool) (sz sh : Z) :
  util_format_channel_description :=
  {| type := t; normalized := norm; pure_integer := pure; size := sz; shift := sh |}.

Definition chan_none : util_format_channel_description :=
  chan UTIL_FORMAT_TYPE_VOID false false 0 0.

Definition plain_desc (f : pipe_format) (nbits nr : Z)
           (c : vec4 util_format_channel_description) (swz : vec4 N)
           (cs : util_format_colorspace) : util_format_description :=
  {| format := f; block := {| width := 1; height := 1; bits := nbits |};
     layout := UTIL_FORMAT_LAYOUT_PLAIN; nr_channels := nr;
     is_mixed := false; is_unorm := false; is_snorm := false;
     channel := c; swizzle := swz; colorspace := cs |}.

Definition PIPE_FORMAT_R32_FLOAT : pipe_format := PIPE_FORMAT_NUM 1.
Definition PIPE_FORMAT_R32_SINT : pipe_format := PIPE_FORMAT_NUM 2.
Definition PIPE_FORMAT_R8G8B8A8_USCALED : pipe_format := PIPE_FORMAT_NUM 3.
Definition PIPE_FORMAT_R8G8B8A8_UINT : pipe_format := PIPE_FORMAT_NUM 4.
Definition PIPE_FORMAT_Z24_UNORM_S8_UINT : pipe_format := PIPE_FORMAT_NUM 5.
Definition PIPE_FORMAT_Z16_UNORM : pipe_format := PIPE_FORMAT_NUM 6.
Definition PIPE_FORMAT_S8_UINT : pipe_format := PIPE_FORMAT_NUM 7.

(** One 32-bit float channel, under the identifier [f]. *)
Definition desc_float32 (f : pipe_format) : util_format_description :=
  plain_desc f 32 1
    (Vec4 (chan UTIL_FORMAT_TYPE_FLOAT false false 32 0) chan_none chan_none chan_none)
    (Vec4 PIPE_SWIZZLE_X PIPE_SWIZZLE_0 PIPE_SWIZZLE_0 PIPE_SWIZZLE_1)
    UTIL_FORMAT_COLORSPACE_RGB.

Definition desc_R32_FLOAT : util_format_description := desc_float32 PIPE_FORMAT_R32_FLOAT.

Definition desc_R32_SINT : util_format_description :=
  plain_desc PIPE_FORMAT_R32_SINT 32 1
    (Vec4 (chan UTIL_FORMAT_TYPE_SIGNED false true 32 0) chan_none chan_none chan_none)
    (Vec4 PIPE_SWIZZLE_X PIPE_SWIZZLE_0 PIPE_SWIZZLE_0 PIPE_SWIZZLE_1)
    UTIL_FORMAT_COLORSPACE_RGB.

Definition desc_R8G8B8A8_USCALED : util_format_description :=
  plain_desc PIPE_FORMAT_R8G8B8A8_USCALED 32 4
    (Vec4 (chan UTIL_FORMAT_TYPE_UNSIGNED false false 8 0)
          (chan UTIL_FORMAT_TYPE_UNSIGNED false false 8 8)
          (chan UTIL_FORMAT_TYPE_UNSIGNED false false 8 16)
          (chan UTIL_FORMAT_TYPE_UNSIGNED false false 8 24))
    (Vec4 PIPE_SWIZZLE_X PIPE_SWIZZLE_Y PIPE_SWIZZLE_Z PIPE_SWIZZLE_W)
    UTIL_FORMAT_COLORSPACE_RGB.

Definition desc_R8G8B8A8_UINT : util_format_description :=
  plain_desc PIPE_FORMAT_R8G8B8A8_UINT 32 4
    (Vec4 (chan UTIL_FORMAT_TYPE_UNSIGNED false true 8 0)
          (chan UTIL_FORMAT_TYPE_UNSIGNED false true 8 8)
          (chan UTIL_FORMAT_TYPE_UNSIGNED false true 8 16)
          (chan UTIL_FORMAT_TYPE_UNSIGNED false true 8 24))
    (Vec4 PIPE_SWIZZLE_X PIPE_SWIZZLE_Y PIPE_SWIZZLE_Z PIPE_SWIZZLE_W)
    UTIL_FORMAT_COLORSPACE_RGB.

Definition desc_Z24_UNORM_S8_UINT : util_format_description :=
  plain_desc PIPE_FORMAT_Z24_UNORM_S8_UINT 32 2
    (Vec4 (chan UTIL_FORMAT_TYPE_UNSIGNED true false 24 0)
          (chan UTIL_FORMAT_TYPE_UNSIGNED false true 8 24) chan_none chan_none)
    (Vec4 PIPE_SWIZZLE_X PIPE_SWIZZLE_Y PIPE_SWIZZLE_NONE PIPE_SWIZZLE_NONE)
    UTIL_FORMAT_COLORSPACE_ZS.

Definition desc_Z16_UNORM : util_format_description :=
  plain_desc PIPE_FORMAT_Z16_UNORM 16 1
    (Vec4 (chan UTIL_FORMAT_TYPE_UNSIGNED true false 16 0) chan_none chan_none chan_none)
    (Vec4 PIPE_SWIZZLE_X PIPE_SWIZZLE_NONE PIPE_SWIZZLE_NONE PIPE_SWIZZLE_NONE)
    UTIL_FORMAT_COLORSPACE_ZS.

Definition desc_S8_UINT : util_format_description :=
  plain_desc PIPE_FORMAT_S8_UINT 8 1
    (Vec4 (chan UTIL_FORMAT_TYPE_UNSIGNED false true 8 0) chan_none chan_none chan_none)
    (Vec4 PIPE_SWIZZLE_NONE PIPE_SWIZZLE_X PIPE_SWIZZLE_NONE PIPE_SWIZZLE_NONE)
    UTIL_FORMAT_COLORSPACE_ZS.

(** A descriptor table holding the formats above; every other identifier is
    given a one-channel float descriptor. *)
Definition example_describe (f : pipe_format) : util_format_description :=
  match f with
  | PIPE_FORMAT_NUM 2 => desc_R32_SINT
  | PIPE_FORMAT_NUM 3 => desc_R8G8B8A8_USCALED
  | PIPE_FORMAT_NUM 4 => desc_R8G8B8A8_UINT
  | PIPE_FORMAT_NUM 5 => desc_Z24_UNORM_S8_UINT
  | PIPE_FORMAT_NUM 6 => desc_Z16_UNORM
  | PIPE_FORMAT_NUM 7 => desc_S8_UINT
  | _ => desc_float32 f
  end.

(** A capability that leaves its destination as it is. *)
Definition convert_nothing : convert_rows := fun dst _ _ _ _ _ _ _ => dst.

(** Capability tables with every capability present, and with none. *)
Definition pack_all : util_format_pack_description :=
  {| pack_rgba_8unorm := Some convert_nothing; pack_rgba_float := Some convert_nothing;
     pack_rgba_uint := Some convert_nothing; pack_rgba_sint := Some convert_nothing;
     pack_z_float := Some convert_nothing; pack_s_8uint := Some convert_nothing |}.

Definition unpack_all : util_format_unpack_description :=
  {| unpack_rgba_8unorm := Some convert_nothing; unpack_rgba := Some convert_nothing;
     unpack_z_float := Some convert_nothing; unpack_s_8uint := Some convert_nothing |}.

Definition pack_none : util_format_pack_description :=
  {| pack_rgba_8unorm := None; pack_rgba_float := None; pack_rgba_uint := None;
     pack_rgba_sint := None; pack_z_float := None; pack_s_8uint := None |}.

Definition unpack_none : util_format_unpack_description :=
  {| unpack_rgba_8unorm := None; unpack_rgba := None;
     unpack_z_float := None; unpack_s_8uint := None |}.

(** A capability that converts the first byte of its source row. *)
Definition convert_first_byte : convert_rows :=
  fun dst d _ src s _ _ _ => fun a => if a =? d then src s else dst a.

(** The tables of a source that unpacks depth and stencil and of a
    destination that packs depth only. *)
Definition unpack_depth_stencil : util_format_unpack_description :=
  {| unpack_rgba_8unorm := None; unpack_rgba := None;
     unpack_z_float := Some convert_first_byte;
     unpack_s_8uint := Some convert_first_byte |}.

Definition pack_depth : util_format_pack_description :=
  {| pack_rgba_8unorm := None; pack_rgba_float := None; pack_rgba_uint := None;
     pack_rgba_sint := None; pack_z_float := Some convert_first_byte;
     pack_s_8uint := None |}.

Definition zero_buffer : buffer := fun _ => x00.

(** A buffer whose bytes differ from one another over the first 256
    offsets. *)
Definition ramp_buffer : buffer :=
  fun a => match Byte.of_N (Z.to_N (a mod 256)) with Some b => b | None => x00 end.

(** An allocator that never fails. *)
Definition malloc_ok : nat -> Z -> option buffer := fun _ _ => Some zero_buffer.

(** Every capability of both tables is present. *)
Definition all_capabilities_present (unpack : util_format_unpack_description)
           (pack : util_format_pack_description) : Prop :=
  (exists f, unpack_rgba_8unorm unpack = Some f) /\
  (exists f, unpack_rgba unpack = Some f) /\
  (exists f, unpack_z_float unpack = Some f) /\
  (exists f, unpack_s_8uint unpack = Some f) /\
  (exists f, pack_rgba_8unorm pack = Some f) /\
  (exists f, pack_rgba_float pack = Some f) /\
  (exists f, pack_rgba_uint pack = Some f) /\
  (exists f, pack_rgba_sint pack = Some f) /\
  (exists f, pack_z_float pack = Some f) /\
  (exists f, pack_s_8uint pack = Some f).

(** *** The remaining format predicates *)
Section Predicates.

Variable describe : pipe_format -> util_format_description.

(** [util_format_is_float].  The descriptor table is total, so the null
    test on [desc] never fires. *)
Definition util_format_is_float (format : pipe_format) : bool :=
  let desc := describe format in
  let i := util_format_get_first_non_void_channel describe format in
  if i <? 0 then false
  else type_eqb (type (at4 (channel desc) (Z.to_N i))) UTIL_FORMAT_TYPE_FLOAT.

Definition util_format_has_alpha (format : pipe_format) : bool :=
  let desc := describe format in
  (colorspace_eqb (colorspace desc) UTIL_FORMAT_COLORSPACE_RGB
   || colorspace_eqb (colorspace desc) UTIL_FORMAT_COLORSPACE_SRGB)
  && negb (at4 (swizzle desc) 3 =? PIPE_SWIZZLE_1)%N.

Definition util_format_is_luminance (format : pipe_format) : bool :=
  let desc := describe format in
  (colorspace_eqb (colorspace desc) UTIL_FORMAT_COLORSPACE_RGB
   || colorspace_eqb (colorspace desc) UTIL_FORMAT_COLORSPACE_SRGB)
  && (at4 (swizzle desc) 0 =? PIPE_SWIZZLE_X)%N
  && (at4 (swizzle desc) 1 =? PIPE_SWIZZLE_X)%N
  && (at4 (swizzle desc) 2 =? PIPE_SWIZZLE_X)%N
  && (at4 (swizzle desc) 3 =? PIPE_SWIZZLE_1)%N.

Definition util_format_is_alpha (format : pipe_format) : bool :=
  let desc := describe format in
  (colorspace_eqb (colorspace desc) UTIL_FORMAT_COLORSPACE_RGB
   || colorspace_eqb (colorspace desc) UTIL_FORMAT_COLORSPACE_SRGB)
  && (at4 (swizzle desc) 0 =? PIPE_SWIZZLE_0)%N
  && (at4 (swizzle desc) 1 =? PIPE_SWIZZLE_0)%N
  && (at4 (swizzle desc) 2 =? PIPE_SWIZZLE_0)%N
  && (at4 (swizzle desc) 3 =? PIPE_SWIZZLE_X)%N.

Definition util_format_is_snorm (format : pipe_format) : bool :=
  is_snorm (describe format).

Definition util_format_is_unorm (format : pipe_format) : bool :=
  is_unorm (describe format).

Definition util_format_is_snorm8 (format : pipe_format) : bool :=
  let desc := describe format in
  if is_mixed desc then false
  else
    let i := util_format_get_first_non_void_channel describe format in
    if i =? -1 then false
    else type_eqb (type (at4 (channel desc) (Z.to_N i))) UTIL_FORMAT_TYPE_SIGNED
         && negb (pure_integer (at4 (channel desc) (Z.to_N i)))
         && normalized (at4 (channel desc) (Z.to_N i))
         && (size (at4 (channel desc) (Z.to_N i)) =? 8).

Definition util_format_is_luminance_alpha (format : pipe_format) : bool :=
  let desc := describe format in
  (colorspace_eqb (colorspace desc) UTIL_FORMAT_COLORSPACE_RGB
   || colorspace_eqb (colorspace desc) UTIL_FORMAT_COLORSPACE_SRGB)
  && (at4 (swizzle desc) 0 =? PIPE_SWIZZLE_X)%N
  && (at4 (swizzle desc) 1 =? PIPE_SWIZZLE_X)%N
  && (at4 (swizzle desc) 2 =? PIPE_SWIZZLE_X)%N
  && (at4 (swizzle desc) 3 =? PIPE_SWIZZLE_Y)%N.

Definition util_format_is_intensity (format : pipe_format) : bool :=
  let desc := describe format in
  (colorspace_eqb (colorspace desc) UTIL_FORMAT_COLORSPACE_RGB
   || colorspace_eqb (colorspace desc) UTIL_FORMAT_COLORSPACE_SRGB)
  && (at4 (swizzle desc) 0 =? PIPE_SWIZZLE_X)%N
  && (at4 (swizzle desc) 1 =? PIPE_SWIZZLE_X)%N
  && (at4 (swizzle desc) 2 =? PIPE_SWIZZLE_X)%N
  && (at4 (swizzle desc) 3 =? PIPE_SWIZZLE_X)%N.

Definition util_format_is_subsampled_422 (format : pipe_format) : bool :=
  let desc := describe format in
  layout_eqb (layout desc) UTIL_FORMAT_LAYOUT_SUBSAMPLED
  && (width (block desc) =? 2)
  && (height (block desc) =? 1)
  && (bits (block desc) =? 32).

End Predicates.

(** *** Swizzle composition and unswizzling *)

(** One iteration of the loop of [util_format_compose_swizzles]. *)
Definition util_format_compose_swizzles_step (swz1 swz2 : vec4 N) (dst : vec4 N) (i : N) :
  vec4 N :=
  set4 dst i (if (at4 swz2 i <=? PIPE_SWIZZLE_W)%N then at4 swz1 (at4 swz2 i)
              else at4 swz2 i).

(** [util_format_compose_swizzles]; [dst] is an array of its own, distinct
    from [swz1] and [swz2]. *)
Definition util_format_compose_swizzles (swz1 swz2 dst : vec4 N) : vec4 N :=
  fold_left (util_format_compose_swizzles_step swz1 swz2) range4 dst.

(** One iteration of the loop of [util_format_unswizzle_4f]. *)
Definition util_format_unswizzle_4f_step (src : vec4 Z) (swz : vec4 N) (dst : vec4 Z) (i : N) :
  vec4 Z :=
  match at4 swz i with
  | 0%N => set4 dst 0 (at4 src i)
  | 1%N => set4 dst 1 (at4 src i)
  | 2%N => set4 dst 2 (at4 src i)
  | 3%N => set4 dst 3 (at4 src i)
  | _ => dst
  end.

(** [util_format_unswizzle_4f]; [dst] and [src] are distinct arrays. *)
Definition util_format_unswizzle_4f (dst src : vec4 Z) (swz : vec4 N) : vec4 Z :=
  fold_left (util_format_unswizzle_4f_step src swz) range4 dst.

(** The four entries of a swizzle name the four channels, each once. *)
Definition swizzle_is_permutation (swz : vec4 N) : bool :=
  forallb (fun c => existsb (fun i => (at4 swz i =? c)%N) range4) range4
  && forallb (fun i => (at4 swz i <? 4)%N) range4.

(** *** util_format_translate_3d *)

(** The memory object [b] as addressed from the pointer [off] bytes into
    it, and the object after a callee given that pointer has left [view]
    behind it. *)
Definition offset_view (b : buffer) (off : Z) : buffer := fun a => b (off + a).

Definition write_back (off : Z) (view : buffer) : buffer := fun a => view (a - off).

Section Translate3d.

Variable describe : pipe_format -> util_format_description.
Variable pack_description : pipe_format -> util_format_pack_description.
Variable unpack_description : pipe_format -> util_format_unpack_description.
(** [malloc z n size]: the [n]-th allocation made while slice [z] is
    translated. *)
Variable malloc : nat -> nat -> Z -> option buffer.

(** The slice loop, [depth] slices from slice number [z] on:
    [if (!util_format_translate(...)) return FALSE;
     dst_layer += dst_slice_stride; src_layer += src_slice_stride;] *)
Fixpoint translate_layers (depth z : nat) (dst_format : pipe_format) (dst : buffer)
         (dst_layer dst_stride dst_slice_stride dst_x dst_y : Z)
         (src_format : pipe_format) (src : buffer)
         (src_layer src_stride src_slice_stride src_x src_y width height : Z) : outcome :=
  match depth with
  | O => Done true dst
  | S depth' =>
      match util_format_translate describe pack_description unpack_description (malloc z)
                                  dst_format (offset_view dst dst_layer)
                                  dst_stride dst_x dst_y
                                  src_format (offset_view src src_layer)
                                  src_stride src_x src_y width height with
      | Done true dst' =>
          translate_layers depth' (S z) dst_format (write_back dst_layer dst')
                           (dst_layer + dst_slice_stride) dst_stride dst_slice_stride
                           dst_x dst_y
                           src_format src
                           (src_layer + src_slice_stride) src_stride src_slice_stride
                           src_x src_y width height
      | Done false dst' => Done false (write_back dst_layer dst')
      | Abort => Abort
      end
  end.

(** [util_format_translate_3d]. *)
Definition util_format_translate_3d (dst_format : pipe_format) (dst : buffer)
           (dst_stride dst_slice_stride dst_x dst_y dst_z : Z)
           (src_format : pipe_format) (src : buffer)
           (src_stride src_slice_stride src_x src_y src_z width height depth : Z) : outcome :=
  translate_layers (Z.to_nat depth) 0 dst_format dst
                   (Mach.u32 (dst_z * dst_slice_stride)) dst_stride dst_slice_stride
                   dst_x dst_y
                   src_format src
                   (Mach.u32 (src_z * src_slice_stride)) src_stride src_slice_stride
                   src_x src_y width height.

End Translate3d.

End Format.

(** ** compiler/nir/nir_linking_helpers.c *)

(** The helpers are modelled as the release build runs them: the [assert]s
    on the variable modes, on the array-ness of per-vertex types and on the
    stages of the two shaders have no effect on the result and are left
    out.  Where the linked location assignment is undefined
    ([unreachable()], a mask shifted by 64 or more, the assertion inside
    [u_bit_consecutive64]) the model returns [None]; the shifts of
    [get_variable_io_mask] go through [shl64]. *)
Module Linking.

(** *** Shaders, as the linking helpers see them *)

(** [gl_shader_stage]. *)
Inductive gl_shader_stage : Type :=
| MESA_SHADER_VERTEX
| MESA_SHADER_TESS_CTRL
| MESA_SHADER_TESS_EVAL
| MESA_SHADER_GEOMETRY
| MESA_SHADER_FRAGMENT
| MESA_SHADER_COMPUTE.

(** [nir_variable_mode], the modes the helpers name. *)
Inductive nir_variable_mode : Type :=
| nir_var_shader_in
| nir_var_shader_out
| nir_var_shader_temp
| nir_var_system_value
| nir_var_uniform.

Definition stage_eqb (a b : gl_shader_stage) : bool :=
  match a, b with
  | MESA_SHADER_VERTEX, MESA_SHADER_VERTEX
  | MESA_SHADER_TESS_CTRL, MESA_SHADER_TESS_CTRL
  | MESA_SHADER_TESS_EVAL, MESA_SHADER_TESS_EVAL
  | MESA_SHADER_GEOMETRY, MESA_SHADER_GEOMETRY
  | MESA_SHADER_FRAGMENT, MESA_SHADER_FRAGMENT
  | MESA_SHADER_COMPUTE, MESA_SHADER_COMPUTE => true
  | _, _ => false
  end.

Definition mode_eqb (a b : nir_variable_mode) : bool :=
  match a, b with
  | nir_var_shader_in, nir_var_shader_in
  | nir_var_shader_out, nir_var_shader_out
  | nir_var_shader_temp, nir_var_shader_temp
  | nir_var_system_value, nir_var_system_value
  | nir_var_uniform, nir_var_uniform => true
  | _, _ => false
  end.

(** [struct nir_variable_data], the fields the helpers read or write:
    [location] is an [int] (negative when unassigned), [location_frac] a
    two-bit field, [driver_location] an [unsigned]. *)
Record nir_variable_data : Type := {
  mode : nir_variable_mode;
  location : Z;
  location_frac : Z;
  driver_location : Z;
  patch : bool;
  always_active_io : bool;
  explicit_xfb_buffer : bool;
  per_view : bool;
  compact : bool;
  sample : bool;
  centroid : bool;
  interpolation : Z
}.

(** [nir_intrinsic_op], as far as the helpers tell them apart. *)
Inductive nir_intrinsic_op : Type :=
| nir_intrinsic_load_deref
| nir_intrinsic_store_deref
| nir_intrinsic_other.

(** A deref: its mode and the variable it is rooted at, given by the
    position of that variable in the shader's variable list (the pointer
    [nir_deref_instr_get_variable] returns aliases that list entry). *)
Record nir_deref_instr : Type := {
  deref_mode : nir_variable_mode;
  deref_var : nat
}.

(** [nir_instr]: an intrinsic with its first source read as a deref, or any
    other instruction. *)
Inductive nir_instr : Type :=
| nir_instr_type_intrinsic (intrinsic : nir_intrinsic_op) (src0 : nir_deref_instr)
| nir_instr_type_other.

(** A function: [impl] is its list of blocks, each a list of instructions,
    or [None] when the function has no implementation. *)
Record nir_function : Type := {
  impl : option (list (list nir_instr))
}.

(** [|=] on element [n] of an array; a write past its end is undefined and
    leaves the model's array as it is. *)
Fixpoint or_nth (a : list Z) (n : nat) (m : Z) : list Z :=
  match a, n with
  | [], _ => []
  | x :: t, O => Z.lor x m :: t
  | x :: t, S n' => x :: or_nth t n' m
  end.

(** [x << n] on a [uint64_t]; a shift by 64 or more is undefined in C, the
    model yields 0 for it. *)
Definition shl64 (x n : Z) : Z := if n <? 64 then Mach.u64 (Z.shiftl x n) else 0.

(** [a] is included in [b], element by element. *)
Definition masks_sub (a b : list Z) : Prop :=
  length a = length b /\ forall k, Z.land (nth k a 0) (nth k b 0) = nth k a 0.

(** Inclusion of pairs of mask arrays ([non-patch], [patch]). *)
Definition masks2_sub (m m' : list Z * list Z) : Prop :=
  masks_sub (fst m) (fst m') /\ masks_sub (snd m) (snd m').

(** [map] over a list with a step that may fail. *)
Fixpoint map_option {A B : Type} (f : A -> option B) (l : list A) : option (list B) :=
  match l with
  | [] => Some []
  | x :: t =>
      match f x, map_option f t with
      | Some y, Some t' => Some (y :: t')
      | _, _ => None
      end
  end.

(** [struct nir_variable], over the type of GLSL types. *)
Record nir_variable (glsl_type : Type) : Type := {
  type : glsl_type;
  data : nir_variable_data
}.
Arguments type {glsl_type} _.
Arguments data {glsl_type} _.
Arguments Build_nir_variable {glsl_type} _ _.

(** [struct nir_shader]: the stage of [info], the variable list and the
    functions. *)
Record nir_shader (glsl_type : Type) : Type := {
  info_stage : gl_shader_stage;
  variables : list (nir_variable glsl_type);
  functions : list nir_function
}.
Arguments info_stage {glsl_type} _.
Arguments variables {glsl_type} _.
Arguments functions {glsl_type} _.
Arguments Build_nir_shader {glsl_type} _ _ _.

(** [struct varying_component]; [var] is the variable the record points to,
    [interp_type] and [interp_loc] are [uint8_t]. *)
Record varying_component (glsl_type : Type) : Type := {
  var : nir_variable glsl_type;
  interp_type : Z;
  interp_loc : Z;
  is_32bit : bool;
  is_patch : bool;
  is_intra_stage_only : bool;
  initialised : bool
}.
Arguments var {glsl_type} _.
Arguments interp_type {glsl_type} _.
Arguments interp_loc {glsl_type} _.
Arguments is_32bit {glsl_type} _.
Arguments is_patch {glsl_type} _.
Arguments is_intra_stage_only {glsl_type} _.
Arguments initialised {glsl_type} _.
Arguments Build_varying_component {glsl_type} _ _ _ _ _ _ _.

(** [nir_linked_io_var_info]. *)
Record nir_linked_io_var_info : Type := {
  num_linked_io_vars : Z;
  num_linked_patch_io_vars : Z
}.

(** What the helpers take from outside the sources: the GLSL type queries
    (compiler/glsl_types.h), the slot constants (compiler/shader_enums.h),
    and two functions of nir.c.  [nir_fixup_deref_modes] rewrites the modes
    stored in deref instructions; it leaves the stage and the variables of
    the shader alone. *)
Record nir_externals : Type := {
  glsl_type : Type;
  glsl_count_attribute_slots : glsl_type -> bool -> Z;
  glsl_get_array_element : glsl_type -> glsl_type;
  glsl_without_array : glsl_type -> glsl_type;
  glsl_type_is_struct_or_ifc : glsl_type -> bool;
  glsl_get_vector_elements : glsl_type -> Z;
  glsl_get_length : glsl_type -> Z;
  VARYING_SLOT_VAR0 : Z;
  VARYING_SLOT_PATCH0 : Z;
  VARYING_SLOT_TESS_LEVEL_OUTER : Z;
  VARYING_SLOT_BOUNDING_BOX1 : Z;
  nir_is_per_vertex_io : nir_variable glsl_type -> gl_shader_stage -> bool;
  nir_fixup_deref_modes : nir_shader glsl_type -> nir_shader glsl_type;
  nir_fixup_deref_modes_variables :
    forall s, variables (nir_fixup_deref_modes s) = variables s;
  nir_fixup_deref_modes_stage :
    forall s, info_stage (nir_fixup_deref_modes s) = info_stage s
}.

(** [var->data.location = 0; var->data.mode = nir_var_shader_temp;] *)
Definition demote {glsl_type : Type} (var : nir_variable glsl_type) :
  nir_variable glsl_type :=
  {| type := type var;
     data := {| mode := nir_var_shader_temp;
                location := 0;
                location_frac := location_frac (data var);
                driver_location := driver_location (data var);
                patch := patch (data var);
                always_active_io := always_active_io (data var);
                explicit_xfb_buffer := explicit_xfb_buffer (data var);
                per_view := per_view (data var);
                compact := compact (data var);
                sample := sample (data var);
                centroid := centroid (data var);
                interpolation := interpolation (data var) |} |}.

(** [variable->data.driver_location = d;] *)
Definition set_driver_location {glsl_type : Type} (variable : nir_variable glsl_type)
           (d : Z) : nir_variable glsl_type :=
  {| type := type variable;
     data := {| mode := mode (data variable);
                location := location (data variable);
                location_frac := location_frac (data variable);
                driver_location := d;
                patch := patch (data variable);
                always_active_io := always_active_io (data variable);
                explicit_xfb_buffer := explicit_xfb_buffer (data variable);
                per_view := per_view (data variable);
                compact := compact (data variable);
                sample := sample (data variable);
                centroid := centroid (data variable);
                interpolation := interpolation (data variable) |} |}.

(** *** The comparison function of the varying compactor *)

(** [cmp_varying_component], the [int] it returns.  The [uint8_t] operands
    promote to [int], so their difference is exact; the difference of the
    two locations is an [int] subtraction. *)
Definition cmp_varying_component {glsl_type : Type}
           (comp1 comp2 : varying_component glsl_type) : Z :=
  if negb (Bool.eqb (is_patch comp1) (is_patch comp2)) then
    if is_patch comp1 then 1 else -1
  else if negb (Bool.eqb (is_intra_stage_only comp1) (is_intra_stage_only comp2)) then
    if is_intra_stage_only comp1 then 1 else -1
  else if negb (interp_type comp1 =? interp_type comp2) then
    interp_type comp1 - interp_type comp2
  else if negb (interp_loc comp1 =? interp_loc comp2) then
    interp_loc comp1 - interp_loc comp2
  else Mach.s32 (location (data (var comp1)) - location (data (var comp2))).

(** The five sort keys of a record, most significant first. *)
Definition bool_rank (b : bool) : Z := if b then 1 else 0.

Definition sort_key {glsl_type : Type} (c : varying_component glsl_type) :
  Z * Z * Z * Z * Z :=
  (bool_rank (is_patch c), bool_rank (is_intra_stage_only c),
   interp_type c, interp_loc c, location (data (var c))).

(** Lexicographic order on the keys. *)
Definition key_lt (k1 k2 : Z * Z * Z * Z * Z) : Prop :=
  let '(a1, b1, c1, d1, e1) := k1 in
  let '(a2, b2, c2, d2, e2) := k2 in
  a1 < a2 \/
  (a1 = a2 /\ (b1 < b2 \/
  (b1 = b2 /\ (c1 < c2 \/
  (c1 = c2 /\ (d1 < d2 \/
  (d1 = d2 /\ e1 < e2))))))).

(** A slot is a non-negative [int]: the records the compactor gathers hold
    variables of slot [VARYING_SLOT_VAR0] or above. *)
Definition slot_assigned {glsl_type : Type} (c : varying_component glsl_type) : Prop :=
  0 <= location (data (var c)) < 2 ^ 31.

(** A load of output variable number [v] occurs in the body of [shader]. *)
Definition loads_output {glsl_type : Type} (shader : nir_shader glsl_type) (v : nat) :
  Prop :=
  exists function blocks block,
    In function (functions shader) /\ impl function = Some blocks /\
    In block blocks /\
    In (nir_instr_type_intrinsic nir_intrinsic_load_deref
          {| deref_mode := nir_var_shader_out; deref_var := v |}) block.

(** Modelled from the spec: [util_bitcount64] and [u_bit_consecutive64] are
    helpers of util/bitscan.h and util/u_math.h, which are not among the
    sources.  The first counts the set bits of a 64-bit mask; the second
    yields the mask of [count] consecutive bits from [start] (the set bits
    before a slot are counted through it), and asserts that they fit 64
    bits. *)
Definition util_bitcount64 (n : Z) : Z :=
  fold_left (fun acc i => if Z.testbit n (Z.of_nat i) then acc + 1 else acc) (seq 0 64) 0.

Definition u_bit_consecutive64 (start count : Z) : option Z :=
  if 64 <? start + count then None
  else if count =? 64 then Some (2 ^ 64 - 1)
  else Some (shl64 (Mach.u64 (shl64 1 count - 1)) start).

(** *** The helpers, over the externals [X] *)
Section Nir.

Variable X : nir_externals.

(** [get_variable_io_mask]. *)
Definition get_variable_io_mask (var : nir_variable (glsl_type X))
           (stage : gl_shader_stage) : Z :=
  if location (data var) <? 0 then 0
  else
    let location := Mach.u32 (if patch (data var)
                              then Mach.s32 (location (data var) - VARYING_SLOT_PATCH0 X)
                              else location (data var)) in
    let type := if nir_is_per_vertex_io X var stage || per_view (data var)
                then glsl_get_array_element X (type var) else type var in
    let slots := glsl_count_attribute_slots X type false in
    shl64 (Mach.u64 (shl64 1 slots - 1)) location.

(** [get_num_components], a [uint8_t]. *)
Definition get_num_components (var : nir_variable (glsl_type X)) : Z :=
  if glsl_type_is_struct_or_ifc X (glsl_without_array X (type var)) then 4
  else Mach.u8 (glsl_get_vector_elements X (glsl_without_array X (type var))).

(** The loop
    [for (i = 0; i < get_num_components(var); i++) mask[location_frac + i] |= io_mask;]
    on the array chosen by [var->data.patch]. *)
Definition mark_components (var : nir_variable (glsl_type X)) (stage : gl_shader_stage)
           (masks : list Z * list Z) : list Z * list Z :=
  fold_left
    (fun (m : list Z * list Z) (i : nat) =>
       let idx := Z.to_nat (location_frac (data var) + Z.of_nat i) in
       if patch (data var)
       then (fst m, or_nth (snd m) idx (get_variable_io_mask var stage))
       else (or_nth (fst m) idx (get_variable_io_mask var stage), snd m))
    (seq 0 (Z.to_nat (get_num_components var)))
    masks.

(** The body of the instruction loop of [tcs_add_output_reads]. *)
Definition tcs_add_output_reads_instr (shader : nir_shader (glsl_type X))
           (masks : list Z * list Z) (instr : nir_instr) : list Z * list Z :=
  match instr with
  | nir_instr_type_intrinsic nir_intrinsic_load_deref deref =>
      match deref_mode deref with
      | nir_var_shader_out =>
          match nth_error (variables shader) (deref_var deref) with
          | Some var => mark_components var (info_stage shader) masks
          | None => masks
          end
      | _ => masks
      end
  | _ => masks
  end.

(** [tcs_add_output_reads]: the pair is ([read], [patches_read]). *)
Definition tcs_add_output_reads (shader : nir_shader (glsl_type X)) (masks : list Z * list Z) :
  list Z * list Z :=
  fold_left
    (fun m (function : nir_function) =>
       match impl function with
       | None => m
       | Some blocks =>
           fold_left (fun m block => fold_left (tcs_add_output_reads_instr shader) block m)
                     blocks m
       end)
    (functions shader) masks.

(** The decision [nir_remove_unused_io_vars] takes on one variable of the
    mode it visits: [true] when the variable is demoted. *)
Definition is_unused_io_var (stage : gl_shader_stage) (used used_patches : list Z)
           (var : nir_variable (glsl_type X)) : bool :=
  let used := if patch (data var) then used_patches else used in
  if (location (data var) <? VARYING_SLOT_VAR0 X) && (0 <=? location (data var)) then false
  else if always_active_io (data var) then false
  else if explicit_xfb_buffer (data var) then false
  else
    let other_stage := nth (Z.to_nat (location_frac (data var))) used 0 in
    Z.land other_stage (get_variable_io_mask var stage) =? 0.

(** [nir_remove_unused_io_vars]: the progress flag and the shader after the
    pass. *)
Definition nir_remove_unused_io_vars (shader : nir_shader (glsl_type X))
           (mode_ : nir_variable_mode)
           (used_by_other_stage used_by_other_stage_patches : list Z) :
  bool * nir_shader (glsl_type X) :=
  let visit var :=
    mode_eqb (mode (data var)) mode_
    && is_unused_io_var (info_stage shader) used_by_other_stage
                        used_by_other_stage_patches var in
  let progress := existsb visit (variables shader) in
  let shader' :=
    {| info_stage := info_stage shader;
       variables := map (fun var => if visit var then demote var else var) (variables shader);
       functions := functions shader |} in
  (progress, if progress then nir_fixup_deref_modes X shader' else shader').

(** The first two loops of [nir_remove_unused_varyings]: the masks of the
    variables of one mode, as ([non-patch], [patch]). *)
Definition gather_io_masks (shader : nir_shader (glsl_type X)) (mode_ : nir_variable_mode) :
  list Z * list Z :=
  fold_left
    (fun m var =>
       if mode_eqb (mode (data var)) mode_
       then mark_components var (info_stage shader) m else m)
    (variables shader) ([0; 0; 0; 0], [0; 0; 0; 0]).

(** [nir_remove_unused_varyings]. *)
Definition nir_remove_unused_varyings (producer consumer : nir_shader (glsl_type X)) :
  bool * nir_shader (glsl_type X) * nir_shader (glsl_type X) :=
  let written := gather_io_masks producer nir_var_shader_out in
  let read := gather_io_masks consumer nir_var_shader_in in
  let read :=
    if stage_eqb (info_stage producer) MESA_SHADER_TESS_CTRL
    then tcs_add_output_reads producer read else read in
  let '(progress1, producer') :=
    nir_remove_unused_io_vars producer nir_var_shader_out (fst read) (snd read) in
  let '(progress2, consumer') :=
    nir_remove_unused_io_vars consumer nir_var_shader_in (fst written) (snd written) in
  (progress2 || progress1, producer', consumer').

(** *** Linked driver locations *)

(** [get_linked_variable_location]; [None] is [unreachable()]. *)
Definition get_linked_variable_location (location : Z) (patch : bool) : option Z :=
  if negb patch then Some location
  else if VARYING_SLOT_PATCH0 X <=? location
       then Some (Mach.u32 (location - VARYING_SLOT_PATCH0 X + 4))
  else if (VARYING_SLOT_TESS_LEVEL_OUTER X <=? location)
          && (location <=? VARYING_SLOT_BOUNDING_BOX1 X)
       then Some (Mach.u32 (location - VARYING_SLOT_TESS_LEVEL_OUTER X))
  else None.

(** [get_linked_variable_io_mask]; [None] is the failed assertion of
    [u_bit_consecutive64]. *)
Definition get_linked_variable_io_mask (variable : nir_variable (glsl_type X))
           (stage : gl_shader_stage) : option Z :=
  let type := if nir_is_per_vertex_io X variable stage
              then glsl_get_array_element X (type variable) else type variable in
  let slots := glsl_count_attribute_slots X type false in
  let slots :=
    if compact (data variable) then
      let component_count :=
        Mach.u32 (location_frac (data variable) + glsl_get_length X type) in
      Mach.u32 (component_count + 4 - 1) / 4
    else slots in
  u_bit_consecutive64 0 slots.

(** One of the first two loops of [nir_assign_linked_io_var_locations]:
    ([mask], [patch mask]) of the variables of one mode, ORed into [acc].
    A shift of the mask by 64 or more is undefined. *)
Definition linked_io_masks (shader : nir_shader (glsl_type X)) (mode_ : nir_variable_mode) :
  option (Z * Z) :=
  fold_left
    (fun acc variable =>
       match acc with
       | None => None
       | Some (m, pm) =>
           if mode_eqb (mode (data variable)) mode_ then
             match get_linked_variable_io_mask variable (info_stage shader),
                   get_linked_variable_location (Mach.u32 (location (data variable)))
                                                (patch (data variable)) with
             | Some mask, Some loc =>
                 if 64 <=? loc then None
                 else if patch (data variable)
                      then Some (m, Z.lor pm (shl64 mask loc))
                      else Some (Z.lor m (shl64 mask loc), pm)
             | _, _ => None
             end
           else acc
       end)
    (variables shader) (Some (0, 0)).

(** The driver location the last two loops give a variable:
    [util_bitcount64(mask & u_bit_consecutive64(0, loc)) * 4]. *)
Definition linked_driver_location (io_mask patch_io_mask : Z)
           (variable : nir_variable (glsl_type X)) : option Z :=
  match get_linked_variable_location (Mach.u32 (location (data variable)))
                                     (patch (data variable)) with
  | None => None
  | Some loc =>
      match u_bit_consecutive64 0 (Mach.u32 loc) with
      | None => None
      | Some below =>
          Some (Mach.u32 (util_bitcount64
                            (Z.land (if patch (data variable)
                                     then patch_io_mask else io_mask) below) * 4))
      end
  end.

(** One of the last two loops: the variables of one mode get their driver
    location. *)
Definition assign_linked_locations (shader : nir_shader (glsl_type X))
           (mode_ : nir_variable_mode) (io_mask patch_io_mask : Z) :
  option (nir_shader (glsl_type X)) :=
  match map_option
          (fun variable =>
             if mode_eqb (mode (data variable)) mode_ then
               match linked_driver_location io_mask patch_io_mask variable with
               | Some d => Some (set_driver_location variable d)
               | None => None
               end
             else Some variable)
          (variables shader) with
  | Some vars => Some {| info_stage := info_stage shader; variables := vars;
                         functions := functions shader |}
  | None => None
  end.

(** [nir_assign_linked_io_var_locations]: the counts and the two shaders
    after the call, or [None] on undefined behaviour. *)
Definition nir_assign_linked_io_var_locations (producer consumer : nir_shader (glsl_type X)) :
  option (nir_linked_io_var_info * nir_shader (glsl_type X) * nir_shader (glsl_type X)) :=
  match linked_io_masks producer nir_var_shader_out,
        linked_io_masks consumer nir_var_shader_in with
  | Some (producer_output_mask, producer_patch_output_mask),
    Some (consumer_input_mask, consumer_patch_input_mask) =>
      let io_mask := Z.lor producer_output_mask consumer_input_mask in
      let patch_io_mask := Z.lor producer_patch_output_mask consumer_patch_input_mask in
      match assign_linked_locations producer nir_var_shader_out io_mask patch_io_mask,
            assign_linked_locations consumer nir_var_shader_in io_mask patch_io_mask with
      | Some producer', Some consumer' =>
          Some ({| num_linked_io_vars := util_bitcount64 io_mask;
                   num_linked_patch_io_vars := util_bitcount64 patch_io_mask |},
                producer', consumer')
      | _, _ => None
      end
  | _, _ => None
  end.

(** *** Notions the properties are stated with *)

(** The array [nir_remove_unused_io_vars] consults for [var] holds the mask
    of [var] at the component offset of [var]. *)
Definition covers (var : nir_variable (glsl_type X)) (stage : gl_shader_stage)
           (m : list Z * list Z) : Prop :=
  Z.land (nth (Z.to_nat (location_frac (data var)))
              (if patch (data var) then snd m else fst m) 0)
         (get_variable_io_mask var stage)
  = get_variable_io_mask var stage.

(** A variable whose linked slot and linked mask are defined: its location
    is one [get_linked_variable_location] supports, below bit 64, and its
    slots fit 64 bits. *)
Definition linkable (stage : gl_shader_stage) (variable : nir_variable (glsl_type X)) : Prop :=
  exists mask loc,
    get_linked_variable_io_mask variable stage = Some mask /\
    get_linked_variable_location (Mach.u32 (location (data variable)))
                                 (patch (data variable)) = Some loc /\
    0 <= loc < 64.

(** The local [slots] of [get_linked_variable_io_mask]: the number of
    linked slots a variable takes from its linked location on. *)
Definition linked_slot_count (variable : nir_variable (glsl_type X))
           (stage : gl_shader_stage) : Z :=
  let type := if nir_is_per_vertex_io X variable stage
              then glsl_get_array_element X (type variable) else type variable in
  if compact (data variable) then
    Mach.u32 (Mach.u32 (location_frac (data variable) + glsl_get_length X type) + 4 - 1) / 4
  else glsl_count_attribute_slots X type false.

(** [variable] occupies the linked slot [b]: [b] is one of the
    [linked_slot_count] slots that start at its linked location, among the
    64 slots a mask holds. *)
Definition occupies_linked_slot (variable : nir_variable (glsl_type X))
           (stage : gl_shader_stage) (b : Z) : Prop :=
  exists loc,
    get_linked_variable_location (Mach.u32 (location (data variable)))
                                 (patch (data variable)) = Some loc /\
    loc <= b < loc + linked_slot_count variable stage /\
    0 <= b < 64.

(** Some variable of [shader] with mode [mode_] and patch-ness [p] occupies
    the linked slot [b]. *)
Definition linked_slot_used (shader : nir_shader (glsl_type X)) (mode_ : nir_variable_mode)
           (p : bool) (b : Z) : Prop :=
  exists v, In v (variables shader) /\ mode (data v) = mode_ /\ patch (data v) = p /\
            occupies_linked_slot v (info_stage shader) b.

End Nir.

(** *** Example shaders

    In the examples a GLSL type is a vector given by its number of
    components; it takes one slot, no variable is per-vertex, and the slot
    constants are those of compiler/shader_enums.h. *)
Definition ex : nir_externals :=
  {| glsl_type := Z;
     glsl_count_attribute_slots := fun _ _ => 1;
     glsl_get_array_element := fun t => t;
     glsl_without_array := fun t => t;
     glsl_type_is_struct_or_ifc := fun _ => false;
     glsl_get_vector_elements := fun t => t;
     glsl_get_length := fun _ => 0;
     VARYING_SLOT_VAR0 := 32;
     VARYING_SLOT_PATCH0 := 64;
     VARYING_SLOT_TESS_LEVEL_OUTER := 26;
     VARYING_SLOT_BOUNDING_BOX1 := 29;
     nir_is_per_vertex_io := fun _ _ => false;
     nir_fixup_deref_modes := fun shader => shader;
     nir_fixup_deref_modes_variables := fun _ => eq_refl;
     nir_fixup_deref_modes_stage := fun _ => eq_refl |}.

(** A scalar float variable. *)
Definition ex_var (m : nir_variable_mode) (loc frac : Z) (xfb : bool) :
  nir_variable (glsl_type ex) :=
  {| type := 1;
     data := {| mode := m; location := loc; location_frac := frac; driver_location := 0;
                patch := false; always_active_io := false; explicit_xfb_buffer := xfb;
                per_view := false; compact := false; sample := false; centroid := false;
                interpolation := 0 |} |}.

Definition ex_load (v : nat) : nir_instr :=
  nir_instr_type_intrinsic nir_intrinsic_load_deref
                           {| deref_mode := nir_var_shader_out; deref_var := v |}.

(** A shader with the given stage and variables whose only function loads
    the outputs numbered [loads]. *)
Definition ex_shader (stage : gl_shader_stage) (vars : list (nir_variable (glsl_type ex)))
           (loads : list nat) : nir_shader (glsl_type ex) :=
  {| info_stage := stage; variables := vars;
     functions := [ {| impl := Some [map ex_load loads] |} ] |}.

(** A record of the compactor for the scalar held at ([loc], [frac]). *)
Definition ex_component (loc frac : Z) (is_patch_ : bool) :
  varying_component (glsl_type ex) :=
  {| var := ex_var nir_var_shader_in loc frac false;
     interp_type := 1; interp_loc := 2; is_32bit := true;
     is_patch := is_patch_; is_intra_stage_only := false; initialised := true |}.


(** *** Sorting the variables of a mode by location *)

(** [insert_sorted]: [new_var] goes before the first variable of the list
    with a greater location, and at the tail when there is none. *)
Fixpoint insert_sorted {glsl_type : Type} (var_list : list (nir_variable glsl_type))
         (new_var : nir_variable glsl_type) : list (nir_variable glsl_type) :=
  match var_list with
  | [] => [new_var]
  | var :: rest =>
      if location (data new_var) <? location (data var) then new_var :: var :: rest
      else var :: insert_sorted rest new_var
  end.

(** [sort_varyings]: the sorted list, and the shader with the variables of
    the mode taken out of its list. *)
Definition sort_varyings {glsl_type : Type} (shader : nir_shader glsl_type)
           (mode_ : nir_variable_mode) :
  list (nir_variable glsl_type) * nir_shader glsl_type :=
  (fold_left
     (fun sorted_list var =>
        if mode_eqb (mode (data var)) mode_ then insert_sorted sorted_list var
        else sorted_list)
     (variables shader) [],
   {| info_stage := info_stage shader;
      variables := filter (fun var => negb (mode_eqb (mode (data var)) mode_))
                          (variables shader);
      functions := functions shader |}).

(** The variables of a list that have a given mode, and those at a given
    location. *)
Definition with_mode {glsl_type : Type} (mode_ : nir_variable_mode)
           (l : list (nir_variable glsl_type)) : list (nir_variable glsl_type) :=
  filter (fun var => mode_eqb (mode (data var)) mode_) l.

Definition at_location {glsl_type : Type} (loc : Z)
           (l : list (nir_variable glsl_type)) : list (nir_variable glsl_type) :=
  filter (fun var => location (data var) =? loc) l.

(** Ascending locations. *)
Definition location_le {glsl_type : Type} (a b : nir_variable glsl_type) : Prop :=
  location (data a) <= location (data b).

(** *** Marking transform-feedback varyings *)

(** [f] applied to element [i] of a list; an index past the end leaves the
    list as it is (the source only uses indices it has recorded). *)
Fixpoint update_nth {A : Type} (l : list A) (i : nat) (f : A -> A) : list A :=
  match l, i with
  | [], _ => []
  | x :: t, O => f x :: t
  | x :: t, S i' => x :: update_nth t i' f
  end.

(** [var->data.always_active_io = true;] *)
Definition set_always_active_io {glsl_type : Type} (var : nir_variable glsl_type) :
  nir_variable glsl_type :=
  {| type := type var;
     data := {| mode := mode (data var);
                location := location (data var);
                location_frac := location_frac (data var);
                driver_location := driver_location (data var);
                patch := patch (data var);
                always_active_io := true;
                explicit_xfb_buffer := explicit_xfb_buffer (data var);
                per_view := per_view (data var);
                compact := compact (data var);
                sample := sample (data var);
                centroid := centroid (data var);
                interpolation := interpolation (data var) |} |}.

Section Xfb.

Variable X : nir_externals.
(** [MAX_VARYING] of main/config.h, which is not among the sources: an
    [int] constant, the length of the array [input_vars]. *)
Variable MAX_VARYING : Z.

(** The test
    [var->data.location >= VARYING_SLOT_VAR0 &&
     var->data.location - VARYING_SLOT_VAR0 < MAX_VARYING].
    The difference is one of [int]s and is only taken of a location that is
    at least the slot constant, so it does not overflow. *)
Definition in_generic_slots (var : nir_variable (glsl_type X)) : bool :=
  (VARYING_SLOT_VAR0 X <=? location (data var))
  && (location (data var) - VARYING_SLOT_VAR0 X <? MAX_VARYING).

(** [unsigned location = var->data.location - VARYING_SLOT_VAR0;] *)
Definition generic_slot (var : nir_variable (glsl_type X)) : Z :=
  Mach.u32 (location (data var) - VARYING_SLOT_VAR0 X).

(** The first loop of [nir_link_xfb_varyings], from the variable at
    position [i] of the consumer's list on: [input_vars] maps a generic
    slot to the position of the input recorded for it ([None] is the null
    pointer). *)
Fixpoint xfb_input_vars_from (i : nat) (vars : list (nir_variable (glsl_type X)))
         (input_vars : Z -> option nat) : Z -> option nat :=
  match vars with
  | [] => input_vars
  | var :: rest =>
      xfb_input_vars_from (S i) rest
        (if mode_eqb (mode (data var)) nir_var_shader_in && in_generic_slots var
         then fun l => if l =? generic_slot var then Some i else input_vars l
         else input_vars)
  end.

Definition xfb_input_vars (consumer : nir_shader (glsl_type X)) : Z -> option nat :=
  xfb_input_vars_from 0 (variables consumer) (fun _ => None).

(** The body of the second loop, on the consumer's variable list. *)
Definition xfb_mark_input (input_vars : Z -> option nat)
           (vars : list (nir_variable (glsl_type X))) (var : nir_variable (glsl_type X)) :
  list (nir_variable (glsl_type X)) :=
  if mode_eqb (mode (data var)) nir_var_shader_out && in_generic_slots var then
    if negb (always_active_io (data var)) then vars
    else
      match input_vars (generic_slot var) with
      | Some i => update_nth vars i set_always_active_io
      | None => vars
      end
  else vars.

(** Whether the second loop's body, run on the producer's variable [var],
    marks the consumer's variable at position [idx]. *)
Definition xfb_hits (input_vars : Z -> option nat) (idx : nat)
           (var : nir_variable (glsl_type X)) : bool :=
  mode_eqb (mode (data var)) nir_var_shader_out
  && in_generic_slots var
  && always_active_io (data var)
  && match input_vars (generic_slot var) with
     | Some i => Nat.eqb idx i
     | None => false
     end.

(** [nir_link_xfb_varyings]: the consumer after the call (the producer is
    only read). *)
Definition nir_link_xfb_varyings (producer consumer : nir_shader (glsl_type X)) :
  nir_shader (glsl_type X) :=
  {| info_stage := info_stage consumer;
     variables := fold_left (xfb_mark_input (xfb_input_vars consumer))
                            (variables producer) (variables consumer);
     functions := functions consumer |}.

End Xfb.

(** *** Notions for the linked driver locations *)

(** [v] is an output of the producer or an input of the consumer, [stage]
    the stage of its shader and [v'] the variable at its position after the
    call. *)
Definition interface_variable {glsl_type : Type}
           (producer consumer producer' consumer' : nir_shader glsl_type)
           (stage : gl_shader_stage) (v v' : nir_variable glsl_type) : Prop :=
  (stage = info_stage producer /\
   exists i, nth_error (variables producer) i = Some v /\
             mode (data v) = nir_var_shader_out /\
             nth_error (variables producer') i = Some v') \/
  (stage = info_stage consumer /\
   exists j, nth_error (variables consumer) j = Some v /\
             mode (data v) = nir_var_shader_in /\
             nth_error (variables consumer') j = Some v').

(** *** Assigning remap locations in the varying compactor *)

(** [struct assigned_comps]: the components of one slot that are taken
    ([comps], a [uint8_t] bit mask), and the interpolation and width of
    what took them (the fields [interp_type], [interp_loc] and [is_32bit]
    of the source). *)
Record assigned_comps : Type := {
  comps : Z;
  comps_interp_type : Z;
  comps_interp_loc : Z;
  comps_is_32bit : bool
}.

(** [struct varying_loc]: [component] (a [uint8_t]) and the field
    [location] of the source (a [uint32_t]), 0 while nothing is assigned. *)
Record varying_loc : Type := {
  component : Z;
  remap_location : Z
}.

(** [a[i] = x] and [a[i][j] = x] on arrays addressed by index. *)
Definition store {A : Type} (a : Z -> A) (i : Z) (x : A) : Z -> A :=
  fun k => if k =? i then x else a k.

Definition store2 {A : Type} (a : Z -> Z -> A) (i j : Z) (x : A) : Z -> Z -> A :=
  fun k l => if (k =? i) && (l =? j) then x else a k l.

(** What the compactor threads through [assign_remap_locations]: the arrays
    [remap] and [assigned_comps], [*cursor] and [*comp]. *)
Record remap_state : Type := {
  st_remap : Z -> Z -> varying_loc;
  st_assigned : Z -> assigned_comps;
  st_cursor : Z;
  st_comp : Z
}.

(** [while (tmp_comp < 4 && (comps & (1 << tmp_comp))) tmp_comp++;]
    it runs at most 4 times. *)
Fixpoint skip_assigned (fuel : nat) (slot_comps tmp_comp : Z) : Z :=
  match fuel with
  | O => tmp_comp
  | S fuel' =>
      if (tmp_comp <? 4) && negb (Z.land slot_comps (Z.shiftl 1 tmp_comp) =? 0)
      then skip_assigned fuel' slot_comps (tmp_comp + 1)
      else tmp_comp
  end.

Section Compact.

Variable X : nir_externals.
(** [MAX_VARYING] and [MAX_VARYINGS_INCL_PATCH] of main/config.h and
    compiler/shader_enums.h, which are not among the sources; the second is
    the length of the arrays [remap] and [assigned_comps]. *)
Variable MAX_VARYING : Z.
Variable MAX_VARYINGS_INCL_PATCH : Z.

(** The [for] loop of [assign_remap_locations], at most [fuel] slots from
    [tmp_cursor] on.  [None] is an access outside [assigned_comps] or
    [remap]. *)
Fixpoint assign_remap_loop (fuel : nat) (remap : Z -> Z -> varying_loc)
         (assigned : Z -> assigned_comps) (info : varying_component (glsl_type X))
         (tmp_cursor tmp_comp max_location : Z) : option remap_state :=
  match fuel with
  | O => Some {| st_remap := remap; st_assigned := assigned;
                 st_cursor := tmp_cursor; st_comp := tmp_comp |}
  | S fuel' =>
      if negb (tmp_cursor <? max_location) then
        Some {| st_remap := remap; st_assigned := assigned;
                st_cursor := tmp_cursor; st_comp := tmp_comp |}
      else if negb ((0 <=? tmp_cursor) && (tmp_cursor <? MAX_VARYINGS_INCL_PATCH)) then None
      else
        let slot := assigned tmp_cursor in
        if negb (comps slot =? 0)
           && (negb (comps_interp_type slot =? interp_type info)
               || negb (comps_interp_loc slot =? interp_loc info))
        then assign_remap_loop fuel' remap assigned info (tmp_cursor + 1) 0 max_location
        else if negb (comps slot =? 0) && negb (comps_is_32bit slot)
        then assign_remap_loop fuel' remap assigned info (tmp_cursor + 1) 0 max_location
        else
          let tmp_comp := if comps slot =? 0 then tmp_comp
                          else skip_assigned 4 (comps slot) tmp_comp in
          if tmp_comp =? 4
          then assign_remap_loop fuel' remap assigned info (tmp_cursor + 1) 0 max_location
          else
            let location := Mach.u32 (location (data (var info)) - VARYING_SLOT_VAR0 X) in
            let frac := location_frac (data (var info)) in
            if negb ((location <? MAX_VARYINGS_INCL_PATCH) && (0 <=? frac) && (frac <? 4))
            then None
            else
              Some {| st_remap :=
                        store2 remap location frac
                               {| component := Mach.u8 tmp_comp;
                                  remap_location :=
                                    Mach.u32 (tmp_cursor + VARYING_SLOT_VAR0 X) |};
                      st_assigned :=
                        store assigned tmp_cursor
                              {| comps := Mach.u8 (Z.lor (comps slot) (Z.shiftl 1 tmp_comp));
                                 comps_interp_type := interp_type info;
                                 comps_interp_loc := interp_loc info;
                                 comps_is_32bit := is_32bit info |};
                      st_cursor := tmp_cursor;
                      st_comp := Mach.u32 (tmp_comp + 1) |}
  end.

(** [assign_remap_locations]: the loop visits the slots from [*cursor] up
    to [max_location]. *)
Definition assign_remap_locations (remap : Z -> Z -> varying_loc)
           (assigned : Z -> assigned_comps) (info : varying_component (glsl_type X))
           (cursor comp max_location : Z) : option remap_state :=
  assign_remap_loop (Z.to_nat (max_location - cursor)) remap assigned info
                    cursor comp max_location.

(** The body of the loop of [compact_components] that sets the remap array
    from the sorted records. *)
Definition compact_components_step (st : remap_state)
           (info : varying_component (glsl_type X)) : option remap_state :=
  if is_patch info then
    let reset := st_cursor st <? MAX_VARYING in
    assign_remap_locations (st_remap st) (st_assigned st) info
                           (if reset then MAX_VARYING else st_cursor st)
                           (if reset then 0 else st_comp st)
                           MAX_VARYINGS_INCL_PATCH
  else
    match assign_remap_locations (st_remap st) (st_assigned st) info
                                 (st_cursor st) (st_comp st) MAX_VARYING with
    | None => None
    | Some st1 =>
        if st_cursor st1 =? MAX_VARYING
        then assign_remap_locations (st_remap st1) (st_assigned st1) info 0 0 MAX_VARYING
        else Some st1
    end.

(** That loop, over the records in the order [qsort] left them, from
    [cursor = 0] and [comp = 0]. *)
Definition compact_components_remap (remap : Z -> Z -> varying_loc)
           (assigned : Z -> assigned_comps)
           (varying_comp_info : list (varying_component (glsl_type X))) :
  option remap_state :=
  fold_left
    (fun st info =>
       match st with
       | Some st => compact_components_step st info
       | None => None
       end)
    varying_comp_info
    (Some {| st_remap := remap; st_assigned := assigned; st_cursor := 0; st_comp := 0 |}).

(** The entry of [remap] a record is keyed by. *)
Definition remap_key (info : varying_component (glsl_type X)) : Z * Z :=
  (Mach.u32 (location (data (var info)) - VARYING_SLOT_VAR0 X),
   location_frac (data (var info))).

(** What one call of [assign_remap_locations] comes to: it found no slot
    and changed neither array, or it took the component [c] of the slot
    [s]. *)
Definition no_slot_found (remap : Z -> Z -> varying_loc) (assigned : Z -> assigned_comps)
           (cursor max_location : Z) (st : remap_state) : Prop :=
  max_location <= st_cursor st /\ cursor <= st_cursor st /\ 0 <= st_comp st <= 4 /\
  st_remap st = remap /\ st_assigned st = assigned.

Definition slot_taken (remap : Z -> Z -> varying_loc) (assigned : Z -> assigned_comps)
           (info : varying_component (glsl_type X)) (cursor max_location : Z)
           (st : remap_state) : Prop :=
  let s := st_cursor st in
  let c := st_comp st - 1 in
  cursor <= s < max_location /\ 0 <= s < MAX_VARYINGS_INCL_PATCH /\ 0 <= c < 4 /\
  Z.testbit (comps (assigned s)) c = false /\
  (comps (assigned s) <> 0 ->
   comps_interp_type (assigned s) = interp_type info /\
   comps_interp_loc (assigned s) = interp_loc info /\
   comps_is_32bit (assigned s) = true) /\
  st_assigned st
  = store assigned s
          {| comps := Mach.u8 (Z.lor (comps (assigned s)) (Z.shiftl 1 c));
             comps_interp_type := interp_type info;
             comps_interp_loc := interp_loc info;
             comps_is_32bit := is_32bit info |} /\
  0 <= fst (remap_key info) < MAX_VARYINGS_INCL_PATCH /\
  0 <= snd (remap_key info) < 4 /\
  st_remap st
  = store2 remap (fst (remap_key info)) (snd (remap_key info))
           {| component := c; remap_location := Mach.u32 (s + VARYING_SLOT_VAR0 X) |}.

(** What the loop of [compact_components] keeps true of its state, given
    the slots [assigned0] it started from: components are only ever added
    to a slot; an entry of [remap] that has been set names a component of a
    generic slot that is now taken and was free at the start; two entries
    that have been set name different components. *)
Definition remap_invariant (assigned0 : Z -> assigned_comps) (st : remap_state) : Prop :=
  0 <= st_cursor st /\ 0 <= st_comp st <= 4 /\
  (forall s c, 0 <= c < 4 ->
               Z.testbit (comps (assigned0 s)) c = true ->
               Z.testbit (comps (st_assigned st s)) c = true) /\
  (forall l f,
      remap_location (st_remap st l f) <> 0 ->
      VARYING_SLOT_VAR0 X <= remap_location (st_remap st l f)
      < VARYING_SLOT_VAR0 X + MAX_VARYINGS_INCL_PATCH /\
      0 <= component (st_remap st l f) < 4 /\
      Z.testbit (comps (st_assigned st (remap_location (st_remap st l f)
                                        - VARYING_SLOT_VAR0 X)))
                (component (st_remap st l f)) = true /\
      Z.testbit (comps (assigned0 (remap_location (st_remap st l f)
                                   - VARYING_SLOT_VAR0 X)))
                (component (st_remap st l f)) = false) /\
  (forall l1 f1 l2 f2,
      (l1, f1) <> (l2, f2) ->
      remap_location (st_remap st l1 f1) <> 0 ->
      remap_location (st_remap st l2 f2) <> 0 ->
      st_remap st l1 f1 <> st_remap st l2 f2).

End Compact.

(** Empty arrays [remap] and [assigned_comps], as [nir_compact_varyings]
    and [compact_components] initialise them. *)
Definition remap_zero : Z -> Z -> varying_loc :=
  fun _ _ => {| component := 0; remap_location := 0 |}.

Definition assigned_zero : Z -> assigned_comps :=
  fun _ => {| comps := 0; comps_interp_type := 0; comps_interp_loc := 0;
              comps_is_32bit := false |}.

End Linking.

(** * Properties *)

(** ** Machine integers *)
Module MachFacts.
Import Mach.

Lemma u32_range x : 0 <= u32 x < 2 ^ 32.
Proof. unfold u32, wrap. apply Z.mod_pos_bound. lia. Qed.

Lemma u64_range x : 0 <= u64 x < 2 ^ 64.
Proof. unfold u64, wrap. apply Z.mod_pos_bound. lia. Qed.

Lemma u32_small x : 0 <= x < 2 ^ 32 -> u32 x = x.
Proof. intros H. unfold u32, wrap. apply Z.mod_small. exact H. Qed.

Lemma u64_small x : 0 <= x < 2 ^ 64 -> u64 x = x.
Proof. intros H. unfold u64, wrap. apply Z.mod_small. exact H. Qed.

Lemma s32_small x : - 2 ^ 31 <= x < 2 ^ 31 -> s32 x = x.
Proof. intros H. unfold s32. rewrite Z.mod_small; lia. Qed.

End MachFacts.

(** ** Arrays of four elements *)
Lemma N_lt_4_cases (i : N) : (i < 4)%N -> i = 0%N \/ i = 1%N \/ i = 2%N \/ i = 3%N.
Proof. lia. Qed.

Lemma at4_set4_same {A} (v : vec4 A) i a : (i < 4)%N -> at4 (set4 v i a) i = a.
Proof.
  intros H. destruct (N_lt_4_cases i H) as [->|[->|[->| ->]]]; reflexivity.
Qed.

Lemma at4_set4_other {A} (v : vec4 A) i j a :
  (i < 4)%N -> (j < 4)%N -> i <> j -> at4 (set4 v i a) j = at4 v j.
Proof.
  intros Hi Hj Hne.
  destruct (N_lt_4_cases i Hi) as [->|[->|[->| ->]]];
    destruct (N_lt_4_cases j Hj) as [->|[->|[->| ->]]];
    try reflexivity; contradiction.
Qed.

Lemma in_range4 i : In i range4 <-> (i < 4)%N.
Proof. unfold range4. simpl. lia. Qed.

(** ** util/format/u_format.c *)
Module FormatFacts.
Import Format.

Lemma layout_eqb_eq a b : layout_eqb a b = true <-> a = b.
Proof. destruct a, b; simpl; split; intros H; try reflexivity; discriminate. Qed.

Lemma type_eqb_eq a b : type_eqb a b = true <-> a = b.
Proof. destruct a, b; simpl; split; intros H; try reflexivity; discriminate. Qed.

Lemma colorspace_eqb_eq a b : colorspace_eqb a b = true <-> a = b.
Proof. destruct a, b; simpl; split; intros H; try reflexivity; discriminate. Qed.

Lemma format_eqb_eq a b : format_eqb a b = true <-> a = b.
Proof.
  destruct a, b; simpl; split; intros H; try reflexivity; try discriminate.
  - apply Z.eqb_eq in H. now subst.
  - injection H as ->. apply Z.eqb_refl.
Qed.

Lemma format_eqb_refl a : format_eqb a a = true.
Proof. now apply format_eqb_eq. Qed.

(** Boolean tests of the loops, read as propositions. *)
Lemma forallb_range4 (p : N -> bool) :
  forallb p range4 = true <-> (forall i, (i < 4)%N -> p i = true).
Proof.
  rewrite forallb_forall. split; intros H i Hi; apply H; now apply in_range4.
Qed.

Lemma bool_eqb_eq (a b : bool) : Bool.eqb a b = true <-> a = b.
Proof. split; [apply Bool.eqb_prop | intros ->; apply Bool.eqb_reflx]. Qed.

(** C1. [util_is_format_compatible] returns true exactly when the two format
    identifiers are equal, or both layouts are plain, the block bit counts,
    channel counts and colorspaces agree, the four channel sizes agree
    pairwise, and every destination swizzle entry naming a real channel (0-3)
    is matched by the source swizzle and by the numeric type and normalized
    flag of the source channel it names. *)
Theorem util_is_format_compatible_iff (src dst : util_format_description) :
  util_is_format_compatible src dst = true <-> compatible_spec src dst.
Proof.
  unfold util_is_format_compatible, compatible_spec.
  destruct (format_eqb (format src) (format dst)) eqn:Hfmt.
  { split; [intros _; left; now apply format_eqb_eq | reflexivity]. }
  assert (Hne : format src <> format dst).
  { intros E. apply format_eqb_eq in E. congruence. }
  destruct (layout_eqb (layout src) UTIL_FORMAT_LAYOUT_PLAIN) eqn:Hls; cbn [negb orb];
    [apply layout_eqb_eq in Hls
    | split; [discriminate | intros [E | (E & _)]; [contradiction |];
              apply layout_eqb_eq in E; congruence]].
  destruct (layout_eqb (layout dst) UTIL_FORMAT_LAYOUT_PLAIN) eqn:Hld; cbn [negb orb];
    [apply layout_eqb_eq in Hld
    | split; [discriminate | intros [E | (_ & E & _)]; [contradiction |];
              apply layout_eqb_eq in E; congruence]].
  destruct (bits (block src) =? bits (block dst)) eqn:Hbits; cbn [negb orb];
    [apply Z.eqb_eq in Hbits
    | split; [discriminate | intros [E | (_ & _ & E & _)]; [contradiction |];
              apply Z.eqb_eq in E; congruence]].
  destruct (nr_channels src =? nr_channels dst) eqn:Hnr; cbn [negb orb];
    [apply Z.eqb_eq in Hnr
    | split; [discriminate | intros [E | (_ & _ & _ & E & _)]; [contradiction |];
              apply Z.eqb_eq in E; congruence]].
  destruct (colorspace_eqb (colorspace src) (colorspace dst)) eqn:Hcs; cbn [negb orb];
    [apply colorspace_eqb_eq in Hcs
    | split; [discriminate | intros [E | (_ & _ & _ & _ & E & _)]; [contradiction |];
              apply colorspace_eqb_eq in E; congruence]].
  match goal with |- context [forallb ?p range4] =>
    destruct (forallb p range4) eqn:Hsz end; cbv beta zeta.
  2:{ split; [discriminate |].
      intros [E | (_ & _ & _ & _ & _ & E & _)]; [contradiction |].
      assert (Hall : forallb (fun chan =>
                size (at4 (channel src) chan) =? size (at4 (channel dst) chan)) range4 = true).
      { apply forallb_range4. intros i Hi. apply Z.eqb_eq. now apply E. }
      congruence. }
  cbn [negb].
  rewrite forallb_range4 in Hsz.
  rewrite forallb_range4. split.
  - intros H. right. repeat split; try assumption.
    + intros chan Hc. apply Z.eqb_eq. now apply Hsz.
    + specialize (H i H0). cbv beta zeta in H. rewrite (proj2 (N.ltb_lt _ _) H1) in H.
      destruct (at4 (swizzle src) i =? at4 (swizzle dst) i)%N eqn:E; [| discriminate].
      now apply N.eqb_eq.
    + specialize (H i H0). cbv beta zeta in H. rewrite (proj2 (N.ltb_lt _ _) H1) in H.
      destruct (at4 (swizzle src) i =? at4 (swizzle dst) i)%N eqn:E; [| discriminate].
      cbn [negb orb] in H.
      destruct (type_eqb _ _) eqn:Ht in H; [| discriminate].
      now apply type_eqb_eq.
    + specialize (H i H0). cbv beta zeta in H. rewrite (proj2 (N.ltb_lt _ _) H1) in H.
      destruct (at4 (swizzle src) i =? at4 (swizzle dst) i)%N eqn:E; [| discriminate].
      cbn [negb orb] in H.
      destruct (type_eqb _ _) eqn:Ht in H; [| discriminate].
      destruct (Bool.eqb _ _) eqn:Hn in H; [| discriminate].
      now apply bool_eqb_eq.
  - intros [E | (_ & _ & _ & _ & _ & _ & H)]; [contradiction |].
    intros i Hi. cbv beta zeta.
    destruct (at4 (swizzle dst) i <? 4)%N eqn:Hlt; [| reflexivity].
    apply N.ltb_lt in Hlt.
    destruct (H i Hi Hlt) as (E1 & E2 & E3).
    rewrite (proj2 (N.eqb_eq _ _) E1). cbn [negb].
    rewrite (proj2 (type_eqb_eq _ _) E2), (proj2 (bool_eqb_eq _ _) E3).
    reflexivity.
Qed.

(** *** The rectangle copy *)

(** Bytes outside the copied range keep their value; bytes inside come from
    the source. *)
Lemma memcpy_inside dst d src s n k :
  0 <= k < n -> memcpy dst d src s n (d + k) = src (s + k).
Proof.
  intros H. unfold memcpy.
  replace ((d <=? d + k) && (d + k <? d + n)) with true.
  - f_equal. lia.
  - symmetry. apply andb_true_iff. split; [apply Z.leb_le | apply Z.ltb_lt]; lia.
Qed.

(** After the row loop, every byte that some row covers holds the value [f]
    gives for its address, as soon as the source rows hold the values [f]
    gives for the addresses they are copied to (so that rows written over
    one another agree). *)
Lemma copy_rows_covered (f : Z -> byte) src ds ss W n :
  forall dst d s a,
    (forall i j, 0 <= i < Z.of_nat n -> 0 <= j < W ->
                 src (s + i * ss + j) = f (d + i * ds + j)) ->
    (exists i j, 0 <= i < Z.of_nat n /\ 0 <= j < W /\ a = d + i * ds + j) \/ dst a = f a ->
    copy_rows n dst d ds src s ss W a = f a.
Proof.
  induction n as [| n IH]; intros dst d s a Hsrc Hcov; simpl.
  - destruct Hcov as [(i & j & Hi & _) | H]; [lia | exact H].
  - apply IH.
    + intros i j Hi Hj.
      replace (s + ss + i * ss + j) with (s + (i + 1) * ss + j) by lia.
      replace (d + ds + i * ds + j) with (d + (i + 1) * ds + j) by lia.
      apply Hsrc; lia.
    + assert (Hrow0 : forall j, 0 <= j < W -> memcpy dst d src s W (d + j) = f (d + j)).
      { intros j Hj. rewrite memcpy_inside by exact Hj.
        specialize (Hsrc 0 j). rewrite !Z.mul_0_l, !Z.add_0_r in Hsrc. apply Hsrc; lia. }
      destruct Hcov as [(i & j & Hi & Hj & ->) | H].
      * destruct (Z.eq_dec i 0) as [-> | Hne].
        -- right. rewrite Z.mul_0_l, Z.add_0_r. now apply Hrow0.
        -- left. exists (i - 1), j. repeat split; lia.
      * right. unfold memcpy.
        destruct ((d <=? a) && (a <? d + W)) eqn:E; [| exact H].
        apply andb_true_iff in E. destruct E as [E1 E2].
        apply Z.leb_le in E1. apply Z.ltb_lt in E2.
        replace a with (d + (a - d)) at 2 by lia.
        specialize (Hrow0 (a - d)). rewrite memcpy_inside in Hrow0 by lia.
        replace (s + (a - d)) with (s + (a - d)) by lia. apply Hrow0. lia.
Qed.

Section RectCopy.

Variable describe : pipe_format -> util_format_description.

Lemma blocksize_range format :
  0 <= bits (block (describe format)) < 2 ^ 32 ->
  0 < util_format_get_blocksize describe format < 2 ^ 31.
Proof.
  intros H. unfold util_format_get_blocksize.
  assert (0 <= bits (block (describe format)) / 8 < 2 ^ 29).
  { split; [apply Z.div_pos; lia |]. apply Z.div_lt_upper_bound; lia. }
  destruct (_ =? 0) eqn:E; [lia |]. apply Z.eqb_neq in E. lia.
Qed.

Lemma rect_rows_nonneg format h : block_ok describe format -> 0 <= rect_rows describe format h.
Proof.
  intros (_ & Hh & _). unfold rect_rows, util_format_get_blockheight.
  fold (block_height (describe format)).
  apply Z.div_pos; [apply MachFacts.u32_range | lia].
Qed.

(** [util_copy_rect] on a view with a non-negative source stride. *)
Lemma util_copy_rect_eq dst format ds dx dy w h src ss sx sy :
  block_ok describe format -> 0 <= ss < 2 ^ 31 ->
  util_copy_rect describe dst format ds dx dy w h src ss sx sy =
  Some (if (rect_row_bytes describe format w =? ds) && (rect_row_bytes describe format w =? ss)
        then memcpy dst (rect_origin describe format ds dx dy) src (rect_origin describe format ss sx sy)
                    (Mach.u32 (rect_rows describe format h * rect_row_bytes describe format w))
        else copy_rows (Z.to_nat (rect_rows describe format h)) dst (rect_origin describe format ds dx dy) ds
                       src (rect_origin describe format ss sx sy) ss (rect_row_bytes describe format w)).
Proof.
  intros (Hw & Hh & Hb) Hss.
  pose proof (blocksize_range format Hb) as Hbs.
  unfold util_copy_rect, rect_row_bytes, rect_rows, rect_origin.
  unfold util_format_get_blockwidth, util_format_get_blockheight in *.
  fold (block_width (describe format)). fold (block_height (describe format)).
  rewrite !MachFacts.s32_small by lia.
  replace (ss <? 0) with false by (symmetry; apply Z.ltb_ge; lia).
  replace (0 <? util_format_get_blocksize describe format) with true
    by (symmetry; apply Z.ltb_lt; lia).
  replace (0 <? block_width (describe format)) with true
    by (symmetry; apply Z.ltb_lt; lia).
  replace (0 <? block_height (describe format)) with true
    by (symmetry; apply Z.ltb_lt; lia).
  cbn [andb negb]. rewrite (MachFacts.u32_small ss) by lia.
  destruct (_ && _); reflexivity.
Qed.

(** The bytes of the destination rectangle after [util_copy_rect]: they hold
    what [f] gives for their address when the source rectangle does. *)
Lemma util_copy_rect_covered (f : Z -> byte) dst format ds dx dy w h src ss sx sy r :
  block_ok describe format -> 0 <= ss < 2 ^ 31 ->
  rect_rows describe format h * rect_row_bytes describe format w < 2 ^ 32 ->
  util_copy_rect describe dst format ds dx dy w h src ss sx sy = Some r ->
  (forall i j, 0 <= i < rect_rows describe format h -> 0 <= j < rect_row_bytes describe format w ->
               src (rect_origin describe format ss sx sy + i * ss + j)
               = f (rect_origin describe format ds dx dy + i * ds + j)) ->
  forall i j, 0 <= i < rect_rows describe format h -> 0 <= j < rect_row_bytes describe format w ->
              r (rect_origin describe format ds dx dy + i * ds + j)
              = f (rect_origin describe format ds dx dy + i * ds + j).
Proof.
  intros Hok Hss Hsize Hr Hsrc i j Hi Hj.
  rewrite util_copy_rect_eq in Hr by assumption. injection Hr as <-.
  destruct ((rect_row_bytes describe format w =? ds) && (rect_row_bytes describe format w =? ss)) eqn:Hfast.
  - apply andb_true_iff in Hfast. destruct Hfast as [E1 E2].
    apply Z.eqb_eq in E1, E2.
    rewrite <- (Hsrc i j Hi Hj).
    rewrite MachFacts.u32_small by nia.
    replace (rect_origin describe format ds dx dy + i * ds + j)
      with (rect_origin describe format ds dx dy + (i * ds + j)) by lia.
    rewrite memcpy_inside by nia.
    f_equal. nia.
  - apply copy_rows_covered.
    + intros i' j' Hi' Hj'. apply Hsrc; lia.
    + left. exists i, j. repeat split; lia.
Qed.

End RectCopy.

(** *** The translator's return value *)

Lemma zs_loop_nothing n dst src dst_row src_row dst_step src_step w :
  zs_loop n None None dst src dst_row src_row dst_step src_step w = dst.
Proof.
  revert dst dst_row src_row. induction n as [| n IH]; intros; simpl; [reflexivity | apply IH].
Qed.

(** The batch loop stops with fewer than [y_step] rows left. *)
Lemma batch_loop_exit fuel u p src ds ss ts w y_step dstep sstep st :
  0 < y_step -> 0 <= st_height st -> st_height st <= Z.of_nat fuel ->
  0 <= st_height (batch_loop fuel u p src ds ss ts w y_step dstep sstep st) < y_step.
Proof.
  intros Hy. revert st. induction fuel as [| fuel IH]; intros st H0 Hf; simpl.
  - lia.
  - destruct (y_step <=? st_height st) eqn:E.
    + apply Z.leb_le in E. apply IH; simpl; lia.
    + apply Z.leb_gt in E. lia.
Qed.

Section TranslateFacts.

Variable describe : pipe_format -> util_format_description.
Variable pack_description : pipe_format -> util_format_pack_description.
Variable unpack_description : pipe_format -> util_format_unpack_description.
Variable malloc : nat -> Z -> option buffer.

Lemma batch_path_false elt u p dst src dr sr ds ss w h xs ys dstep sstep d :
  batch_path malloc elt u p dst src dr sr ds ss w h xs ys dstep sstep = Done false d ->
  d = dst /\ exists sz, malloc 0%nat sz = None.
Proof.
  unfold batch_path. destruct (malloc 0%nat _) eqn:E; intros H; [discriminate |].
  injection H as <-. eauto.
Qed.

Lemma batch_path_unchecked_false elt u p dst src dr sr ds ss w h xs ys dstep sstep d :
  batch_path_unchecked malloc elt u p dst src dr sr ds ss w h xs ys dstep sstep = Done false d ->
  d = dst /\ exists sz, malloc 0%nat sz = None.
Proof.
  unfold batch_path_unchecked. destruct (malloc 0%nat _) eqn:E; intros H.
  - destruct u, p; try discriminate; destruct (h =? 0); discriminate.
  - injection H as <-. eauto.
Qed.

(** C4. For a source/destination pair that is not compatible, has no
    depth/stencil side and no side fitting 8-bit unorm, when exactly one of
    the two formats is pure signed integer the translator takes the signed
    path and returns failure with the destination as it was: nothing is
    repacked through another path. *)
Theorem util_format_translate_sint_mismatch
        dst_format dst dst_stride dst_x dst_y src_format src src_stride src_x src_y w h :
  util_is_format_compatible (describe src_format) (describe dst_format) = false ->
  colorspace (describe src_format) <> UTIL_FORMAT_COLORSPACE_ZS ->
  colorspace (describe dst_format) <> UTIL_FORMAT_COLORSPACE_ZS ->
  util_format_fits_8unorm (describe src_format) = false ->
  util_format_fits_8unorm (describe dst_format) = false ->
  util_format_is_pure_sint describe src_format
    <> util_format_is_pure_sint describe dst_format ->
  translate_asserts describe dst_format src_format dst_x dst_y src_x src_y = true ->
  translate_path_of describe dst_format src_format = PATH_SINT /\
  util_format_translate describe pack_description unpack_description malloc
                        dst_format dst dst_stride dst_x dst_y
                        src_format src src_stride src_x src_y w h
  = Done false dst.
Proof.
  intros Hc Hs Hd H8s H8d Hsint Ha.
  assert (Hzs : colorspace_eqb (colorspace (describe src_format)) UTIL_FORMAT_COLORSPACE_ZS
                || colorspace_eqb (colorspace (describe dst_format)) UTIL_FORMAT_COLORSPACE_ZS
                = false).
  { apply orb_false_iff. split.
    - destruct (colorspace_eqb _ _) eqn:E; [apply colorspace_eqb_eq in E; contradiction | reflexivity].
    - destruct (colorspace_eqb _ _) eqn:E; [apply colorspace_eqb_eq in E; contradiction | reflexivity]. }
  assert (Hor : util_format_is_pure_sint describe src_format
                || util_format_is_pure_sint describe dst_format = true).
  { destruct (util_format_is_pure_sint describe src_format),
             (util_format_is_pure_sint describe dst_format); try reflexivity.
    now contradiction Hsint. }
  assert (Hneq : Bool.eqb (util_format_is_pure_sint describe src_format)
                          (util_format_is_pure_sint describe dst_format) = false).
  { destruct (util_format_is_pure_sint describe src_format),
             (util_format_is_pure_sint describe dst_format); try reflexivity;
      now contradiction Hsint. }
  unfold translate_path_of, util_format_translate.
  rewrite Hc, Ha, Hzs, H8s, H8d, Hor, Hneq. simpl. split; reflexivity.
Qed.

(** With a step of one row, an aligned block height is 1. *)
Lemma aligned_one b : aligned 1 b = true -> b = 1.
Proof.
  unfold aligned. intros H. apply andb_true_iff in H. destruct H as [Hb Hm].
  apply Z.ltb_lt in Hb. apply Z.eqb_eq in Hm.
  destruct (Z.eq_dec b 1) as [-> | Hne]; [reflexivity |].
  rewrite Z.mod_small in Hm by lia. discriminate.
Qed.

Lemma zs_channel_absent (u p : option convert_rows) tmp :
  u = None \/ p = None -> zs_channel u p tmp = None.
Proof.
  intros [-> | ->]; [reflexivity |]. destruct u; reflexivity.
Qed.

(** C3 (amended). [util_format_translate] returns failure only when a
    capability of the chosen path is absent, the scratch allocation fails,
    or, on the signed path, exactly one of the two formats is pure signed
    integer; the destination is then as it was.  On the depth/stencil path
    the call stops on an assertion exactly when a coordinate or step
    assertion fails or a step is not 1; otherwise it returns success
    whatever capabilities are present and whatever the allocator answers,
    having run the scanline loop with a row step of one stride on each side
    over the channels whose two capabilities are present and whose scratch
    row was allocated.  A channel with a capability missing on either side
    is left out: the loop then runs the other channel alone, whose scratch
    row is the first allocation of the call, and with both channels missing
    the destination is returned untouched. *)
Theorem util_format_translate_failure
        dst_format dst dst_stride dst_x dst_y src_format src src_stride src_x src_y w h :
  let result := util_format_translate describe pack_description unpack_description malloc
                                      dst_format dst dst_stride dst_x dst_y
                                      src_format src src_stride src_x src_y w h in
  let pack := pack_description dst_format in
  let unpack := unpack_description src_format in
  let x_step := Mach.MAX2 (block_width (describe dst_format))
                          (block_width (describe src_format)) in
  let y_step := Mach.MAX2 (block_height (describe dst_format))
                          (block_height (describe src_format)) in
  let dst_row := Mach.u32 (dst_y * dst_stride)
                 + Mach.u32 (dst_x * (bits (block (describe dst_format)) / 8)) in
  let src_row := Mach.u32 (src_y * src_stride)
                 + Mach.u32 (src_x * (bits (block (describe src_format)) / 8)) in
  let scanlines z s :=
    Done true (zs_loop (Z.to_nat h) z s dst src dst_row src_row
                       (Mach.u32 dst_stride) (Mach.u32 src_stride) w) in
  (forall d, result = Done false d ->
     d = dst /\
     match translate_path_of describe dst_format src_format with
     | PATH_COPY => False
     | PATH_ZS => False
     | PATH_8UNORM =>
         unpack_rgba_8unorm unpack = None \/ pack_rgba_8unorm pack = None \/
         exists sz, malloc 0%nat sz = None
     | PATH_SINT =>
         util_format_is_pure_sint describe src_format
           <> util_format_is_pure_sint describe dst_format \/
         exists sz, malloc 0%nat sz = None
     | PATH_UINT =>
         unpack_rgba unpack = None \/ pack_rgba_uint pack = None \/
         exists sz, malloc 0%nat sz = None
     | PATH_FLOAT =>
         unpack_rgba unpack = None \/ pack_rgba_float pack = None \/
         exists sz, malloc 0%nat sz = None
     end) /\
  (translate_path_of describe dst_format src_format = PATH_ZS ->
   (result = Abort <->
    translate_asserts describe dst_format src_format dst_x dst_y src_x src_y = false \/
    x_step <> 1 \/ y_step <> 1) /\
   (translate_asserts describe dst_format src_format dst_x dst_y src_x src_y = true ->
    x_step = 1 -> y_step = 1 ->
    result
    = scanlines
        (zs_channel (unpack_z_float unpack) (pack_z_float pack) (malloc 0%nat (w * 4)))
        (zs_channel (unpack_s_8uint unpack) (pack_s_8uint pack)
                    (malloc (match unpack_z_float unpack, pack_z_float pack with
                             | Some _, Some _ => 1%nat
                             | _, _ => 0%nat
                             end) (w * 1))) /\
    ((unpack_z_float unpack = None \/ pack_z_float pack = None) ->
     result
     = scanlines None
         (zs_channel (unpack_s_8uint unpack) (pack_s_8uint pack) (malloc 0%nat (w * 1)))) /\
    ((unpack_s_8uint unpack = None \/ pack_s_8uint pack = None) ->
     result
     = scanlines
         (zs_channel (unpack_z_float unpack) (pack_z_float pack) (malloc 0%nat (w * 4)))
         None) /\
    ((unpack_z_float unpack = None \/ pack_z_float pack = None) ->
     (unpack_s_8uint unpack = None \/ pack_s_8uint pack = None) ->
     result = Done true dst))).
Proof.
  cbv zeta. split.
  - unfold translate_path_of, util_format_translate.
    destruct (util_is_format_compatible _ _) eqn:Hc.
    { intros d H. destruct (util_copy_rect _ _ _ _ _ _ _ _ _ _ _ _); discriminate. }
    destruct (translate_asserts _ _ _ _ _ _) eqn:Ha; cbn [negb]; [| discriminate].
    destruct (colorspace_eqb (colorspace (describe src_format)) UTIL_FORMAT_COLORSPACE_ZS
              || colorspace_eqb (colorspace (describe dst_format)) UTIL_FORMAT_COLORSPACE_ZS)
      eqn:Hzs.
    { intros d H. destruct (negb _); discriminate. }
    intros d H.
    destruct (util_format_fits_8unorm _ || util_format_fits_8unorm _).
    { destruct (unpack_rgba_8unorm _) eqn:Eu; [| injection H as <-; auto].
      destruct (pack_rgba_8unorm _) eqn:Ep; [| injection H as <-; auto].
      apply batch_path_false in H. destruct H as [-> Hm]. auto. }
    destruct (util_format_is_pure_sint _ _ || util_format_is_pure_sint _ _).
    { destruct (Bool.eqb _ _) eqn:Eb; cbn [negb] in H.
      - apply batch_path_unchecked_false in H. destruct H as [-> Hm]. auto.
      - injection H as <-. split; [reflexivity |]. left. intros E. rewrite E in Eb.
        rewrite Bool.eqb_reflx in Eb. discriminate. }
    destruct (util_format_is_pure_uint _ _ || util_format_is_pure_uint _ _).
    { destruct (unpack_rgba _) eqn:Eu; [| injection H as <-; auto].
      destruct (pack_rgba_uint _) eqn:Ep; [| injection H as <-; auto].
      apply batch_path_false in H. destruct H as [-> Hm]. auto. }
    destruct (unpack_rgba _) eqn:Eu; [| injection H as <-; auto].
    destruct (pack_rgba_float _) eqn:Ep; [| injection H as <-; auto].
    apply batch_path_false in H. destruct H as [-> Hm]. auto.
  - intros Hpath. unfold translate_path_of in Hpath.
    destruct (util_is_format_compatible _ _) eqn:Hc; [discriminate |].
    destruct (colorspace_eqb (colorspace (describe src_format)) UTIL_FORMAT_COLORSPACE_ZS
              || colorspace_eqb (colorspace (describe dst_format)) UTIL_FORMAT_COLORSPACE_ZS)
      eqn:Hzs.
    2:{ destruct (util_format_fits_8unorm _ || util_format_fits_8unorm _);
          [discriminate |].
        destruct (util_format_is_pure_sint _ _ || util_format_is_pure_sint _ _);
          [discriminate |].
        destruct (util_format_is_pure_uint _ _ || util_format_is_pure_uint _ _);
          discriminate. }
    clear Hpath. unfold util_format_translate. rewrite Hc, Hzs.
    split.
    + destruct (translate_asserts _ _ _ _ _ _) eqn:Ha; cbn [negb].
      2:{ split; [intros _; left; reflexivity | reflexivity]. }
      destruct (Mach.MAX2 (block_width (describe dst_format))
                          (block_width (describe src_format)) =? 1) eqn:Ex;
        destruct (Mach.MAX2 (block_height (describe dst_format))
                            (block_height (describe src_format)) =? 1) eqn:Ey;
        cbn [andb negb].
      * apply Z.eqb_eq in Ex, Ey.
        split; [discriminate |]. intros [H | [H | H]]; [discriminate | |]; contradiction.
      * apply Z.eqb_neq in Ey. split; [intros _; right; right; exact Ey | reflexivity].
      * apply Z.eqb_neq in Ex. split; [intros _; right; left; exact Ex | reflexivity].
      * apply Z.eqb_neq in Ex. split; [intros _; right; left; exact Ex | reflexivity].
    + intros Ha Hx Hy. rewrite Ha. cbn [negb]. rewrite Hx, Hy. cbn [Z.eqb Pos.eqb andb negb].
      unfold translate_asserts in Ha. rewrite Hy in Ha.
      repeat (apply andb_true_iff in Ha; destruct Ha as [Ha ?]).
      rewrite (aligned_one (block_height (describe dst_format))) by assumption.
      rewrite (aligned_one (block_height (describe src_format))) by assumption.
      change (1 / 1) with 1. rewrite !Z.mul_1_l.
      assert (Hres :
        Done true
          (zs_loop (Z.to_nat h)
             match unpack_z_float (unpack_description src_format),
                   pack_z_float (pack_description dst_format) with
             | Some u, Some p =>
                 match malloc 0%nat (w * 4) with
                 | Some t => Some (u, p, t)
                 | None => None
                 end
             | _, _ => None
             end
             match unpack_s_8uint (unpack_description src_format),
                   pack_s_8uint (pack_description dst_format) with
             | Some u, Some p =>
                 match malloc match unpack_z_float (unpack_description src_format),
                                    pack_z_float (pack_description dst_format) with
                              | Some _, Some _ => 1%nat
                              | _, _ => 0%nat
                              end (w * 1) with
                 | Some t => Some (u, p, t)
                 | None => None
                 end
             | _, _ => None
             end
             dst src
             (Mach.u32 (dst_y * dst_stride)
              + Mach.u32 (dst_x * (bits (block (describe dst_format)) / 8)))
             (Mach.u32 (src_y * src_stride)
              + Mach.u32 (src_x * (bits (block (describe src_format)) / 8)))
             (Mach.u32 dst_stride) (Mach.u32 src_stride) w)
        = Done true
            (zs_loop (Z.to_nat h)
               (zs_channel (unpack_z_float (unpack_description src_format))
                           (pack_z_float (pack_description dst_format))
                           (malloc 0%nat (w * 4)))
               (zs_channel (unpack_s_8uint (unpack_description src_format))
                           (pack_s_8uint (pack_description dst_format))
                           (malloc match unpack_z_float (unpack_description src_format),
                                         pack_z_float (pack_description dst_format) with
                                   | Some _, Some _ => 1%nat
                                   | _, _ => 0%nat
                                   end (w * 1)))
               dst src
               (Mach.u32 (dst_y * dst_stride)
                + Mach.u32 (dst_x * (bits (block (describe dst_format)) / 8)))
               (Mach.u32 (src_y * src_stride)
                + Mach.u32 (src_x * (bits (block (describe src_format)) / 8)))
               (Mach.u32 dst_stride) (Mach.u32 src_stride) w)).
      { unfold zs_channel.
        destruct (unpack_z_float (unpack_description src_format)),
                 (pack_z_float (pack_description dst_format)),
                 (unpack_s_8uint (unpack_description src_format)),
                 (pack_s_8uint (pack_description dst_format));
          try reflexivity; destruct (malloc _ _); try reflexivity;
          destruct (malloc _ _); reflexivity. }
      rewrite Hres. clear Hres.
      split; [reflexivity |]. split; [| split].
      * intros Hz. rewrite (zs_channel_absent _ _ _ Hz).
        replace (match unpack_z_float (unpack_description src_format),
                       pack_z_float (pack_description dst_format) with
                 | Some _, Some _ => 1%nat
                 | _, _ => 0%nat
                 end) with 0%nat; [reflexivity |].
        destruct Hz as [-> | ->]; [reflexivity |]. destruct (unpack_z_float _); reflexivity.
      * intros Hs. rewrite (zs_channel_absent _ _ (malloc _ (w * 1)) Hs). reflexivity.
      * intros Hz Hs. rewrite (zs_channel_absent _ _ _ Hz).
        rewrite (zs_channel_absent _ _ (malloc _ (w * 1)) Hs).
        rewrite zs_loop_nothing. reflexivity.
Qed.

End TranslateFacts.

(** *** Round trip through the compatible-copy path *)

Lemma util_is_format_compatible_blocks (src dst : util_format_description) :
  util_is_format_compatible src dst = true ->
  format src = format dst \/
  (layout src = UTIL_FORMAT_LAYOUT_PLAIN /\ layout dst = UTIL_FORMAT_LAYOUT_PLAIN /\
   bits (block src) = bits (block dst)).
Proof.
  unfold util_is_format_compatible.
  destruct (format_eqb (format src) (format dst)) eqn:Hfmt.
  { intros _. left. now apply format_eqb_eq. }
  destruct (layout_eqb (layout src) UTIL_FORMAT_LAYOUT_PLAIN) eqn:Hls;
    cbn [negb orb]; [| discriminate].
  destruct (layout_eqb (layout dst) UTIL_FORMAT_LAYOUT_PLAIN) eqn:Hld;
    cbn [negb orb]; [| discriminate].
  destruct (bits (block src) =? bits (block dst)) eqn:Hbits;
    cbn [negb orb]; [| discriminate].
  intros _. right. apply layout_eqb_eq in Hls, Hld. apply Z.eqb_eq in Hbits. auto.
Qed.

Section RoundTrip.

Variable describe : pipe_format -> util_format_description.
Variable pack_description : pipe_format -> util_format_pack_description.
Variable unpack_description : pipe_format -> util_format_unpack_description.
Variable malloc : nat -> Z -> option buffer.

(** The descriptor table's own invariants: the descriptor found for a
    format carries that format's identifier, and a plain (uncompressed)
    format has blocks of one pixel. *)
Hypothesis describe_format : forall f, format (describe f) = f.
Hypothesis plain_block :
  forall f, layout (describe f) = UTIL_FORMAT_LAYOUT_PLAIN ->
            block_width (describe f) = 1 /\ block_height (describe f) = 1.

(** Compatible formats have the same block geometry. *)
Lemma compatible_same_geometry A B :
  util_is_format_compatible (describe A) (describe B) = true ->
  util_format_get_blockwidth describe B = util_format_get_blockwidth describe A /\
  util_format_get_blockheight describe B = util_format_get_blockheight describe A /\
  util_format_get_blocksize describe B = util_format_get_blocksize describe A /\
  bits (block (describe B)) = bits (block (describe A)).
Proof.
  intros H. apply util_is_format_compatible_blocks in H.
  destruct H as [E | (HA & HB & Hbits)].
  - rewrite !describe_format in E. subst B. auto.
  - destruct (plain_block A HA) as [Aw Ah]. destruct (plain_block B HB) as [Bw Bh].
    unfold util_format_get_blockwidth, util_format_get_blockheight,
      util_format_get_blocksize, block_width, block_height in *.
    rewrite Hbits. repeat split; congruence.
Qed.

Lemma compatible_same_rect A B :
  util_is_format_compatible (describe A) (describe B) = true ->
  block_ok describe A ->
  block_ok describe B /\
  (forall w, rect_row_bytes describe B w = rect_row_bytes describe A w) /\
  (forall h, rect_rows describe B h = rect_rows describe A h) /\
  (forall stride x y, rect_origin describe B stride x y = rect_origin describe A stride x y).
Proof.
  intros H Hok. destruct (compatible_same_geometry A B H) as (Ew & Eh & Es & Eb).
  unfold block_ok, rect_row_bytes, rect_rows, rect_origin in *.
  unfold util_format_get_blockwidth, util_format_get_blockheight in Ew, Eh.
  unfold block_width, block_height in *.
  unfold util_format_get_blockwidth, util_format_get_blockheight.
  rewrite Ew, Eh, Es, Eb. auto.
Qed.

(** C2. When [A] and [B] are compatible in both directions,
    [util_format_translate] from [A] to [B] takes the compatible-copy path
    (its result is that of [util_copy_rect]), the destination rectangle then
    holds the source bytes, and translating it back from [B] to [A] into a
    view of the source's geometry reproduces every byte of the source
    rectangle.  The views are valid: non-negative strides that fit an [int],
    destination rows that do not overlap, a byte count that fits an
    [unsigned]. *)
Theorem util_format_translate_roundtrip
        A B (dst src back : buffer) dst_stride dst_x dst_y src_stride src_x src_y w h :
  util_is_format_compatible (describe A) (describe B) = true ->
  util_is_format_compatible (describe B) (describe A) = true ->
  block_ok describe A ->
  0 <= src_stride < 2 ^ 31 ->
  0 <= dst_stride < 2 ^ 31 ->
  rect_row_bytes describe A w <= dst_stride ->
  rect_rows describe A h * rect_row_bytes describe A w < 2 ^ 32 ->
  exists dst' back',
    translate_path_of describe B A = PATH_COPY /\
    util_copy_rect describe dst B dst_stride dst_x dst_y w h
                   src src_stride src_x src_y = Some dst' /\
    util_format_translate describe pack_description unpack_description malloc
                          B dst dst_stride dst_x dst_y
                          A src src_stride src_x src_y w h = Done true dst' /\
    util_format_translate describe pack_description unpack_description malloc
                          A back src_stride src_x src_y
                          B dst' dst_stride dst_x dst_y w h = Done true back' /\
    forall i j,
      0 <= i < rect_rows describe A h ->
      0 <= j < rect_row_bytes describe A w ->
      dst' (rect_origin describe A dst_stride dst_x dst_y + i * dst_stride + j)
      = src (rect_origin describe A src_stride src_x src_y + i * src_stride + j) /\
      back' (rect_origin describe A src_stride src_x src_y + i * src_stride + j)
      = src (rect_origin describe A src_stride src_x src_y + i * src_stride + j).
Proof.
  intros HAB HBA HokA Hss Hds Hfit Hsize.
  destruct (compatible_same_rect A B HAB HokA) as (HokB & EW & EH & EO).
  pose proof (util_copy_rect_eq describe dst B dst_stride dst_x dst_y w h
                                src src_stride src_x src_y HokB Hss) as E1.
  pose proof (util_copy_rect_eq describe back A src_stride src_x src_y w h) as E2.
  match type of E1 with _ = Some ?r => set (dst' := r) in * end.
  specialize (E2 dst' dst_stride dst_x dst_y HokA Hds).
  match type of E2 with _ = Some ?r => set (back' := r) in * end.
  exists dst', back'.
  assert (Hfwd : forall i j,
             0 <= i < rect_rows describe A h ->
             0 <= j < rect_row_bytes describe A w ->
             dst' (rect_origin describe A dst_stride dst_x dst_y + i * dst_stride + j)
             = src (rect_origin describe A src_stride src_x src_y + i * src_stride + j)).
  { intros i j Hi Hj.
    set (dorig := rect_origin describe A dst_stride dst_x dst_y).
    set (sorig := rect_origin describe A src_stride src_x src_y).
    pose (f := fun a => src (sorig + ((a - dorig) / dst_stride) * src_stride
                             + (a - dorig) mod dst_stride)).
    assert (Hf : forall i' j', 0 <= j' < rect_row_bytes describe A w ->
                 f (dorig + i' * dst_stride + j') = src (sorig + i' * src_stride + j')).
    { intros i' j' Hj'. unfold f.
      replace (dorig + i' * dst_stride + j' - dorig) with (j' + i' * dst_stride) by lia.
      rewrite Z.div_add by lia. rewrite Z.mod_add by lia.
      rewrite Z.div_small, Z.mod_small by lia. f_equal; lia. }
    rewrite <- (Hf i j Hj). subst dorig. rewrite <- (EO dst_stride dst_x dst_y).
    apply (util_copy_rect_covered describe f dst B dst_stride dst_x dst_y w h
                                  src src_stride src_x src_y dst' HokB Hss).
    - rewrite EW, EH. exact Hsize.
    - exact E1.
    - intros i' j' Hi' Hj'. rewrite EW in Hj'. rewrite !EO. symmetry. now apply Hf.
    - now rewrite EH.
    - now rewrite EW. }
  unfold translate_path_of, util_format_translate.
  rewrite HAB, HBA, !MachFacts.s32_small by lia. rewrite E1, E2.
  repeat split; try reflexivity.
  - now apply Hfwd.
  - apply (util_copy_rect_covered describe src back A src_stride src_x src_y w h
                                  dst' dst_stride dst_x dst_y back' HokA Hds Hsize E2);
      assumption.
Qed.

End RoundTrip.

(** The example table has the table invariants. *)
Lemma example_describe_format f : format (example_describe f) = f.
Proof.
  destruct f as [| | | | | | | | | | | n]; try reflexivity.
  destruct n as [| p | p]; try reflexivity.
  do 4 (try destruct p as [p | p |]; try reflexivity).
Qed.

Lemma example_plain_block f :
  layout (example_describe f) = UTIL_FORMAT_LAYOUT_PLAIN ->
  block_width (example_describe f) = 1 /\ block_height (example_describe f) = 1.
Proof.
  intros _. destruct f as [| | | | | | | | | | | n]; try (split; reflexivity).
  destruct n as [| p | p]; try (split; reflexivity).
  do 4 (try destruct p as [p | p |]; try (split; reflexivity)).
Qed.

(** C2 at a pair compatible both ways (R8G8B8A8_USCALED and R8G8B8A8_UINT),
    on a 2x2 rectangle of two packed views. *)
Lemma util_format_translate_roundtrip_witness :
  exists dst' back',
    translate_path_of example_describe PIPE_FORMAT_R8G8B8A8_UINT
                      PIPE_FORMAT_R8G8B8A8_USCALED = PATH_COPY /\
    util_copy_rect example_describe zero_buffer PIPE_FORMAT_R8G8B8A8_UINT 8 0 0 2 2
                   ramp_buffer 8 0 0 = Some dst' /\
    util_format_translate example_describe (fun _ => pack_none) (fun _ => unpack_none)
                          malloc_ok
                          PIPE_FORMAT_R8G8B8A8_UINT zero_buffer 8 0 0
                          PIPE_FORMAT_R8G8B8A8_USCALED ramp_buffer 8 0 0 2 2
    = Done true dst' /\
    util_format_translate example_describe (fun _ => pack_none) (fun _ => unpack_none)
                          malloc_ok
                          PIPE_FORMAT_R8G8B8A8_USCALED zero_buffer 8 0 0
                          PIPE_FORMAT_R8G8B8A8_UINT dst' 8 0 0 2 2
    = Done true back' /\
    forall i j,
      0 <= i < rect_rows example_describe PIPE_FORMAT_R8G8B8A8_USCALED 2 ->
      0 <= j < rect_row_bytes example_describe PIPE_FORMAT_R8G8B8A8_USCALED 2 ->
      dst' (rect_origin example_describe PIPE_FORMAT_R8G8B8A8_USCALED 8 0 0 + i * 8 + j)
      = ramp_buffer (rect_origin example_describe PIPE_FORMAT_R8G8B8A8_USCALED 8 0 0
                     + i * 8 + j) /\
      back' (rect_origin example_describe PIPE_FORMAT_R8G8B8A8_USCALED 8 0 0 + i * 8 + j)
      = ramp_buffer (rect_origin example_describe PIPE_FORMAT_R8G8B8A8_USCALED 8 0 0
                     + i * 8 + j).
Proof.
  apply (util_format_translate_roundtrip
           example_describe (fun _ => pack_none) (fun _ => unpack_none) malloc_ok
           example_describe_format example_plain_block
           PIPE_FORMAT_R8G8B8A8_USCALED PIPE_FORMAT_R8G8B8A8_UINT
           zero_buffer ramp_buffer zero_buffer 8 0 0 8 0 0 2 2).
  - reflexivity.
  - reflexivity.
  - unfold block_ok. vm_compute. repeat split; congruence.
  - lia.
  - lia.
  - vm_compute. congruence.
  - vm_compute. reflexivity.
Defined.

(** C4 at R32_FLOAT to R32_SINT, every capability present. *)
Lemma util_format_translate_sint_mismatch_witness :
  translate_path_of example_describe PIPE_FORMAT_R32_SINT PIPE_FORMAT_R32_FLOAT = PATH_SINT /\
  util_format_translate example_describe (fun _ => pack_all) (fun _ => unpack_all) malloc_ok
                        PIPE_FORMAT_R32_SINT zero_buffer 4 0 0
                        PIPE_FORMAT_R32_FLOAT ramp_buffer 4 0 0 1 1
  = Done false zero_buffer.
Proof.
  apply (util_format_translate_sint_mismatch
           example_describe (fun _ => pack_all) (fun _ => unpack_all) malloc_ok
           PIPE_FORMAT_R32_SINT zero_buffer 4 0 0 PIPE_FORMAT_R32_FLOAT ramp_buffer 4 0 0 1 1).
  - reflexivity.
  - discriminate.
  - discriminate.
  - reflexivity.
  - reflexivity.
  - discriminate.
  - reflexivity.
Defined.

(** C3 as stated fails: with every pack and unpack capability present and an
    allocator that never fails, translating R32_FLOAT to R32_SINT returns
    failure (the signed path rejects the pair). *)
Lemma util_format_translate_fails_with_capabilities :
  util_format_translate example_describe (fun _ => pack_all) (fun _ => unpack_all) malloc_ok
                        PIPE_FORMAT_R32_SINT zero_buffer 4 0 0
                        PIPE_FORMAT_R32_FLOAT ramp_buffer 4 0 0 1 1
  = Done false zero_buffer /\
  all_capabilities_present unpack_all pack_all /\
  (forall n sz, malloc_ok n sz = Some zero_buffer).
Proof.
  split; [reflexivity |]. split; [| reflexivity].
  unfold all_capabilities_present, unpack_all, pack_all. simpl.
  repeat split; eexists; reflexivity.
Qed.

(** C3 (amended) on the depth/stencil path, one pixel of Z24_UNORM_S8_UINT
    to Z16_UNORM with the stencil capability missing on the destination
    side: success, the depth converted and the stencil left out. *)
Lemma util_format_translate_failure_witness :
  exists d,
    util_format_translate example_describe (fun _ => pack_depth)
                          (fun _ => unpack_depth_stencil) malloc_ok
                          PIPE_FORMAT_Z16_UNORM zero_buffer 2 0 0
                          PIPE_FORMAT_Z24_UNORM_S8_UINT ramp_buffer 4 1 0 1 1
    = Done true d /\
    d 0 = x04 /\ d 1 = x00.
Proof.
  destruct (util_format_translate_failure
              example_describe (fun _ => pack_depth) (fun _ => unpack_depth_stencil)
              malloc_ok
              PIPE_FORMAT_Z16_UNORM zero_buffer 2 0 0
              PIPE_FORMAT_Z24_UNORM_S8_UINT ramp_buffer 4 1 0 1 1) as [_ Hzs].
  destruct (Hzs eq_refl) as [_ Hrun].
  destruct (Hrun eq_refl eq_refl eq_refl) as (_ & _ & Hs & _).
  eexists. split; [apply Hs; right; reflexivity |].
  split; reflexivity.
Defined.

(** C9. When swizzle entry 0 selects a channel that is unsigned and
    normalized, of [n] bits, [util_get_depth_format_mrd] returns the double
    quotient of 1 by 2^n - 1 (so 1 / (2^24 - 1) for 24 bits and 1 / (2^8 - 1)
    for 8 bits); for a selected channel of any other kind it returns the
    default 1 / (2^24 - 1). *)
Theorem util_get_depth_format_mrd_value (desc : util_format_description)
        (c : util_format_channel_description) :
  at4_opt (channel desc) (at4 (swizzle desc) 0) = Some c ->
  (type c = UTIL_FORMAT_TYPE_UNSIGNED -> normalized c = true -> 0 <= size c < 64 ->
   util_get_depth_format_mrd desc
   = Some (1 / double_of_unsigned (2 ^ size c - 1))%float /\
   (size c = 24 -> util_get_depth_format_mrd desc = Some (1 / 16777215)%float) /\
   (size c = 8 -> util_get_depth_format_mrd desc = Some (1 / 255)%float)) /\
  (type c <> UTIL_FORMAT_TYPE_UNSIGNED \/ normalized c = false ->
   util_get_depth_format_mrd desc = Some (1 / 16777215)%float).
Proof.
  intros Hc. unfold util_get_depth_format_mrd. rewrite Hc. split.
  - intros Ht Hn Hsz. rewrite Ht, Hn. cbn [type_eqb andb].
    replace ((size c <? 0) || (64 <=? size c)) with false
      by (symmetry; apply orb_false_iff; split; [apply Z.ltb_ge | apply Z.leb_gt]; lia).
    assert (Hpow : Mach.u64 (Mach.u64 (Z.shiftl 1 (size c)) - 1) = 2 ^ size c - 1).
    { rewrite Z.shiftl_1_l.
      assert (0 < 2 ^ size c < 2 ^ 64).
      { split; [apply Z.pow_pos_nonneg; lia | apply Z.pow_lt_mono_r; lia]. }
      rewrite (MachFacts.u64_small (2 ^ size c)) by lia.
      rewrite MachFacts.u64_small by lia. reflexivity. }
    rewrite Hpow. split; [reflexivity |].
    split; intros ->; vm_compute; reflexivity.
  - intros Hother.
    replace (type_eqb (type c) UTIL_FORMAT_TYPE_UNSIGNED && normalized c) with false.
    + vm_compute. reflexivity.
    + symmetry. apply andb_false_iff. destruct Hother as [Ht | Hn].
      * left. destruct (type_eqb _ _) eqn:E; [apply type_eqb_eq in E; contradiction | reflexivity].
      * right. exact Hn.
Qed.

(** C9 at Z24_UNORM_S8_UINT, whose depth channel has 24 bits. *)
Lemma util_get_depth_format_mrd_value_witness :
  util_get_depth_format_mrd desc_Z24_UNORM_S8_UINT = Some (1 / 16777215)%float.
Proof.
  destruct (util_get_depth_format_mrd_value
              desc_Z24_UNORM_S8_UINT (chan UTIL_FORMAT_TYPE_UNSIGNED true false 24 0))
    as [H _]; [reflexivity |].
  destruct H as (_ & H24 & _); [reflexivity | reflexivity | simpl; lia |].
  apply H24. reflexivity.
Defined.

Lemma pipe_swizzle_4f_step_at src swz dst k i :
  (k < 4)%N -> (i < 4)%N ->
  at4 (pipe_swizzle_4f_step src swz dst k) i =
  if (i =? k)%N then
    if (at4 swz k <=? PIPE_SWIZZLE_W)%N then at4 src (at4 swz k)
    else if (at4 swz k =? PIPE_SWIZZLE_0)%N then float_0
    else if (at4 swz k =? PIPE_SWIZZLE_1)%N then float_1
    else at4 dst k
  else at4 dst i.
Proof.
  intros Hk Hi. unfold pipe_swizzle_4f_step.
  destruct (i =? k)%N eqn:E.
  - apply N.eqb_eq in E. subst i.
    destruct (at4 swz k <=? _)%N; [now rewrite at4_set4_same |].
    destruct (at4 swz k =? PIPE_SWIZZLE_0)%N; [now rewrite at4_set4_same |].
    destruct (at4 swz k =? PIPE_SWIZZLE_1)%N; [now rewrite at4_set4_same | reflexivity].
  - apply N.eqb_neq in E.
    destruct (at4 swz k <=? _)%N; [rewrite at4_set4_other; auto |].
    destruct (at4 swz k =? PIPE_SWIZZLE_0)%N; [rewrite at4_set4_other; auto |].
    destruct (at4 swz k =? PIPE_SWIZZLE_1)%N; [rewrite at4_set4_other; auto | reflexivity].
Qed.

Lemma apply_color_swizzle_step_at one zero src swz dst k i :
  (k < 4)%N -> (i < 4)%N ->
  at4 (apply_color_swizzle_step one zero src swz dst k) i =
  if (i =? k)%N then
    if (at4 swz k <? 4)%N then at4 src (at4 swz k)
    else if (at4 swz k =? PIPE_SWIZZLE_1)%N then one else zero
  else at4 dst i.
Proof.
  intros Hk Hi. unfold apply_color_swizzle_step.
  assert (Hset : forall a,
             at4 (set4 dst k a) i = if (i =? k)%N then a else at4 dst i).
  { intros a. destruct (i =? k)%N eqn:E.
    - apply N.eqb_eq in E. subst i. now apply at4_set4_same.
    - apply N.eqb_neq in E. apply at4_set4_other; auto. }
  destruct (at4 swz k <? 4)%N eqn:Hlt.
  - apply N.ltb_lt in Hlt.
    destruct (N_lt_4_cases _ Hlt) as [E | [E | [E | E]]]; rewrite E; apply Hset.
  - apply N.ltb_ge in Hlt.
    destruct (at4 swz k) as [| [[p | p |] | [p | p |] |]]; try lia; apply Hset.
Qed.

(** The component [i] of the result of each loop depends on [swz[i]] only. *)
Lemma pipe_swizzle_4f_at dst src swz i :
  (i < 4)%N ->
  at4 (pipe_swizzle_4f dst src swz) i =
  if (at4 swz i <=? PIPE_SWIZZLE_W)%N then at4 src (at4 swz i)
  else if (at4 swz i =? PIPE_SWIZZLE_0)%N then float_0
  else if (at4 swz i =? PIPE_SWIZZLE_1)%N then float_1
  else at4 dst i.
Proof.
  intros Hi. unfold pipe_swizzle_4f, range4. cbn [fold_left].
  rewrite !pipe_swizzle_4f_step_at by (assumption || reflexivity).
  destruct (N_lt_4_cases i Hi) as [-> | [-> | [-> | ->]]]; reflexivity.
Qed.

Lemma util_format_apply_color_swizzle_at dst src swz is_integer i :
  (i < 4)%N ->
  at4 (util_format_apply_color_swizzle dst src swz is_integer) i =
  if (at4 swz i <? 4)%N then at4 src (at4 swz i)
  else if (at4 swz i =? PIPE_SWIZZLE_1)%N
       then (if is_integer then 1 else float_1)
       else (if is_integer then 0 else float_0).
Proof.
  intros Hi. unfold util_format_apply_color_swizzle, range4.
  destruct is_integer; cbn [fold_left];
    rewrite !apply_color_swizzle_step_at by (assumption || reflexivity);
    destruct (N_lt_4_cases i Hi) as [-> | [-> | [-> | ->]]]; reflexivity.
Qed.

(** C10. For an index [i] whose swizzle entry is neither a channel (0-3) nor
    the constant-0 or constant-1 sentinel, [pipe_swizzle_4f] leaves
    [dst[i]] as it was, while [util_format_apply_color_swizzle] stores 0
    there (as it does for every entry above 3 other than constant-1); so the
    two results differ as soon as the prior [dst[i]] is not 0, and two prior
    destinations that differ at [i] give different results of
    [pipe_swizzle_4f]. *)
Theorem pipe_swizzle_4f_keeps_none (dst src : vec4 Z) (swz : vec4 N) (i : N) :
  (i < 4)%N ->
  ((PIPE_SWIZZLE_W < at4 swz i)%N -> at4 swz i <> PIPE_SWIZZLE_1 ->
   at4 (util_format_apply_color_swizzle dst src swz false) i = float_0 /\
   at4 (util_format_apply_color_swizzle dst src swz true) i = 0) /\
  ((PIPE_SWIZZLE_1 < at4 swz i)%N ->
   at4 (pipe_swizzle_4f dst src swz) i = at4 dst i /\
   (at4 dst i <> float_0 ->
    pipe_swizzle_4f dst src swz <> util_format_apply_color_swizzle dst src swz false) /\
   (forall dst2, at4 dst2 i <> at4 dst i ->
                 pipe_swizzle_4f dst2 src swz <> pipe_swizzle_4f dst src swz)).
Proof.
  intros Hi. unfold PIPE_SWIZZLE_W, PIPE_SWIZZLE_1. split.
  - intros Hgt Hne.
    rewrite !util_format_apply_color_swizzle_at by assumption.
    replace (at4 swz i <? 4)%N with false by (symmetry; apply N.ltb_ge; lia).
    replace (at4 swz i =? PIPE_SWIZZLE_1)%N with false
      by (symmetry; apply N.eqb_neq; exact Hne).
    split; reflexivity.
  - intros Hgt.
    assert (Hkeep : forall d, at4 (pipe_swizzle_4f d src swz) i = at4 d i).
    { intros d. rewrite pipe_swizzle_4f_at by assumption.
      unfold PIPE_SWIZZLE_W, PIPE_SWIZZLE_0, PIPE_SWIZZLE_1.
      replace (at4 swz i <=? 3)%N with false by (symmetry; apply N.leb_gt; lia).
      replace (at4 swz i =? 4)%N with false by (symmetry; apply N.eqb_neq; lia).
      replace (at4 swz i =? 5)%N with false by (symmetry; apply N.eqb_neq; lia).
      reflexivity. }
    split; [apply Hkeep |]. split.
    + intros Hnz E. apply Hnz. rewrite <- (Hkeep dst), E.
      rewrite util_format_apply_color_swizzle_at by assumption.
      replace (at4 swz i <? 4)%N with false by (symmetry; apply N.ltb_ge; lia).
      replace (at4 swz i =? PIPE_SWIZZLE_1)%N with false
        by (symmetry; apply N.eqb_neq; unfold PIPE_SWIZZLE_1; lia).
      reflexivity.
    + intros dst2 Hne E. apply Hne. rewrite <- (Hkeep dst2), E. apply Hkeep.
Qed.

(** C10 at the swizzle (X, NONE, Z, 1), component 1. *)
Lemma pipe_swizzle_4f_keeps_none_witness :
  at4 (pipe_swizzle_4f (Vec4 7 7 7 7) (Vec4 10 20 30 40)
                       (Vec4 PIPE_SWIZZLE_X PIPE_SWIZZLE_NONE PIPE_SWIZZLE_Z PIPE_SWIZZLE_1)) 1
  = 7 /\
  at4 (util_format_apply_color_swizzle
         (Vec4 7 7 7 7) (Vec4 10 20 30 40)
         (Vec4 PIPE_SWIZZLE_X PIPE_SWIZZLE_NONE PIPE_SWIZZLE_Z PIPE_SWIZZLE_1) false) 1
  = float_0.
Proof.
  destruct (pipe_swizzle_4f_keeps_none
              (Vec4 7 7 7 7) (Vec4 10 20 30 40)
              (Vec4 PIPE_SWIZZLE_X PIPE_SWIZZLE_NONE PIPE_SWIZZLE_Z PIPE_SWIZZLE_1) 1)
    as [Happly Hkeep]; [reflexivity |].
  destruct Hkeep as [Hk _]; [reflexivity |].
  destruct Happly as [Ha _]; [reflexivity | discriminate |].
  split; [exact Hk | exact Ha].
Defined.

(** *** The predicate layer *)

Lemma vec4_ext {A} (a b : vec4 A) :
  (forall i, (i < 4)%N -> at4 a i = at4 b i) -> a = b.
Proof.
  intros H. destruct a as [a0 a1 a2 a3], b as [b0 b1 b2 b3].
  pose proof (H 0%N eq_refl) as H0. pose proof (H 1%N eq_refl) as H1.
  pose proof (H 2%N eq_refl) as H2. pose proof (H 3%N eq_refl) as H3.
  cbn in H0, H1, H2, H3. congruence.
Qed.

Section PredicateFacts.

Variable describe : pipe_format -> util_format_description.

Lemma first_non_void_channel_cases format :
  util_format_get_first_non_void_channel describe format = -1 \/
  0 <= util_format_get_first_non_void_channel describe format.
Proof.
  unfold util_format_get_first_non_void_channel.
  destruct (find _ range4); [right; lia | left; reflexivity].
Qed.

(** X3. A format is at most one of float, pure signed, pure unsigned and 8-bit
    signed normalized; the two pure-integer tests imply
    [util_format_is_pure_integer], the 8-bit snorm test excludes it; a
    format whose channels are all void is none of them. *)
Theorem util_format_numeric_classes_exclusive (format : pipe_format) :
  Z.b2z (util_format_is_float describe format)
  + Z.b2z (util_format_is_pure_sint describe format)
  + Z.b2z (util_format_is_pure_uint describe format)
  + Z.b2z (util_format_is_snorm8 describe format) <= 1 /\
  (util_format_is_pure_sint describe format = true ->
   util_format_is_pure_integer describe format = true) /\
  (util_format_is_pure_uint describe format = true ->
   util_format_is_pure_integer describe format = true) /\
  (util_format_is_snorm8 describe format = true ->
   util_format_is_pure_integer describe format = false) /\
  (util_format_get_first_non_void_channel describe format = -1 ->
   util_format_is_float describe format = false /\
   util_format_is_pure_integer describe format = false /\
   util_format_is_pure_sint describe format = false /\
   util_format_is_pure_uint describe format = false /\
   util_format_is_snorm8 describe format = false).
Proof.
  unfold util_format_is_float, util_format_is_pure_sint, util_format_is_pure_uint,
    util_format_is_snorm8, util_format_is_pure_integer.
  cbv zeta.
  destruct (first_non_void_channel_cases format) as [E | E].
  - rewrite E. cbn [Z.eqb Z.ltb Z.compare]. destruct (is_mixed (describe format)); cbn.
    all: repeat split; try reflexivity; try lia; try discriminate.
  - replace (util_format_get_first_non_void_channel describe format =? -1) with false
      by (symmetry; apply Z.eqb_neq; lia).
    replace (util_format_get_first_non_void_channel describe format <? 0) with false
      by (symmetry; apply Z.ltb_ge; lia).
    set (c := at4 (channel (describe format)) _).
    destruct (type c), (pure_integer c), (is_mixed (describe format)), (normalized c),
      (size c =? 8); cbn; repeat split; try reflexivity; try lia; try discriminate.
Qed.

(** X4. A format is at most one of luminance, alpha, luminance-alpha and
    intensity; [util_format_has_alpha] is false of a luminance format and
    true of the other three. *)
Theorem util_format_layout_classes_exclusive (format : pipe_format) :
  Z.b2z (util_format_is_luminance describe format)
  + Z.b2z (util_format_is_alpha describe format)
  + Z.b2z (util_format_is_luminance_alpha describe format)
  + Z.b2z (util_format_is_intensity describe format) <= 1 /\
  (util_format_is_luminance describe format = true ->
   util_format_has_alpha describe format = false) /\
  (util_format_is_alpha describe format = true \/
   util_format_is_luminance_alpha describe format = true \/
   util_format_is_intensity describe format = true ->
   util_format_has_alpha describe format = true).
Proof.
  unfold util_format_is_luminance, util_format_is_alpha, util_format_is_luminance_alpha,
    util_format_is_intensity, util_format_has_alpha.
  cbv zeta.
  unfold PIPE_SWIZZLE_X, PIPE_SWIZZLE_Y, PIPE_SWIZZLE_0, PIPE_SWIZZLE_1.
  destruct (colorspace_eqb _ UTIL_FORMAT_COLORSPACE_RGB
            || colorspace_eqb _ UTIL_FORMAT_COLORSPACE_SRGB).
  2: { cbn. repeat split; try lia; try discriminate. }
  cbn [andb].
  destruct (at4 (swizzle (describe format)) 0 =? 0)%N eqn:E0;
    destruct (at4 (swizzle (describe format)) 0 =? 4)%N eqn:E0';
    try (apply N.eqb_eq in E0; apply N.eqb_eq in E0'; lia).
  all: cbn [andb].
  all: destruct (at4 (swizzle (describe format)) 1 =? 0)%N;
    destruct (at4 (swizzle (describe format)) 1 =? 4)%N; cbn [andb].
  all: destruct (at4 (swizzle (describe format)) 2 =? 0)%N;
    destruct (at4 (swizzle (describe format)) 2 =? 4)%N; cbn [andb].
  all: destruct (at4 (swizzle (describe format)) 3 =? 5)%N eqn:E5;
    destruct (at4 (swizzle (describe format)) 3 =? 0)%N eqn:Ex;
    destruct (at4 (swizzle (describe format)) 3 =? 1)%N eqn:Ey;
    try (apply N.eqb_eq in E5; apply N.eqb_eq in Ex; lia);
    try (apply N.eqb_eq in E5; apply N.eqb_eq in Ey; lia);
    try (apply N.eqb_eq in Ex; apply N.eqb_eq in Ey; lia).
  all: cbn; repeat split; try lia; try discriminate; try reflexivity.
  all: try (intros [H | [H | H]]; discriminate).
Qed.

End PredicateFacts.

(** *** Swizzle composition and unswizzling *)

Lemma util_format_compose_swizzles_step_at swz1 swz2 dst k i :
  (k < 4)%N -> (i < 4)%N ->
  at4 (util_format_compose_swizzles_step swz1 swz2 dst k) i =
  if (i =? k)%N then
    if (at4 swz2 k <=? PIPE_SWIZZLE_W)%N then at4 swz1 (at4 swz2 k) else at4 swz2 k
  else at4 dst i.
Proof.
  intros Hk Hi. unfold util_format_compose_swizzles_step.
  destruct (i =? k)%N eqn:E.
  - apply N.eqb_eq in E. subst i. now rewrite at4_set4_same.
  - apply N.eqb_neq in E. rewrite at4_set4_other; auto.
Qed.

(** Entry [i] of a composed swizzle. *)
Lemma util_format_compose_swizzles_at swz1 swz2 dst i :
  (i < 4)%N ->
  at4 (util_format_compose_swizzles swz1 swz2 dst) i =
  if (at4 swz2 i <=? PIPE_SWIZZLE_W)%N then at4 swz1 (at4 swz2 i) else at4 swz2 i.
Proof.
  intros Hi. unfold util_format_compose_swizzles, range4. cbn [fold_left].
  rewrite !util_format_compose_swizzles_step_at by (assumption || reflexivity).
  destruct (N_lt_4_cases i Hi) as [-> | [-> | [-> | ->]]]; reflexivity.
Qed.

(** X8. Composing swizzles is associative, the identity swizzle (X, Y, Z, W) is
    neutral on both sides, and the result does not depend on what the
    destination array held. *)
Theorem util_format_compose_swizzles_monoid (a b c d1 d2 d3 d4 : vec4 N) :
  let id := Vec4 PIPE_SWIZZLE_X PIPE_SWIZZLE_Y PIPE_SWIZZLE_Z PIPE_SWIZZLE_W in
  util_format_compose_swizzles (util_format_compose_swizzles a b d1) c d2
  = util_format_compose_swizzles a (util_format_compose_swizzles b c d3) d4 /\
  util_format_compose_swizzles a id d1 = a /\
  util_format_compose_swizzles id b d1 = b.
Proof.
  cbv zeta. unfold PIPE_SWIZZLE_X, PIPE_SWIZZLE_Y, PIPE_SWIZZLE_Z. split; [| split].
  - apply vec4_ext. intros i Hi.
    rewrite !util_format_compose_swizzles_at by assumption.
    destruct (at4 c i <=? PIPE_SWIZZLE_W)%N eqn:Ec.
    + assert (Hc : (at4 c i < 4)%N)
        by (unfold PIPE_SWIZZLE_W in Ec; apply N.leb_le in Ec; lia).
      rewrite !util_format_compose_swizzles_at by assumption.
      rewrite ?Ec. reflexivity.
    + rewrite !util_format_compose_swizzles_at by assumption.
      rewrite ?Ec. reflexivity.
  - apply vec4_ext. intros i Hi.
    rewrite util_format_compose_swizzles_at by assumption.
    destruct (N_lt_4_cases i Hi) as [-> | [-> | [-> | ->]]]; reflexivity.
  - apply vec4_ext. intros i Hi.
    rewrite util_format_compose_swizzles_at by assumption.
    unfold PIPE_SWIZZLE_W.
    destruct (at4 b i <=? 3)%N eqn:Eb; [| reflexivity].
    apply N.leb_le in Eb.
    assert (Hb : (at4 b i < 4)%N) by lia.
    destruct (N_lt_4_cases _ Hb) as [-> | [-> | [-> | ->]]]; reflexivity.
Qed.

(** X9. Applying [swz1] and then [swz2] to a colour is applying their
    composition, in the integer and in the float reading alike. *)
Theorem util_format_apply_color_swizzle_compose
        (d1 d2 d3 src : pipe_color_union) (swz1 swz2 dst : vec4 N) (is_integer : bool) :
  util_format_apply_color_swizzle
    d2 (util_format_apply_color_swizzle d1 src swz1 is_integer) swz2 is_integer
  = util_format_apply_color_swizzle
      d3 src (util_format_compose_swizzles swz1 swz2 dst) is_integer.
Proof.
  apply vec4_ext. intros i Hi.
  rewrite (util_format_apply_color_swizzle_at d2) by assumption.
  rewrite (util_format_apply_color_swizzle_at d3) by assumption.
  rewrite util_format_compose_swizzles_at by assumption.
  unfold PIPE_SWIZZLE_W.
  destruct (at4 swz2 i <? 4)%N eqn:E2.
  - apply N.ltb_lt in E2.
    replace (at4 swz2 i <=? 3)%N with true by (symmetry; apply N.leb_le; lia).
    rewrite util_format_apply_color_swizzle_at by assumption. reflexivity.
  - replace (at4 swz2 i <=? 3)%N with false
      by (symmetry; apply N.leb_gt; apply N.ltb_ge in E2; lia).
    rewrite E2. reflexivity.
Qed.

(** X10. The same for [pipe_swizzle_4f], when [swz1] holds no entry above
    constant-1: such an entry would make the intermediate array keep a prior
    value that the composed swizzle cannot name. *)
Theorem pipe_swizzle_4f_compose (d t src : vec4 Z) (swz1 swz2 dst : vec4 N) :
  forallb (fun j => (at4 swz1 j <=? PIPE_SWIZZLE_1)%N) range4 = true ->
  pipe_swizzle_4f d (pipe_swizzle_4f t src swz1) swz2
  = pipe_swizzle_4f d src (util_format_compose_swizzles swz1 swz2 dst).
Proof.
  intros H1. rewrite forallb_range4 in H1.
  apply vec4_ext. intros i Hi.
  rewrite (pipe_swizzle_4f_at d) by assumption.
  rewrite (pipe_swizzle_4f_at d src) by assumption.
  rewrite util_format_compose_swizzles_at by assumption.
  destruct (at4 swz2 i <=? PIPE_SWIZZLE_W)%N eqn:E2.
  - unfold PIPE_SWIZZLE_W in E2. apply N.leb_le in E2.
    assert (H2 : (at4 swz2 i < 4)%N) by lia.
    rewrite pipe_swizzle_4f_at by assumption.
    specialize (H1 _ H2). unfold PIPE_SWIZZLE_1 in H1. apply N.leb_le in H1.
    unfold PIPE_SWIZZLE_W, PIPE_SWIZZLE_0, PIPE_SWIZZLE_1.
    destruct (at4 swz1 (at4 swz2 i) <=? 3)%N eqn:Ea; [reflexivity |].
    destruct (at4 swz1 (at4 swz2 i) =? 4)%N eqn:Eb; [reflexivity |].
    destruct (at4 swz1 (at4 swz2 i) =? 5)%N eqn:Ec; [reflexivity |].
    apply N.leb_gt in Ea. apply N.eqb_neq in Eb. apply N.eqb_neq in Ec. lia.
  - rewrite E2. reflexivity.
Qed.

(** X10 at the swizzles (Z, 0, X, 1) and (Y, X, NONE, W). *)
Lemma pipe_swizzle_4f_compose_witness :
  pipe_swizzle_4f (Vec4 7 7 7 7)
    (pipe_swizzle_4f (Vec4 8 8 8 8) (Vec4 10 20 30 40)
       (Vec4 PIPE_SWIZZLE_Z PIPE_SWIZZLE_0 PIPE_SWIZZLE_X PIPE_SWIZZLE_1))
    (Vec4 PIPE_SWIZZLE_Y PIPE_SWIZZLE_X PIPE_SWIZZLE_NONE PIPE_SWIZZLE_W)
  = pipe_swizzle_4f (Vec4 7 7 7 7) (Vec4 10 20 30 40)
      (util_format_compose_swizzles
         (Vec4 PIPE_SWIZZLE_Z PIPE_SWIZZLE_0 PIPE_SWIZZLE_X PIPE_SWIZZLE_1)
         (Vec4 PIPE_SWIZZLE_Y PIPE_SWIZZLE_X PIPE_SWIZZLE_NONE PIPE_SWIZZLE_W)
         (Vec4 0%N 0%N 0%N 0%N)).
Proof.
  apply pipe_swizzle_4f_compose. reflexivity.
Defined.

Lemma util_format_unswizzle_4f_step_at src swz dst k c :
  (c < 4)%N ->
  at4 (util_format_unswizzle_4f_step src swz dst k) c =
  if (at4 swz k =? c)%N then at4 src k else at4 dst c.
Proof.
  intros Hc. unfold util_format_unswizzle_4f_step.
  destruct (at4 swz k <? 4)%N eqn:Hlt.
  - apply N.ltb_lt in Hlt.
    destruct (N_lt_4_cases _ Hlt) as [E | [E | [E | E]]]; rewrite E;
      destruct (N_lt_4_cases _ Hc) as [-> | [-> | [-> | ->]]]; reflexivity.
  - apply N.ltb_ge in Hlt.
    replace (at4 swz k =? c)%N with false by (symmetry; apply N.eqb_neq; lia).
    destruct (at4 swz k) as [| [[p | p |] | [p | p |] |]]; try lia; reflexivity.
Qed.

(** Channel [c] of the result: the last entry of [swz] that names [c] wins. *)
Lemma util_format_unswizzle_4f_at dst src swz c :
  (c < 4)%N ->
  at4 (util_format_unswizzle_4f dst src swz) c =
  if (at4 swz 3 =? c)%N then at4 src 3
  else if (at4 swz 2 =? c)%N then at4 src 2
  else if (at4 swz 1 =? c)%N then at4 src 1
  else if (at4 swz 0 =? c)%N then at4 src 0
  else at4 dst c.
Proof.
  intros Hc. unfold util_format_unswizzle_4f, range4. cbn [fold_left].
  rewrite !util_format_unswizzle_4f_step_at by assumption. reflexivity.
Qed.

(** A channel named by entry [i] and by no later entry receives [src[i]]. *)
Lemma util_format_unswizzle_4f_named (dst src : vec4 Z) (swz : vec4 N) (c i : N) :
  (c < 4)%N -> (i < 4)%N -> at4 swz i = c ->
  (forall j, (i < j < 4)%N -> at4 swz j <> c) ->
  at4 (util_format_unswizzle_4f dst src swz) c = at4 src i.
Proof.
  intros Hc Hi Ei Hlast. rewrite util_format_unswizzle_4f_at by assumption.
  destruct (N_lt_4_cases i Hi) as [-> | [-> | [-> | ->]]].
  - rewrite !(proj2 (N.eqb_neq (at4 swz 3) c)) by (apply Hlast; lia).
    rewrite !(proj2 (N.eqb_neq (at4 swz 2) c)) by (apply Hlast; lia).
    rewrite !(proj2 (N.eqb_neq (at4 swz 1) c)) by (apply Hlast; lia).
    rewrite (proj2 (N.eqb_eq _ _) Ei). reflexivity.
  - rewrite !(proj2 (N.eqb_neq (at4 swz 3) c)) by (apply Hlast; lia).
    rewrite !(proj2 (N.eqb_neq (at4 swz 2) c)) by (apply Hlast; lia).
    rewrite (proj2 (N.eqb_eq _ _) Ei). reflexivity.
  - rewrite !(proj2 (N.eqb_neq (at4 swz 3) c)) by (apply Hlast; lia).
    rewrite (proj2 (N.eqb_eq _ _) Ei). reflexivity.
  - rewrite (proj2 (N.eqb_eq _ _) Ei). reflexivity.
Qed.

(** X11. [util_format_unswizzle_4f] writes only the channels the swizzle names:
    a channel no entry names keeps its prior value, and a channel named by
    entry [i] and by no later entry receives [src[i]]. *)
Theorem util_format_unswizzle_4f_writes_named (dst src : vec4 Z) (swz : vec4 N) (c : N) :
  (c < 4)%N ->
  ((forall i, (i < 4)%N -> at4 swz i <> c) ->
   at4 (util_format_unswizzle_4f dst src swz) c = at4 dst c) /\
  (forall i, (i < 4)%N -> at4 swz i = c ->
             (forall j, (i < j < 4)%N -> at4 swz j <> c) ->
             at4 (util_format_unswizzle_4f dst src swz) c = at4 src i).
Proof.
  intros Hc. split.
  - intros H. rewrite util_format_unswizzle_4f_at by assumption.
    rewrite !(proj2 (N.eqb_neq _ _)) by (apply H; reflexivity). reflexivity.
  - intros i Hi Ei Hlast. now apply util_format_unswizzle_4f_named.
Qed.

(** X11 at the swizzle (Y, Y, 0, X): channel 2 is kept, channel 1 comes from entry 1. *)
Lemma util_format_unswizzle_4f_writes_named_witness :
  at4 (util_format_unswizzle_4f (Vec4 7 7 7 7) (Vec4 10 20 30 40)
         (Vec4 PIPE_SWIZZLE_Y PIPE_SWIZZLE_Y PIPE_SWIZZLE_0 PIPE_SWIZZLE_X)) 2 = 7 /\
  at4 (util_format_unswizzle_4f (Vec4 7 7 7 7) (Vec4 10 20 30 40)
         (Vec4 PIPE_SWIZZLE_Y PIPE_SWIZZLE_Y PIPE_SWIZZLE_0 PIPE_SWIZZLE_X)) 1 = 20.
Proof.
  split.
  - apply (proj1 (util_format_unswizzle_4f_writes_named
                    (Vec4 7 7 7 7) (Vec4 10 20 30 40)
                    (Vec4 PIPE_SWIZZLE_Y PIPE_SWIZZLE_Y PIPE_SWIZZLE_0 PIPE_SWIZZLE_X)
                    2 eq_refl)).
    intros i Hi. destruct (N_lt_4_cases i Hi) as [-> | [-> | [-> | ->]]]; discriminate.
  - apply (proj2 (util_format_unswizzle_4f_writes_named
                    (Vec4 7 7 7 7) (Vec4 10 20 30 40)
                    (Vec4 PIPE_SWIZZLE_Y PIPE_SWIZZLE_Y PIPE_SWIZZLE_0 PIPE_SWIZZLE_X)
                    1 eq_refl) 1%N eq_refl eq_refl).
    intros j Hj. assert (j = 2 \/ j = 3)%N as [-> | ->] by lia; discriminate.
Defined.

Lemma swizzle_is_permutation_cases (swz : vec4 N) :
  swizzle_is_permutation swz = true ->
  forall c, (c < 4)%N ->
    (at4 swz c < 4)%N /\
    exists i, (i < 4)%N /\ at4 swz i = c /\
              forall j, (j < 4)%N -> at4 swz j = c -> j = i.
Proof.
  unfold swizzle_is_permutation. intros H. apply andb_true_iff in H as [Hs Hb].
  rewrite forallb_range4 in Hb.
  destruct swz as [a b c0 d].
  pose proof (Hb 0%N eq_refl) as Ha. pose proof (Hb 1%N eq_refl) as Hb1.
  pose proof (Hb 2%N eq_refl) as Hc. pose proof (Hb 3%N eq_refl) as Hd.
  cbn [at4 v0 v1 v2 v3] in Ha, Hb1, Hc, Hd.
  apply N.ltb_lt in Ha, Hb1, Hc, Hd.
  destruct (N_lt_4_cases _ Ha) as [-> | [-> | [-> | ->]]];
    destruct (N_lt_4_cases _ Hb1) as [-> | [-> | [-> | ->]]];
    destruct (N_lt_4_cases _ Hc) as [-> | [-> | [-> | ->]]];
    destruct (N_lt_4_cases _ Hd) as [-> | [-> | [-> | ->]]];
    try (vm_compute in Hs; discriminate Hs).
  all: intros c Hcc; destruct (N_lt_4_cases _ Hcc) as [-> | [-> | [-> | ->]]];
    (split; [reflexivity |]).
  all: first
         [ exists 0%N; split; [reflexivity | split; [reflexivity |]]
         | exists 1%N; split; [reflexivity | split; [reflexivity |]]
         | exists 2%N; split; [reflexivity | split; [reflexivity |]]
         | exists 3%N; split; [reflexivity | split; [reflexivity |]] ].
  all: intros j Hj Ej;
    destruct (N_lt_4_cases _ Hj) as [-> | [-> | [-> | ->]]];
    first [reflexivity | discriminate Ej].
Qed.

(** X12. For a swizzle that names each of the four channels once,
    [util_format_unswizzle_4f] undoes [pipe_swizzle_4f] and
    [pipe_swizzle_4f] undoes [util_format_unswizzle_4f], whatever the
    destination arrays held. *)
Theorem util_format_unswizzle_4f_roundtrip (d t src : vec4 Z) (swz : vec4 N) :
  swizzle_is_permutation swz = true ->
  util_format_unswizzle_4f d (pipe_swizzle_4f t src swz) swz = src /\
  pipe_swizzle_4f t (util_format_unswizzle_4f d src swz) swz = src.
Proof.
  intros Hp. pose proof (swizzle_is_permutation_cases swz Hp) as Hcases.
  split; apply vec4_ext; intros c Hc.
  - destruct (Hcases c Hc) as [_ [i [Hi [Ei Huniq]]]].
    assert (Hat : forall k, (k < 4)%N ->
                            at4 (pipe_swizzle_4f t src swz) k = at4 src (at4 swz k)).
    { intros k Hk. rewrite pipe_swizzle_4f_at by assumption.
      destruct (Hcases k Hk) as [Hlt _]. unfold PIPE_SWIZZLE_W.
      replace (at4 swz k <=? 3)%N with true by (symmetry; apply N.leb_le; lia).
      reflexivity. }
    rewrite (util_format_unswizzle_4f_named d (pipe_swizzle_4f t src swz) swz c i Hc Hi Ei).
    + rewrite Hat by assumption. now rewrite Ei.
    + intros j Hj Ej. specialize (Huniq j (proj2 Hj) Ej). lia.
  - rewrite pipe_swizzle_4f_at by assumption.
    destruct (Hcases c Hc) as [Hlt _]. unfold PIPE_SWIZZLE_W.
    replace (at4 swz c <=? 3)%N with true by (symmetry; apply N.leb_le; lia).
    destruct (Hcases _ Hlt) as [_ [i [Hi [Ei Huniq]]]].
    assert (i = c) by (symmetry; apply Huniq; [assumption | reflexivity]). subst i.
    apply (util_format_unswizzle_4f_named d src swz (at4 swz c) c Hlt Hc eq_refl).
    intros j Hj Ej. specialize (Huniq j (proj2 Hj) Ej). lia.
Qed.

(** X12 at the swizzle (Z, Y, X, W). *)
Lemma util_format_unswizzle_4f_roundtrip_witness :
  util_format_unswizzle_4f (Vec4 7 7 7 7)
    (pipe_swizzle_4f (Vec4 8 8 8 8) (Vec4 10 20 30 40)
       (Vec4 PIPE_SWIZZLE_Z PIPE_SWIZZLE_Y PIPE_SWIZZLE_X PIPE_SWIZZLE_W))
    (Vec4 PIPE_SWIZZLE_Z PIPE_SWIZZLE_Y PIPE_SWIZZLE_X PIPE_SWIZZLE_W)
  = Vec4 10 20 30 40.
Proof.
  apply (proj1 (util_format_unswizzle_4f_roundtrip
                  (Vec4 7 7 7 7) (Vec4 8 8 8 8) (Vec4 10 20 30 40)
                  (Vec4 PIPE_SWIZZLE_Z PIPE_SWIZZLE_Y PIPE_SWIZZLE_X PIPE_SWIZZLE_W)
                  eq_refl)).
Defined.

(** *** What the rectangle copy leaves alone *)

Lemma memcpy_outside dst d src s n a :
  ~ (d <= a < d + n) -> memcpy dst d src s n a = dst a.
Proof.
  intros H. unfold memcpy.
  destruct ((d <=? a) && (a <? d + n)) eqn:E; [| reflexivity].
  apply andb_true_iff in E. destruct E as [E1 E2].
  apply Z.leb_le in E1. apply Z.ltb_lt in E2. lia.
Qed.

Lemma copy_rows_outside src ds ss W n :
  forall dst d s a,
    (forall i, 0 <= i < Z.of_nat n -> ~ (d + i * ds <= a < d + i * ds + W)) ->
    copy_rows n dst d ds src s ss W a = dst a.
Proof.
  induction n as [| n IH]; intros dst d s a H; [reflexivity |].
  cbn [copy_rows]. rewrite IH.
  - apply memcpy_outside. specialize (H 0). lia.
  - intros i Hi. specialize (H (i + 1)). lia.
Qed.

Section RectFrame.

Variable describe : pipe_format -> util_format_description.

(** [util_copy_rect] on a valid descriptor, whatever the sign of the source
    stride: the destination side of the copy. *)
Lemma util_copy_rect_dst dst format ds dx dy w h src ss sx sy :
  block_ok describe format ->
  exists s,
    util_copy_rect describe dst format ds dx dy w h src ss sx sy =
    Some (if (rect_row_bytes describe format w =? ds)
             && (rect_row_bytes describe format w =? Mach.u32 ss)
          then memcpy dst (rect_origin describe format ds dx dy) src s
                      (Mach.u32 (rect_rows describe format h
                                 * rect_row_bytes describe format w))
          else copy_rows (Z.to_nat (rect_rows describe format h)) dst
                         (rect_origin describe format ds dx dy) ds
                         src s ss (rect_row_bytes describe format w)).
Proof.
  intros (Hw & Hh & Hb).
  pose proof (blocksize_range describe format Hb) as Hbs.
  unfold util_copy_rect, rect_row_bytes, rect_rows, rect_origin.
  unfold util_format_get_blockwidth, util_format_get_blockheight in *.
  fold (block_width (describe format)). fold (block_height (describe format)).
  rewrite !MachFacts.s32_small by lia.
  replace (0 <? util_format_get_blocksize describe format) with true
    by (symmetry; apply Z.ltb_lt; lia).
  replace (0 <? block_width (describe format)) with true
    by (symmetry; apply Z.ltb_lt; lia).
  replace (0 <? block_height (describe format)) with true
    by (symmetry; apply Z.ltb_lt; lia).
  cbn [andb negb].
  eexists. destruct (_ && _); reflexivity.
Qed.

Lemma util_copy_rect_outside dst format ds dx dy w h src ss sx sy r a :
  block_ok describe format ->
  util_copy_rect describe dst format ds dx dy w h src ss sx sy = Some r ->
  (forall i, 0 <= i < rect_rows describe format h ->
             ~ (rect_origin describe format ds dx dy + i * ds <= a
                < rect_origin describe format ds dx dy + i * ds
                  + rect_row_bytes describe format w)) ->
  r a = dst a.
Proof.
  intros Hok Hr Hout.
  destruct (util_copy_rect_dst dst format ds dx dy w h src ss sx sy Hok) as [s E].
  rewrite E in Hr. injection Hr as <-.
  pose proof (rect_rows_nonneg describe format h Hok) as Hrows.
  set (W := rect_row_bytes describe format w) in *.
  set (R := rect_rows describe format h) in *.
  set (d := rect_origin describe format ds dx dy) in *.
  assert (HW : 0 <= W) by (apply MachFacts.u32_range).
  destruct ((W =? ds) && (W =? Mach.u32 ss)) eqn:Hfast.
  - apply andb_true_iff in Hfast. destruct Hfast as [E1 _]. apply Z.eqb_eq in E1.
    apply memcpy_outside. intros [Hlo Hhi].
    assert (Hn : Mach.u32 (R * W) <= R * W).
    { unfold Mach.u32, Mach.wrap. apply Z.mod_le; nia. }
    assert (HWpos : 0 < W) by nia.
    apply (Hout ((a - d) / W)).
    + split; [apply Z.div_pos; lia |].
      apply Z.div_lt_upper_bound; nia.
    + rewrite <- E1.
      pose proof (Z.div_mod (a - d) W ltac:(lia)) as Hdm.
      pose proof (Z.mod_pos_bound (a - d) W HWpos) as Hmod.
      nia.
  - apply copy_rows_outside. intros i Hi. apply Hout. lia.
Qed.

(** X1. [util_copy_rect] writes the rows of the destination rectangle and
    nothing else: a byte outside every row keeps its value, and a copy of
    zero width or zero height changes no byte at all. *)
Theorem util_copy_rect_frame dst format ds dx dy w h src ss sx sy r :
  block_ok describe format ->
  util_copy_rect describe dst format ds dx dy w h src ss sx sy = Some r ->
  (forall a,
     (forall i, 0 <= i < rect_rows describe format h ->
                ~ (rect_origin describe format ds dx dy + i * ds <= a
                   < rect_origin describe format ds dx dy + i * ds
                     + rect_row_bytes describe format w)) ->
     r a = dst a) /\
  (w = 0 \/ h = 0 -> forall a, r a = dst a).
Proof.
  intros Hok Hr. split.
  - intros a Hout. now apply (util_copy_rect_outside dst format ds dx dy w h src ss sx sy).
  - intros Hz a.
    apply (util_copy_rect_outside dst format ds dx dy w h src ss sx sy); try assumption.
    intros i Hi. destruct Hok as (Hw & Hh & Hb).
    pose proof (blocksize_range describe format Hb) as Hbs.
    unfold rect_rows, rect_row_bytes, util_format_get_blockwidth,
      util_format_get_blockheight in *.
    fold (block_width (describe format)) in *.
    fold (block_height (describe format)) in *.
    destruct Hz as [-> | ->].
    + rewrite (MachFacts.u32_small (0 + _ - 1)) by lia.
      rewrite Z.div_small by lia. rewrite Z.mul_0_l.
      rewrite MachFacts.u32_small by lia. lia.
    + rewrite (MachFacts.u32_small (0 + _ - 1)) in Hi by lia.
      rewrite Z.div_small in Hi by lia. lia.
Qed.

End RectFrame.

(** X1 on a copy of two rows of one pixel: a byte between the rows and a byte
    past them keep their value. *)
Lemma util_copy_rect_frame_witness :
  exists r,
    util_copy_rect example_describe zero_buffer PIPE_FORMAT_R8G8B8A8_UINT 8 0 0 1 2
                   ramp_buffer 8 1 0 = Some r /\
    (r 4 = x00 /\ r 8 = x0c /\ r 100 = x00).
Proof.
  eexists. split; [reflexivity |].
  assert (Hok : block_ok example_describe PIPE_FORMAT_R8G8B8A8_UINT)
    by (unfold block_ok; cbn; lia).
  destruct (util_copy_rect_frame example_describe zero_buffer PIPE_FORMAT_R8G8B8A8_UINT
              8 0 0 1 2 ramp_buffer 8 1 0 _ Hok eq_refl) as [Hframe _].
  assert (Erows : rect_rows example_describe PIPE_FORMAT_R8G8B8A8_UINT 2 = 2)
    by reflexivity.
  assert (Eorig : rect_origin example_describe PIPE_FORMAT_R8G8B8A8_UINT 8 0 0 = 0)
    by reflexivity.
  assert (Ebytes : rect_row_bytes example_describe PIPE_FORMAT_R8G8B8A8_UINT 1 = 4)
    by reflexivity.
  rewrite Erows, Eorig, Ebytes in Hframe.
  split; [| split].
  - apply (Hframe 4). intros i Hi. lia.
  - reflexivity.
  - apply (Hframe 100). intros i Hi. lia.
Defined.

(** *** Translating no rows *)

Section NoRows.

Variable describe : pipe_format -> util_format_description.
Variable pack_description : pipe_format -> util_format_pack_description.
Variable unpack_description : pipe_format -> util_format_unpack_description.
Variable malloc : nat -> Z -> option buffer.

Lemma util_copy_rect_no_rows dst format ds dx dy w src ss sx sy r :
  util_copy_rect describe dst format ds dx dy w 0 src ss sx sy = Some r ->
  forall a, r a = dst a.
Proof.
  unfold util_copy_rect.
  set (bs := Mach.s32 (util_format_get_blocksize describe format)).
  set (bw := Mach.s32 (util_format_get_blockwidth describe format)).
  set (bh := Mach.s32 (util_format_get_blockheight describe format)).
  destruct ((0 <? bs) && (0 <? bw) && (0 <? bh)) eqn:Hassert; cbn [negb]; [| discriminate].
  apply andb_true_iff in Hassert. destruct Hassert as [_ Hbh]. apply Z.ltb_lt in Hbh.
  assert (Hrange : bh < 2 ^ 31).
  { unfold bh, Mach.s32.
    pose proof (Z.mod_pos_bound
                  (util_format_get_blockheight describe format + 2 ^ 31) (2 ^ 32)).
    lia. }
  assert (Hrows : Mach.u32 (0 + bh - 1) / bh = 0).
  { rewrite MachFacts.u32_small by lia. apply Z.div_small. lia. }
  rewrite Hrows. cbn [Z.to_nat copy_rows Z.mul].
  intros Hr a. destruct (_ && _); injection Hr as <-; [| reflexivity].
  apply memcpy_outside. change (Mach.u32 0) with 0. lia.
Qed.

(** X6. A call of [util_format_translate] with no rows to convert that returns
    leaves every byte of the destination as it was, on every conversion
    path, whether it reports success or an allocation failure. *)
Theorem util_format_translate_no_rows
        dst_format dst dst_stride dst_x dst_y src_format src src_stride src_x src_y w ok d :
  util_format_translate describe pack_description unpack_description malloc
                        dst_format dst dst_stride dst_x dst_y
                        src_format src src_stride src_x src_y w 0 = Done ok d ->
  forall a, d a = dst a.
Proof.
  unfold util_format_translate. cbv zeta.
  set (unpack := unpack_description src_format).
  set (pack := pack_description dst_format).
  destruct (util_is_format_compatible _ _).
  { destruct (util_copy_rect _ _ _ _ _ _ _ _ _ _ _ _) as [r |] eqn:E; [| discriminate].
    intros H. injection H as _ <-. now apply (util_copy_rect_no_rows _ _ _ _ _ _ _ _ _ _ _ E). }
  destruct (translate_asserts _ _ _ _ _ _ _); cbn [negb]; [| discriminate].
  assert (Hbatch : forall elt u p dr sr ds ss xs ys dstep sstep,
             batch_path malloc elt u p dst src dr sr ds ss w 0 xs ys dstep sstep = Done ok d ->
             forall a, d a = dst a).
  { intros elt u p dr sr ds ss xs ys dstep sstep. unfold batch_path.
    destruct (malloc _ _); intros H; injection H as _ <-; reflexivity. }
  destruct (colorspace_eqb _ _ || colorspace_eqb _ _).
  { destruct (_ && _); cbn [negb]; [| discriminate].
    intros H. injection H as _ <-. reflexivity. }
  destruct (util_format_fits_8unorm _ || util_format_fits_8unorm _).
  { destruct (unpack_rgba_8unorm unpack), (pack_rgba_8unorm pack);
      try (intros H; injection H as _ <-; reflexivity).
    apply Hbatch. }
  destruct (util_format_is_pure_sint _ _ || util_format_is_pure_sint _ _).
  { destruct (Bool.eqb _ _); cbn [negb];
      [| intros H; injection H as _ <-; reflexivity].
    unfold batch_path_unchecked.
    destruct (malloc _ _); [| intros H; injection H as _ <-; reflexivity].
    destruct (unpack_rgba unpack), (pack_rgba_sint pack);
      cbn [Z.eqb]; intros H; injection H as _ <-; reflexivity. }
  destruct (util_format_is_pure_uint _ _ || util_format_is_pure_uint _ _).
  { destruct (unpack_rgba unpack), (pack_rgba_uint pack);
      try (intros H; injection H as _ <-; reflexivity).
    apply Hbatch. }
  destruct (unpack_rgba unpack), (pack_rgba_float pack);
    try (intros H; injection H as _ <-; reflexivity).
  apply Hbatch.
Qed.

End NoRows.

(** X6 on the unsigned path, with every capability present. *)
Lemma util_format_translate_no_rows_witness :
  exists d,
    util_format_translate example_describe (fun _ => pack_all) (fun _ => unpack_all)
                          malloc_ok
                          PIPE_FORMAT_R32_FLOAT ramp_buffer 4 0 0
                          PIPE_FORMAT_R8G8B8A8_UINT zero_buffer 4 0 0 3 0 = Done true d /\
    d 5 = ramp_buffer 5.
Proof.
  eexists. split; [reflexivity |].
  apply (util_format_translate_no_rows
           example_describe (fun _ => pack_all) (fun _ => unpack_all) malloc_ok
           PIPE_FORMAT_R32_FLOAT ramp_buffer 4 0 0
           PIPE_FORMAT_R8G8B8A8_UINT zero_buffer 4 0 0 3 true _ eq_refl).
Defined.

(** *** Compatibility as an order on the table's formats *)

(** The two readings of [util_is_format_compatible] agree. *)
Lemma util_is_format_compatible_reflect (src dst : util_format_description) :
  util_is_format_compatible src dst = true <-> compatible_spec src dst.
Proof.
  unfold util_is_format_compatible, compatible_spec.
  destruct (format_eqb (format src) (format dst)) eqn:Hfmt.
  { split; [intros _; left; now apply format_eqb_eq | reflexivity]. }
  assert (Hne : format src <> format dst).
  { intros E. apply format_eqb_eq in E. congruence. }
  split.
  - intros H. right.
    destruct (layout_eqb (layout src) UTIL_FORMAT_LAYOUT_PLAIN) eqn:Hls;
      cbn [negb orb] in H; [| discriminate].
    destruct (layout_eqb (layout dst) UTIL_FORMAT_LAYOUT_PLAIN) eqn:Hld;
      cbn [negb orb] in H; [| discriminate].
    destruct (bits (block src) =? bits (block dst)) eqn:Hbits;
      cbn [negb orb] in H; [| discriminate].
    destruct (nr_channels src =? nr_channels dst) eqn:Hnr;
      cbn [negb orb] in H; [| discriminate].
    destruct (colorspace_eqb (colorspace src) (colorspace dst)) eqn:Hcs;
      cbn [negb orb] in H; [| discriminate].
    match type of H with context [forallb ?p range4] =>
      destruct (forallb p range4) eqn:Hsz end; cbn [negb] in H; [| discriminate].
    rewrite forallb_range4 in Hsz, H.
    apply layout_eqb_eq in Hls, Hld. apply Z.eqb_eq in Hbits, Hnr.
    apply colorspace_eqb_eq in Hcs.
    repeat split; try assumption.
    + intros chan Hc. apply Z.eqb_eq. now apply Hsz.
    + specialize (H i H0). cbv beta zeta in H. rewrite (proj2 (N.ltb_lt _ _) H1) in H.
      destruct (at4 (swizzle src) i =? at4 (swizzle dst) i)%N eqn:E; [| discriminate].
      now apply N.eqb_eq.
    + specialize (H i H0). cbv beta zeta in H. rewrite (proj2 (N.ltb_lt _ _) H1) in H.
      destruct (at4 (swizzle src) i =? at4 (swizzle dst) i)%N eqn:E; [| discriminate].
      cbn [negb orb] in H.
      destruct (type_eqb _ _) eqn:Ht in H; [| discriminate].
      now apply type_eqb_eq.
    + specialize (H i H0). cbv beta zeta in H. rewrite (proj2 (N.ltb_lt _ _) H1) in H.
      destruct (at4 (swizzle src) i =? at4 (swizzle dst) i)%N eqn:E; [| discriminate].
      cbn [negb orb] in H.
      destruct (type_eqb _ _) eqn:Ht in H; [| discriminate].
      destruct (Bool.eqb _ _) eqn:Hn in H; [| discriminate].
      now apply bool_eqb_eq.
  - intros [E | (Hls & Hld & Hbits & Hnr & Hcs & Hsz & H)]; [contradiction |].
    rewrite (proj2 (layout_eqb_eq _ _) Hls), (proj2 (layout_eqb_eq _ _) Hld).
    rewrite (proj2 (Z.eqb_eq _ _) Hbits), (proj2 (Z.eqb_eq _ _) Hnr).
    rewrite (proj2 (colorspace_eqb_eq _ _) Hcs). cbn [negb orb].
    match goal with |- context [forallb ?p range4] =>
      replace (forallb p range4) with true end.
    2:{ symmetry. apply forallb_range4. intros i Hi. apply Z.eqb_eq. now apply Hsz. }
    cbn [negb]. apply forallb_range4.
    intros i Hi. cbv beta zeta.
    destruct (at4 (swizzle dst) i <? 4)%N eqn:Hlt; [| reflexivity].
    apply N.ltb_lt in Hlt.
    destruct (H i Hi Hlt) as (E1 & E2 & E3).
    rewrite (proj2 (N.eqb_eq _ _) E1). cbn [negb].
    rewrite (proj2 (type_eqb_eq _ _) E2), (proj2 (bool_eqb_eq _ _) E3).
    reflexivity.
Qed.

Section CompatibleOrder.

Variable describe : pipe_format -> util_format_description.
Hypothesis describe_format : forall f, format (describe f) = f.

(** X5. Over a descriptor table that gives each format its own identifier,
    compatibility is reflexive and transitive: if [A] can be copied as [B]
    and [B] as [C], then [A] can be copied as [C]. *)
Theorem util_is_format_compatible_preorder (A B C : pipe_format) :
  util_is_format_compatible (describe A) (describe A) = true /\
  (util_is_format_compatible (describe A) (describe B) = true ->
   util_is_format_compatible (describe B) (describe C) = true ->
   util_is_format_compatible (describe A) (describe C) = true).
Proof.
  split.
  { unfold util_is_format_compatible. now rewrite format_eqb_refl. }
  intros HAB HBC.
  apply util_is_format_compatible_reflect in HAB as [E | HAB].
  { rewrite !describe_format in E. subst B. exact HBC. }
  pose proof HBC as HBC'.
  apply util_is_format_compatible_reflect in HBC as [E | HBC].
  { rewrite !describe_format in E. subst C.
    apply util_is_format_compatible_reflect. now right. }
  clear HBC'.
  apply util_is_format_compatible_reflect. right.
  destruct HAB as (La & Lb & Hbits & Hnr & Hcs & Hsz & Hswz).
  destruct HBC as (_ & Lc & Hbits' & Hnr' & Hcs' & Hsz' & Hswz').
  repeat split; try congruence.
  - intros chan Hc. rewrite Hsz by assumption. now apply Hsz'.
  - destruct (Hswz' i H H0) as (E1 & _). rewrite <- E1 in H0.
    destruct (Hswz i H H0) as (E2 & _). congruence.
  - destruct (Hswz' i H H0) as (E1 & E2 & _). pose proof H0 as H0'. rewrite <- E1 in H0'.
    destruct (Hswz i H H0') as (_ & E3 & _). rewrite E1 in E3. congruence.
  - destruct (Hswz' i H H0) as (E1 & _ & E2). pose proof H0 as H0'. rewrite <- E1 in H0'.
    destruct (Hswz i H H0') as (_ & _ & E3). rewrite E1 in E3. congruence.
Qed.

End CompatibleOrder.

(** X5 on the 8-bit RGBA formats of the example table. *)
Lemma util_is_format_compatible_preorder_witness :
  util_is_format_compatible (example_describe PIPE_FORMAT_R8G8B8A8_USCALED)
                            (example_describe PIPE_FORMAT_R8G8B8A8_UINT) = true /\
  util_is_format_compatible (example_describe PIPE_FORMAT_R8G8B8A8_UINT)
                            (example_describe PIPE_FORMAT_R8G8B8A8_USCALED) = true /\
  util_is_format_compatible (example_describe PIPE_FORMAT_R8G8B8A8_USCALED)
                            (example_describe PIPE_FORMAT_R8G8B8A8_USCALED) = true.
Proof.
  split; [reflexivity | split; [reflexivity |]].
  apply (proj2 (util_is_format_compatible_preorder
                  example_describe example_describe_format
                  PIPE_FORMAT_R8G8B8A8_USCALED PIPE_FORMAT_R8G8B8A8_UINT
                  PIPE_FORMAT_R8G8B8A8_USCALED)); reflexivity.
Defined.

(** *** Translating the slices of a 3D region *)

Section RectRows.

Variable describe : pipe_format -> util_format_description.

(** The rows of the destination rectangle after [util_copy_rect], when the
    rows of the destination do not overlap. *)
Lemma util_copy_rect_rows dst format ds dx dy w h src ss sx sy r :
  block_ok describe format -> 0 <= ss < 2 ^ 31 ->
  rect_row_bytes describe format w <= ds ->
  rect_rows describe format h * rect_row_bytes describe format w < 2 ^ 32 ->
  util_copy_rect describe dst format ds dx dy w h src ss sx sy = Some r ->
  forall i j,
    0 <= i < rect_rows describe format h ->
    0 <= j < rect_row_bytes describe format w ->
    r (rect_origin describe format ds dx dy + i * ds + j)
    = src (rect_origin describe format ss sx sy + i * ss + j).
Proof.
  intros Hok Hss Hfit Hsize Hr i j Hi Hj.
  set (dorig := rect_origin describe format ds dx dy).
  set (sorig := rect_origin describe format ss sx sy).
  pose (f := fun a => src (sorig + ((a - dorig) / ds) * ss + (a - dorig) mod ds)).
  assert (Hf : forall i' j', 0 <= j' < rect_row_bytes describe format w ->
               f (dorig + i' * ds + j') = src (sorig + i' * ss + j')).
  { intros i' j' Hj'. unfold f.
    replace (dorig + i' * ds + j' - dorig) with (j' + i' * ds) by lia.
    rewrite Z.div_add by lia. rewrite Z.mod_add by lia.
    rewrite Z.div_small, Z.mod_small by lia. f_equal; lia. }
  rewrite <- (Hf i j Hj).
  apply (util_copy_rect_covered describe f dst format ds dx dy w h src ss sx sy r);
    try assumption.
  intros i' j' Hi' Hj'. symmetry. now apply Hf.
Qed.

End RectRows.

Section Translate3dFacts.

Variable describe : pipe_format -> util_format_description.
Variable pack_description : pipe_format -> util_format_pack_description.
Variable unpack_description : pipe_format -> util_format_unpack_description.
Variable malloc : nat -> nat -> Z -> option buffer.

Hypothesis describe_format : forall f, format (describe f) = f.
Hypothesis plain_block :
  forall f, layout (describe f) = UTIL_FORMAT_LAYOUT_PLAIN ->
            block_width (describe f) = 1 /\ block_height (describe f) = 1.

(** The slice loop over compatible formats, from any layer on. *)
Lemma translate_layers_copies A B src ds dss dx dy ss sss sx sy w h :
  util_is_format_compatible (describe A) (describe B) = true ->
  block_ok describe A ->
  0 <= ss < 2 ^ 31 ->
  rect_row_bytes describe A w <= ds ->
  rect_rows describe A h * rect_row_bytes describe A w < 2 ^ 32 ->
  rect_rows describe A h * ds <= dss ->
  forall n z dst L src_layer,
  exists d,
    translate_layers describe pack_description unpack_description malloc n z
                     B dst L ds dss dx dy A src src_layer ss sss sx sy w h = Done true d /\
    (forall k i j,
       0 <= k < Z.of_nat n ->
       0 <= i < rect_rows describe A h ->
       0 <= j < rect_row_bytes describe A w ->
       d (L + k * dss + rect_origin describe A ds dx dy + i * ds + j)
       = src (src_layer + k * sss + rect_origin describe A ss sx sy + i * ss + j)) /\
    (forall a,
       (forall k i,
          0 <= k < Z.of_nat n ->
          0 <= i < rect_rows describe A h ->
          ~ (L + k * dss + rect_origin describe A ds dx dy + i * ds <= a
             < L + k * dss + rect_origin describe A ds dx dy + i * ds
               + rect_row_bytes describe A w)) ->
       d a = dst a).
Proof.
  intros HAB HokA Hss Hfit Hsize Hslice.
  destruct (compatible_same_rect describe describe_format plain_block A B HAB HokA)
    as (HokB & EW & EH & EO).
  set (W := rect_row_bytes describe A w) in *.
  set (R := rect_rows describe A h) in *.
  set (od := rect_origin describe A ds dx dy) in *.
  set (os := rect_origin describe A ss sx sy) in *.
  assert (HW : 0 <= W) by apply MachFacts.u32_range.
  assert (HR : 0 <= R) by (apply rect_rows_nonneg; assumption).
  induction n as [| n IH]; intros z dst L src_layer.
  { exists dst. split; [reflexivity |]. split; [intros; lia | reflexivity]. }
  cbn [translate_layers]. unfold util_format_translate. rewrite HAB.
  rewrite MachFacts.s32_small by lia.
  pose proof (util_copy_rect_eq describe (offset_view dst L) B ds dx dy w h
                                (offset_view src src_layer) ss sx sy HokB Hss) as E1.
  match type of E1 with _ = Some ?r => set (d1 := r) in * end.
  rewrite E1.
  assert (Hrows1 : forall i j, 0 <= i < R -> 0 <= j < W ->
                               d1 (od + i * ds + j) = src (src_layer + (os + i * ss + j))).
  { intros i j Hi Hj.
    pose proof (util_copy_rect_rows describe (offset_view dst L) B ds dx dy w h
                                    (offset_view src src_layer) ss sx sy d1 HokB Hss) as Hc.
    rewrite EW, EH, !EO in Hc. fold W R od os in Hc.
    now apply Hc. }
  assert (Hout1 : forall a,
             (forall i, 0 <= i < R -> ~ (od + i * ds <= a < od + i * ds + W)) ->
             d1 a = dst (L + a)).
  { intros a Ha.
    pose proof (util_copy_rect_outside describe (offset_view dst L) B ds dx dy w h
                                       (offset_view src src_layer) ss sx sy d1 a HokB E1) as Hc.
    rewrite EW, EH, !EO in Hc. fold W R od in Hc.
    now apply Hc. }
  destruct (IH (S z) (write_back L d1) (L + dss) (src_layer + sss)) as (d & Hd & Hrows & Hframe).
  exists d. split; [exact Hd |]. split.
  - intros k i j Hk Hi Hj.
    destruct (Z.eq_dec k 0) as [-> | Hk0].
    + rewrite Hframe.
      * unfold write_back.
        replace (L + 0 * dss + od + i * ds + j - L) with (od + i * ds + j) by lia.
        rewrite Hrows1 by assumption. f_equal. lia.
      * intros k' i' Hk' Hi'.
        assert (Hds : 0 <= ds) by lia.
        assert ((i + 1) * ds <= R * ds) by (apply Z.mul_le_mono_nonneg_r; lia).
        assert (0 <= R * ds) by (apply Z.mul_nonneg_nonneg; lia).
        assert (0 <= k' * dss) by (apply Z.mul_nonneg_nonneg; lia).
        assert (0 <= i' * ds) by (apply Z.mul_nonneg_nonneg; lia).
        lia.
    + replace (L + k * dss + od + i * ds + j)
        with (L + dss + (k - 1) * dss + od + i * ds + j) by lia.
      rewrite Hrows by lia. f_equal. lia.
  - intros a Ha.
    rewrite Hframe.
    + unfold write_back. rewrite Hout1.
      * f_equal. lia.
      * intros i Hi. specialize (Ha 0 i). lia.
    + intros k i Hk Hi. specialize (Ha (k + 1) i). lia.
Qed.

(** X7. Over formats [A] and [B] that are compatible, [util_format_translate_3d]
    from [A] to [B] returns TRUE; every slice of the destination region then
    holds the bytes of the matching source slice, and no byte outside the
    rows of those slices is written.  The views are valid: a source stride
    that fits an [int], destination rows that do not overlap, a slice stride
    that holds the rows of a slice, a byte count that fits an [unsigned]. *)
Theorem util_format_translate_3d_copies_slices
        A B (dst src : buffer) ds dss dx dy dz ss sss sx sy sz w h depth :
  util_is_format_compatible (describe A) (describe B) = true ->
  block_ok describe A ->
  0 <= ss < 2 ^ 31 ->
  rect_row_bytes describe A w <= ds ->
  rect_rows describe A h * rect_row_bytes describe A w < 2 ^ 32 ->
  rect_rows describe A h * ds <= dss ->
  exists d,
    util_format_translate_3d describe pack_description unpack_description malloc
                             B dst ds dss dx dy dz A src ss sss sx sy sz w h depth
    = Done true d /\
    (forall k i j,
       0 <= k < depth ->
       0 <= i < rect_rows describe A h ->
       0 <= j < rect_row_bytes describe A w ->
       d (Mach.u32 (dz * dss) + k * dss + rect_origin describe A ds dx dy + i * ds + j)
       = src (Mach.u32 (sz * sss) + k * sss + rect_origin describe A ss sx sy + i * ss + j)) /\
    (forall a,
       (forall k i,
          0 <= k < depth ->
          0 <= i < rect_rows describe A h ->
          ~ (Mach.u32 (dz * dss) + k * dss + rect_origin describe A ds dx dy + i * ds <= a
             < Mach.u32 (dz * dss) + k * dss + rect_origin describe A ds dx dy + i * ds
               + rect_row_bytes describe A w)) ->
       d a = dst a).
Proof.
  intros HAB HokA Hss Hfit Hsize Hslice.
  unfold util_format_translate_3d.
  destruct (translate_layers_copies A B src ds dss dx dy ss sss sx sy w h
              HAB HokA Hss Hfit Hsize Hslice
              (Z.to_nat depth) 0%nat dst (Mach.u32 (dz * dss)) (Mach.u32 (sz * sss)))
    as (d & Hd & Hrows & Hframe).
  exists d. split; [exact Hd |]. split.
  - intros k i j Hk Hi Hj. apply Hrows; lia.
  - intros a Ha. apply Hframe. intros k i Hk Hi. apply Ha; lia.
Qed.

End Translate3dFacts.

(** X7 on two slices of one pixel, written from destination slice 1 on. *)
Lemma util_format_translate_3d_copies_slices_witness :
  exists d,
    util_format_translate_3d example_describe (fun _ => pack_none) (fun _ => unpack_none)
                             (fun _ => malloc_ok)
                             PIPE_FORMAT_R8G8B8A8_UINT zero_buffer 8 16 0 0 1
                             PIPE_FORMAT_R8G8B8A8_USCALED ramp_buffer 4 4 0 0 0 1 1 2
    = Done true d /\
    d 32 = ramp_buffer 4 /\ d 8 = x00.
Proof.
  destruct (util_format_translate_3d_copies_slices
              example_describe (fun _ => pack_none) (fun _ => unpack_none)
              (fun _ => malloc_ok) example_describe_format example_plain_block
              PIPE_FORMAT_R8G8B8A8_USCALED PIPE_FORMAT_R8G8B8A8_UINT
              zero_buffer ramp_buffer 8 16 0 0 1 4 4 0 0 0 1 1 2)
    as (d & Hd & Hrows & Hframe).
  - reflexivity.
  - unfold block_ok; cbn; lia.
  - lia.
  - vm_compute. discriminate.
  - reflexivity.
  - vm_compute. discriminate.
  - exists d. split; [exact Hd |].
    assert (Erows : rect_rows example_describe PIPE_FORMAT_R8G8B8A8_USCALED 1 = 1)
      by reflexivity.
    assert (Ebytes : rect_row_bytes example_describe PIPE_FORMAT_R8G8B8A8_USCALED 1 = 4)
      by reflexivity.
    assert (Eod : rect_origin example_describe PIPE_FORMAT_R8G8B8A8_USCALED 8 0 0 = 0)
      by reflexivity.
    assert (Eos : rect_origin example_describe PIPE_FORMAT_R8G8B8A8_USCALED 4 0 0 = 0)
      by reflexivity.
    rewrite Erows, Ebytes, Eod, Eos in Hrows. rewrite Erows, Ebytes, Eod in Hframe.
    change (Mach.u32 (1 * 16)) with 16 in Hrows, Hframe.
    change (Mach.u32 (0 * 4)) with 0 in Hrows.
    split.
    + apply (Hrows 1 0 0); lia.
    + apply (Hframe 8). intros k i Hk Hi. lia.
Defined.

(** *** Copying with a negative source stride *)

Section RectFlip.

Variable describe : pipe_format -> util_format_description.

(** X2. [util_copy_rect] with a negative source stride flips the rectangle
    vertically: the first row of the destination rectangle is the row of the
    source at [src_y], counted with the stride's magnitude, and each
    following row is the source row one stride before it.  The row fits
    the destination stride and is shorter than 2^31 bytes. *)
Theorem util_copy_rect_vertical_flip dst format ds dx dy w h src ss sx sy r :
  block_ok describe format ->
  - 2 ^ 31 < ss < 0 ->
  rect_row_bytes describe format w <= ds ->
  rect_row_bytes describe format w < 2 ^ 31 ->
  util_copy_rect describe dst format ds dx dy w h src ss sx sy = Some r ->
  forall i j,
    0 <= i < rect_rows describe format h ->
    0 <= j < rect_row_bytes describe format w ->
    r (rect_origin describe format ds dx dy + i * ds + j)
    = src (rect_origin describe format (- ss) sx sy - i * (- ss) + j).
Proof.
  intros Hok Hss Hfit Hsmall Hr i j Hi Hj.
  pose proof Hok as (Hw & Hh & Hb).
  pose proof (blocksize_range describe format Hb) as Hbs.
  revert Hr. unfold util_copy_rect.
  set (W := rect_row_bytes describe format w) in *.
  set (R := rect_rows describe format h) in *.
  set (od := rect_origin describe format ds dx dy) in *.
  set (os := rect_origin describe format (- ss) sx sy) in *.
  unfold rect_row_bytes, rect_rows, rect_origin in W, R, od, os.
  unfold util_format_get_blockwidth, util_format_get_blockheight in *.
  fold (block_width (describe format)) in *. fold (block_height (describe format)) in *.
  rewrite !MachFacts.s32_small by lia.
  replace (ss <? 0) with true by (symmetry; apply Z.ltb_lt; lia).
  replace (0 <? util_format_get_blocksize describe format) with true
    by (symmetry; apply Z.ltb_lt; lia).
  replace (0 <? block_width (describe format)) with true
    by (symmetry; apply Z.ltb_lt; lia).
  replace (0 <? block_height (describe format)) with true
    by (symmetry; apply Z.ltb_lt; lia).
  cbn [andb negb]. fold W R od os.
  assert (Hu : Mach.u32 ss = 2 ^ 32 + ss).
  { unfold Mach.u32, Mach.wrap.
    replace ss with (2 ^ 32 + ss + (-1) * 2 ^ 32) at 1 by lia.
    rewrite Z.mod_add by lia. apply Z.mod_small. lia. }
  replace (W =? Mach.u32 ss) with false by (symmetry; apply Z.eqb_neq; lia).
  rewrite andb_false_r. intros Hr. injection Hr as <-.
  pose (f := fun a => src (os + ((a - od) / ds) * ss + (a - od) mod ds)).
  assert (Hf : forall i' j', 0 <= j' < W ->
               f (od + i' * ds + j') = src (os + i' * ss + j')).
  { intros i' j' Hj'. unfold f.
    replace (od + i' * ds + j' - od) with (j' + i' * ds) by lia.
    rewrite Z.div_add by lia. rewrite Z.mod_add by lia.
    rewrite Z.div_small, Z.mod_small by lia. f_equal; lia. }
  replace (os - i * - ss + j) with (os + i * ss + j) by lia.
  rewrite <- (Hf i j Hj).
  apply copy_rows_covered.
  - intros i' j' Hi' Hj'. symmetry. now apply Hf.
  - left. exists i, j. repeat split; lia.
Qed.

End RectFlip.

(** X2 on two rows of one pixel read upwards from source row 3. *)
Lemma util_copy_rect_vertical_flip_witness :
  exists r,
    util_copy_rect example_describe zero_buffer PIPE_FORMAT_R8G8B8A8_UINT 4 0 0 1 2
                   ramp_buffer (-4) 0 3 = Some r /\
    r 0 = x0c /\ r 4 = x08.
Proof.
  eexists. split; [reflexivity |].
  assert (Hok : block_ok example_describe PIPE_FORMAT_R8G8B8A8_UINT)
    by (unfold block_ok; cbn; lia).
  pose proof (util_copy_rect_vertical_flip
                example_describe zero_buffer PIPE_FORMAT_R8G8B8A8_UINT
                4 0 0 1 2 ramp_buffer (-4) 0 3 _ Hok ltac:(lia)
                ltac:(vm_compute; discriminate) ltac:(reflexivity) eq_refl) as Hflip.
  split.
  - apply (Hflip 0 0); [vm_compute | vm_compute]; split; congruence.
  - apply (Hflip 1 0); [vm_compute | vm_compute]; split; congruence.
Defined.

End FormatFacts.

(** ** compiler/nir/nir_linking_helpers.c *)
Module LinkingFacts.
Import Linking.

Lemma mode_eqb_eq a b : mode_eqb a b = true <-> a = b.
Proof. destruct a, b; simpl; split; intros H; try reflexivity; discriminate. Qed.

Lemma stage_eqb_eq a b : stage_eqb a b = true <-> a = b.
Proof. destruct a, b; simpl; split; intros H; try reflexivity; discriminate. Qed.

(** Bitwise inclusion of masks. *)
Lemma land_lor_absorb x m : Z.land x (Z.lor x m) = x.
Proof.
  apply Z.bits_inj'. intros n Hn. rewrite Z.land_spec, Z.lor_spec.
  destruct (Z.testbit x n), (Z.testbit m n); reflexivity.
Qed.

Lemma land_lor_same x m : Z.land (Z.lor x m) m = m.
Proof.
  apply Z.bits_inj'. intros n Hn. rewrite Z.land_spec, Z.lor_spec.
  destruct (Z.testbit x n), (Z.testbit m n); reflexivity.
Qed.

Lemma land_included a a' m : Z.land a m = m -> Z.land a a' = a -> Z.land a' m = m.
Proof.
  intros Hm Ha. rewrite <- Hm at 1. rewrite Z.land_assoc, (Z.land_comm a' a), Ha. exact Hm.
Qed.

Lemma masks_sub_refl a : masks_sub a a.
Proof. split; [reflexivity | intros k; apply Z.land_diag]. Qed.

Lemma masks_sub_trans a b c : masks_sub a b -> masks_sub b c -> masks_sub a c.
Proof.
  intros [L1 H1] [L2 H2]. split; [congruence |]. intros k.
  rewrite <- (H1 k) at 1. rewrite <- Z.land_assoc, H2. apply H1.
Qed.

Lemma or_nth_length a n m : length (or_nth a n m) = length a.
Proof.
  revert n. induction a as [| x t IH]; intros [| n]; simpl; try reflexivity.
  now rewrite IH.
Qed.

Lemma or_nth_sub a n m : masks_sub a (or_nth a n m).
Proof.
  split; [symmetry; apply or_nth_length |].
  revert n. induction a as [| x t IH]; intros n k.
  - destruct n, k; reflexivity.
  - destruct n as [| n], k as [| k]; simpl.
    + apply land_lor_absorb.
    + apply Z.land_diag.
    + apply Z.land_diag.
    + apply IH.
Qed.

Lemma or_nth_same a n m :
  (n < length a)%nat -> Z.land (nth n (or_nth a n m) 0) m = m.
Proof.
  revert n. induction a as [| x t IH]; intros n Hn; simpl in Hn; [lia |].
  destruct n as [| n]; simpl.
  - apply land_lor_same.
  - apply IH. lia.
Qed.

(** A fold whose steps only grow the state reaches every property that one
    of its steps establishes and that growth preserves. *)
Lemma fold_left_grows {A B : Type} (f : A -> B -> A) (R : A -> A -> Prop) :
  (forall a, R a a) -> (forall a b c, R a b -> R b c -> R a c) ->
  (forall a b, R a (f a b)) ->
  forall l a, R a (fold_left f l a).
Proof.
  intros Hrefl Htrans Hstep l. induction l as [| x l IH]; intros a; simpl.
  - apply Hrefl.
  - eapply Htrans; [apply Hstep | apply IH].
Qed.

Lemma fold_left_reaches {A B : Type} (f : A -> B -> A) (R : A -> A -> Prop) (P : A -> Prop) :
  (forall a, R a a) -> (forall a b c, R a b -> R b c -> R a c) ->
  (forall a b, R a (f a b)) ->
  (forall a a', R a a' -> P a -> P a') ->
  forall l x, In x l -> (forall a, P (f a x)) ->
  forall a, P (fold_left f l a).
Proof.
  intros Hrefl Htrans Hstep Hup l. induction l as [| y l IH]; intros x Hin Hx a; simpl.
  - destruct Hin.
  - destruct Hin as [-> | Hin].
    + apply (Hup (f a x)); [| apply Hx].
      apply fold_left_grows; assumption.
    + apply (IH x Hin Hx).
Qed.

Lemma masks2_sub_refl m : masks2_sub m m.
Proof. split; apply masks_sub_refl. Qed.

Lemma masks2_sub_trans a b c : masks2_sub a b -> masks2_sub b c -> masks2_sub a c.
Proof. intros [H1 H2] [H3 H4]. split; eapply masks_sub_trans; eassumption. Qed.

Lemma some_inj {A : Type} (a b : A) : Some a = Some b -> a = b.
Proof. intros H. injection H as ->. reflexivity. Qed.

Lemma map_option_nth {A B : Type} (f : A -> option B) l l' i x :
  map_option f l = Some l' -> nth_error l i = Some x ->
  exists y, f x = Some y /\ nth_error l' i = Some y.
Proof.
  revert l' i. induction l as [| a t IH]; intros l' i Hm Hi.
  - destruct i; discriminate.
  - simpl in Hm. destruct (f a) as [y |] eqn:Ea; [| discriminate].
    destruct (map_option f t) as [t' |] eqn:Et; [| discriminate].
    injection Hm as <-. destruct i as [| i]; simpl in *.
    + injection Hi as <-. eauto.
    + eapply IH; eauto.
Qed.

Lemma map_option_total {A B : Type} (f : A -> option B) l :
  (forall x, In x l -> exists y, f x = Some y) -> exists l', map_option f l = Some l'.
Proof.
  induction l as [| a t IH]; intros H; simpl.
  - eauto.
  - destruct (H a (or_introl eq_refl)) as [y ->].
    destruct IH as [t' ->]; [intros x Hx; apply H; now right |]. eauto.
Qed.

(** A fold that adds at most one per element. *)
Lemma count_fold_bounds {A : Type} (p : A -> bool) l acc :
  acc <= fold_left (fun acc i => if p i then acc + 1 else acc) l acc
      <= acc + Z.of_nat (length l).
Proof.
  revert acc. induction l as [| x t IH]; intros acc; simpl length; cbn [fold_left].
  - lia.
  - destruct (p x); [specialize (IH (acc + 1)) | specialize (IH acc)]; lia.
Qed.

(** "Not after" is transitive for the lexicographic order. *)
Lemma key_le_trans k1 k2 k3 : ~ key_lt k2 k1 -> ~ key_lt k3 k2 -> ~ key_lt k3 k1.
Proof.
  destruct k1 as [[[[a1 b1] c1] d1] e1], k2 as [[[[a2 b2] c2] d2] e2],
           k3 as [[[[a3 b3] c3] d3] e3].
  unfold key_lt. lia.
Qed.

Ltac key_cases :=
  repeat match goal with
         | H : (_, _) = (_, _) |- _ => injection H as ?; subst
         | |- (_, _) = (_, _) => f_equal
         end.

Lemma util_bitcount64_range n : 0 <= util_bitcount64 n <= 64.
Proof.
  unfold util_bitcount64.
  pose proof (count_fold_bounds (fun i => Z.testbit n (Z.of_nat i)) (seq 0 64) 0) as H.
  rewrite length_seq in H. exact H.
Qed.

Lemma u_bit_consecutive64_below loc :
  0 <= loc < 64 -> u_bit_consecutive64 0 loc = Some (Z.ones loc).
Proof.
  intros H. unfold u_bit_consecutive64, shl64.
  replace (64 <? 0 + loc) with false by (symmetry; apply Z.ltb_ge; lia).
  replace (loc =? 64) with false by (symmetry; apply Z.eqb_neq; lia).
  replace (loc <? 64) with true by (symmetry; apply Z.ltb_lt; lia).
  cbn [Z.ltb Z.compare]. rewrite Z.shiftl_1_l, Z.shiftl_0_r.
  assert (0 < 2 ^ loc < 2 ^ 64).
  { split; [apply Z.pow_pos_nonneg; lia | apply Z.pow_lt_mono_r; lia]. }
  rewrite (MachFacts.u64_small (2 ^ loc)) by lia.
  rewrite (MachFacts.u64_small (2 ^ loc - 1)) by lia.
  rewrite (MachFacts.u64_small (2 ^ loc - 1)) by lia.
  rewrite Z.ones_equiv. f_equal; lia.
Qed.

(** *** The order [cmp_varying_component] sorts by *)

(** The sign of the comparison is the lexicographic comparison of the keys. *)
Lemma cmp_varying_component_sign {T : Type} (a b : varying_component T) :
  slot_assigned a -> slot_assigned b ->
  (cmp_varying_component a b < 0 <-> key_lt (sort_key a) (sort_key b)) /\
  (cmp_varying_component a b = 0 <-> sort_key a = sort_key b) /\
  (0 < cmp_varying_component a b <-> key_lt (sort_key b) (sort_key a)).
Proof.
  unfold slot_assigned, cmp_varying_component, sort_key, key_lt, bool_rank.
  intros Ha Hb.
  destruct (is_patch a), (is_patch b), (is_intra_stage_only a), (is_intra_stage_only b);
    cbn [Bool.eqb negb];
    try (repeat split; intros; key_cases; try lia; fail);
    (destruct (interp_type a =? interp_type b) eqn:Et; cbn [negb];
     [apply Z.eqb_eq in Et | apply Z.eqb_neq in Et;
                              repeat split; intros; key_cases; lia];
     destruct (interp_loc a =? interp_loc b) eqn:El; cbn [negb];
     [apply Z.eqb_eq in El | apply Z.eqb_neq in El;
                              repeat split; intros; key_cases; lia];
     rewrite MachFacts.s32_small by lia;
     repeat split; intros; key_cases; lia).
Qed.

(** C7 (amended). On records with assigned slots, the sign of
    [cmp_varying_component] is that of the lexicographic comparison of the
    keys (patch, intra-stage-only, interpolation mode, interpolation
    location, slot): it is antisymmetric and transitive, it puts a non-patch
    record before a patch record and, within one patch-ness, a record that is
    not intra-stage-only before one that is, and it returns 0 exactly on
    records of equal keys. *)
Theorem cmp_varying_component_order {T : Type} (a b c : varying_component T) :
  slot_assigned a -> slot_assigned b -> slot_assigned c ->
  (cmp_varying_component a b < 0 <-> key_lt (sort_key a) (sort_key b)) /\
  (cmp_varying_component a b = 0 <-> sort_key a = sort_key b) /\
  cmp_varying_component b a = - cmp_varying_component a b /\
  (cmp_varying_component a b <= 0 -> cmp_varying_component b c <= 0 ->
   cmp_varying_component a c <= 0) /\
  (is_patch a = false -> is_patch b = true -> cmp_varying_component a b < 0) /\
  (is_patch a = is_patch b ->
   is_intra_stage_only a = false -> is_intra_stage_only b = true ->
   cmp_varying_component a b < 0).
Proof.
  intros Ha Hb Hc.
  destruct (cmp_varying_component_sign a b Ha Hb) as (Hlt & Heq & Hgt).
  split; [exact Hlt |]. split; [exact Heq |]. split; [| split; [| split]].
  - unfold slot_assigned, cmp_varying_component in *.
    destruct (is_patch a), (is_patch b), (is_intra_stage_only a), (is_intra_stage_only b);
      cbn [Bool.eqb negb]; try reflexivity;
      rewrite (Z.eqb_sym (interp_type b)), (Z.eqb_sym (interp_loc b));
      (destruct (interp_type a =? interp_type b); cbn [negb]; [| lia];
       destruct (interp_loc a =? interp_loc b); cbn [negb]; [| lia];
       rewrite !MachFacts.s32_small by lia; lia).
  - intros Hab Hbc.
    destruct (cmp_varying_component_sign b c Hb Hc) as (Hlt' & Heq' & Hgt').
    destruct (cmp_varying_component_sign a c Ha Hc) as (Hlt'' & Heq'' & Hgt'').
    destruct (Z_lt_le_dec 0 (cmp_varying_component a c)) as [Hpos | Hle]; [| exact Hle].
    exfalso. apply Hgt'' in Hpos.
    assert (Hnab : ~ key_lt (sort_key b) (sort_key a)) by (intros K; apply Hgt in K; lia).
    assert (Hnbc : ~ key_lt (sort_key c) (sort_key b)) by (intros K; apply Hgt' in K; lia).
    exact (key_le_trans _ _ _ Hnab Hnbc Hpos).
  - intros Pa Pb. apply Hlt. unfold key_lt, sort_key. rewrite Pa, Pb. left. reflexivity.
  - intros Pab Ia Ib. apply Hlt. unfold key_lt, sort_key. rewrite Pab, Ia, Ib.
    right. split; [reflexivity |]. left. reflexivity.
Qed.

Section NirFacts.

Variable X : nir_externals.

Lemma covers_grows var stage m m' :
  masks2_sub m m' -> covers X var stage m -> covers X var stage m'.
Proof.
  unfold covers. intros [[_ H1] [_ H2]] Hc.
  destruct (patch (data var)); eapply land_included; eauto.
Qed.

Lemma mark_components_step_grows var stage (m : list Z * list Z) (i : nat) :
  masks2_sub m
    (let idx := Z.to_nat (location_frac (data var) + Z.of_nat i) in
     if patch (data var)
     then (fst m, or_nth (snd m) idx (get_variable_io_mask X var stage))
     else (or_nth (fst m) idx (get_variable_io_mask X var stage), snd m)).
Proof.
  cbv zeta. destruct (patch (data var)); split; simpl;
    try apply masks_sub_refl; apply or_nth_sub.
Qed.

Lemma mark_components_grows var stage m : masks2_sub m (mark_components X var stage m).
Proof.
  unfold mark_components.
  apply (fold_left_grows _ masks2_sub masks2_sub_refl masks2_sub_trans).
  intros a b. apply mark_components_step_grows.
Qed.

(** Marking a variable of at least one component records its mask at its
    own component offset. *)
Lemma mark_components_covers var stage m :
  0 < get_num_components X var ->
  0 <= location_frac (data var) < 4 ->
  length (fst m) = 4%nat -> length (snd m) = 4%nat ->
  covers X var stage (mark_components X var stage m).
Proof.
  intros Hn Hfrac L1 L2. unfold mark_components.
  destruct (Z.to_nat (get_num_components X var)) as [| n] eqn:En; [lia |].
  cbn [seq fold_left].
  match goal with |- covers X _ _ (fold_left ?f ?l ?a) =>
    apply (covers_grows var stage a);
      [apply (fold_left_grows f masks2_sub masks2_sub_refl masks2_sub_trans);
       intros; apply mark_components_step_grows |]
  end.
  unfold covers. rewrite Z.add_0_r.
  destruct (patch (data var)); cbn [fst snd]; apply or_nth_same; lia.
Qed.

Lemma tcs_add_output_reads_instr_grows shader m instr :
  masks2_sub m (tcs_add_output_reads_instr X shader m instr).
Proof.
  unfold tcs_add_output_reads_instr.
  destruct instr as [[| |] deref |]; try apply masks2_sub_refl.
  destruct (deref_mode deref); try apply masks2_sub_refl.
  destruct (nth_error _ _); [apply mark_components_grows | apply masks2_sub_refl].
Qed.

Lemma masks2_sub_length m m' :
  masks2_sub m m' -> length (fst m') = length (fst m) /\ length (snd m') = length (snd m).
Proof. intros [[L1 _] [L2 _]]. auto. Qed.

(** [tcs_add_output_reads] ORs the mask of every output the shader loads
    into the array of its patch-ness, at its component offset. *)
Lemma tcs_add_output_reads_covers shader v var m :
  nth_error (variables shader) v = Some var ->
  loads_output shader v ->
  0 < get_num_components X var ->
  0 <= location_frac (data var) < 4 ->
  length (fst m) = 4%nat -> length (snd m) = 4%nat ->
  covers X var (info_stage shader) (tcs_add_output_reads X shader m).
Proof.
  intros Hv (function & blocks & block & Hf & Himpl & Hb & Hi) Hn Hfrac L1 L2.
  unfold tcs_add_output_reads.
  set (instr_step := tcs_add_output_reads_instr X shader).
  set (block_step := fun m block => fold_left instr_step block m).
  set (function_step := fun (m : list Z * list Z) (function : nir_function) =>
                          match impl function with
                          | None => m
                          | Some blocks => fold_left block_step blocks m
                          end).
  assert (Hinstr : forall a b, masks2_sub a (instr_step a b))
    by (intros; apply tcs_add_output_reads_instr_grows).
  assert (Hblock : forall a b, masks2_sub a (block_step a b)).
  { intros a b. unfold block_step.
    apply (fold_left_grows _ masks2_sub masks2_sub_refl masks2_sub_trans Hinstr). }
  assert (Hfun : forall a b, masks2_sub a (function_step a b)).
  { intros a b. unfold function_step. destruct (impl b); [| apply masks2_sub_refl].
    apply (fold_left_grows _ masks2_sub masks2_sub_refl masks2_sub_trans Hblock). }
  (* while both arrays keep their four entries, the state covers X [var] *)
  set (P := fun m : list Z * list Z =>
              length (fst m) = 4%nat -> length (snd m) = 4%nat ->
              covers X var (info_stage shader) m).
  assert (Hup : forall a a', masks2_sub a a' -> P a -> P a').
  { intros a a' Hs Pa Q1 Q2. destruct (masks2_sub_length _ _ Hs) as [E1 E2].
    apply (covers_grows _ _ a a' Hs). apply Pa; lia. }
  assert (Pinstr : forall a, P (block_step a block)).
  { unfold block_step.
    apply (fold_left_reaches instr_step masks2_sub P masks2_sub_refl masks2_sub_trans
                             Hinstr Hup block _ Hi).
    intros a Q1 Q2.
    destruct (masks2_sub_length _ _ (Hinstr a (nir_instr_type_intrinsic
                nir_intrinsic_load_deref
                {| deref_mode := nir_var_shader_out; deref_var := v |}))) as [E1 E2].
    unfold instr_step, tcs_add_output_reads_instr in *. cbn [deref_mode deref_var] in *.
    rewrite Hv in *. apply mark_components_covers; try assumption; lia. }
  assert (Pblock : forall a, P (function_step a function)).
  { unfold function_step. rewrite Himpl.
    apply (fold_left_reaches block_step masks2_sub P masks2_sub_refl masks2_sub_trans
                             Hblock Hup blocks block Hb Pinstr). }
  pose proof (fold_left_grows function_step masks2_sub masks2_sub_refl masks2_sub_trans
                              Hfun (functions shader) m) as Hall.
  destruct (masks2_sub_length _ _ Hall) as [E1 E2].
  apply (fold_left_reaches function_step masks2_sub P masks2_sub_refl masks2_sub_trans
                           Hfun Hup (functions shader) function Hf Pblock m); lia.
Qed.

Lemma gather_io_masks_length shader mode_ :
  length (fst (gather_io_masks X shader mode_)) = 4%nat /\
  length (snd (gather_io_masks X shader mode_)) = 4%nat.
Proof.
  unfold gather_io_masks.
  match goal with |- context [fold_left ?f ?l ?a] =>
    assert (H : masks2_sub a (fold_left f l a))
  end.
  { apply (fold_left_grows _ masks2_sub masks2_sub_refl masks2_sub_trans).
    intros a b. destruct (mode_eqb _ _); [apply mark_components_grows | apply masks2_sub_refl]. }
  apply masks2_sub_length in H. exact H.
Qed.

(** What [nir_remove_unused_io_vars] does to the variable at position [i]. *)
Lemma nir_remove_unused_io_vars_nth shader mode_ used usedp i var :
  nth_error (variables shader) i = Some var ->
  nth_error (variables (snd (nir_remove_unused_io_vars X shader mode_ used usedp))) i
  = Some (if mode_eqb (mode (data var)) mode_
             && is_unused_io_var X (info_stage shader) used usedp var
          then demote var else var).
Proof.
  intros Hi. unfold nir_remove_unused_io_vars. cbn [snd].
  match goal with |- context [if ?p then nir_fixup_deref_modes X ?s else ?s] =>
    assert (E : variables (if p then nir_fixup_deref_modes X s else s) = variables s)
      by (destruct p; [apply (nir_fixup_deref_modes_variables X) | reflexivity]);
      rewrite E
  end.
  cbn [variables]. rewrite (map_nth_error _ _ _ Hi). reflexivity.
Qed.

Lemma nir_remove_unused_io_vars_progress shader mode_ used usedp i var :
  nth_error (variables shader) i = Some var ->
  mode_eqb (mode (data var)) mode_
  && is_unused_io_var X (info_stage shader) used usedp var = true ->
  fst (nir_remove_unused_io_vars X shader mode_ used usedp) = true.
Proof.
  intros Hi Hv. unfold nir_remove_unused_io_vars. cbn [fst].
  apply existsb_exists. exists var. split; [| exact Hv].
  eapply nth_error_In. exact Hi.
Qed.

(** C5 (amended). After [nir_remove_unused_io_vars] on a mode with given
    used masks, every variable of that mode that is not a built-in (generic
    slot or unassigned location), not always-active, not marked
    explicit-transform-feedback-buffer, and whose slot mask does not meet the
    used mask at its component offset has mode temporary and location 0; in
    particular such a variable, the transform-feedback mark excluded too, is
    demoted by a pass with all-zero used masks. *)
Theorem nir_remove_unused_io_vars_demotes shader mode_ used usedp i var :
  nth_error (variables shader) i = Some var ->
  mode (data var) = mode_ ->
  VARYING_SLOT_VAR0 X <= location (data var) \/ location (data var) < 0 ->
  always_active_io (data var) = false ->
  explicit_xfb_buffer (data var) = false ->
  (Z.land (nth (Z.to_nat (location_frac (data var)))
               (if patch (data var) then usedp else used) 0)
          (get_variable_io_mask X var (info_stage shader)) = 0 ->
   fst (nir_remove_unused_io_vars X shader mode_ used usedp) = true /\
   nth_error (variables (snd (nir_remove_unused_io_vars X shader mode_ used usedp))) i
   = Some (demote var)) /\
  (fst (nir_remove_unused_io_vars X shader mode_ [0; 0; 0; 0] [0; 0; 0; 0]) = true /\
   nth_error (variables (snd (nir_remove_unused_io_vars X shader mode_
                                                        [0; 0; 0; 0] [0; 0; 0; 0]))) i
   = Some (demote var)) /\
  mode (data (demote var)) = nir_var_shader_temp /\
  location (data (demote var)) = 0.
Proof.
  intros Hi Hmode Hloc Haa Hxfb.
  assert (Hvisit : forall u up,
             Z.land (nth (Z.to_nat (location_frac (data var)))
                         (if patch (data var) then up else u) 0)
                    (get_variable_io_mask X var (info_stage shader)) = 0 ->
             mode_eqb (mode (data var)) mode_
             && is_unused_io_var X (info_stage shader) u up var = true).
  { intros u up Hz. apply andb_true_iff. split; [now apply mode_eqb_eq |].
    unfold is_unused_io_var.
    replace ((location (data var) <? VARYING_SLOT_VAR0 X) && (0 <=? location (data var)))
      with false.
    - rewrite Haa, Hxfb. now apply Z.eqb_eq.
    - symmetry. apply andb_false_iff.
      destruct Hloc; [left; apply Z.ltb_ge | right; apply Z.leb_gt]; lia. }
  assert (Hdem : forall u up,
             Z.land (nth (Z.to_nat (location_frac (data var)))
                         (if patch (data var) then up else u) 0)
                    (get_variable_io_mask X var (info_stage shader)) = 0 ->
             fst (nir_remove_unused_io_vars X shader mode_ u up) = true /\
             nth_error (variables (snd (nir_remove_unused_io_vars X shader mode_ u up))) i
             = Some (demote var)).
  { intros u up Hz. split.
    - eapply nir_remove_unused_io_vars_progress; eauto.
    - rewrite (nir_remove_unused_io_vars_nth shader mode_ u up i var Hi).
      now rewrite Hvisit. }
  split; [apply Hdem |]. split; [| split; reflexivity].
  apply Hdem.
  assert (Hz : nth (Z.to_nat (location_frac (data var))) [0; 0; 0; 0] 0 = 0).
  { destruct (Z.to_nat (location_frac (data var))) as [| [| [| [| [| n]]]]]; reflexivity. }
  destruct (patch (data var)); rewrite Hz; apply Z.land_0_l.
Qed.

(** C6 (amended). With a tessellation-control producer,
    [tcs_add_output_reads] ORs the slot mask of every output the producer
    loads into the read array of its patch-ness at its component offset, and
    [nir_remove_unused_varyings] then leaves such an output as it was,
    whatever the consumer reads, provided its slot mask is not empty (its
    location is assigned) and it has a component. *)
Theorem nir_remove_unused_varyings_keeps_tcs_reads producer consumer v var :
  info_stage producer = MESA_SHADER_TESS_CTRL ->
  nth_error (variables producer) v = Some var ->
  loads_output producer v ->
  0 <= location_frac (data var) < 4 ->
  0 < get_num_components X var ->
  get_variable_io_mask X var MESA_SHADER_TESS_CTRL <> 0 ->
  (forall m, length (fst m) = 4%nat -> length (snd m) = 4%nat ->
             covers X var MESA_SHADER_TESS_CTRL (tcs_add_output_reads X producer m)) /\
  nth_error (variables (snd (fst (nir_remove_unused_varyings X producer consumer)))) v
  = Some var.
Proof.
  intros Hstage Hv Hload Hfrac Hn Hmask.
  assert (Hcov : forall m, length (fst m) = 4%nat -> length (snd m) = 4%nat ->
                           covers X var MESA_SHADER_TESS_CTRL (tcs_add_output_reads X producer m)).
  { intros m L1 L2. rewrite <- Hstage. now apply tcs_add_output_reads_covers with (v := v). }
  split; [exact Hcov |].
  unfold nir_remove_unused_varyings. rewrite Hstage. cbn [stage_eqb].
  set (read := tcs_add_output_reads X producer (gather_io_masks X consumer nir_var_shader_in)).
  destruct (nir_remove_unused_io_vars X producer nir_var_shader_out (fst read) (snd read))
    as [progress1 producer'] eqn:E1.
  destruct (nir_remove_unused_io_vars X consumer nir_var_shader_in _ _)
    as [progress2 consumer'] eqn:E2.
  cbn [fst snd].
  replace producer'
    with (snd (nir_remove_unused_io_vars X producer nir_var_shader_out (fst read) (snd read)))
    by (rewrite E1; reflexivity).
  rewrite (nir_remove_unused_io_vars_nth producer _ _ _ v var Hv).
  replace (is_unused_io_var X (info_stage producer) (fst read) (snd read) var) with false;
    [now rewrite andb_false_r |].
  symmetry. unfold is_unused_io_var.
  destruct (_ && _); [reflexivity |].
  destruct (always_active_io _); [reflexivity |].
  destruct (explicit_xfb_buffer _); [reflexivity |].
  apply Z.eqb_neq. rewrite Hstage.
  destruct (gather_io_masks_length consumer nir_var_shader_in) as [L1 L2].
  specialize (Hcov _ L1 L2). fold read in Hcov. unfold covers in Hcov.
  rewrite Hcov. exact Hmask.
Qed.

(** *** Agreement of the linked driver locations *)

Lemma linked_io_masks_total shader mode_ :
  (forall v, In v (variables shader) -> mode (data v) = mode_ ->
             linkable X (info_stage shader) v) ->
  exists m pm, linked_io_masks X shader mode_ = Some (m, pm).
Proof.
  unfold linked_io_masks. generalize (0, 0). generalize (info_stage shader) as stage.
  induction (variables shader) as [| v t IH]; intros stage [m pm] H; cbn [fold_left].
  - eauto.
  - destruct (mode_eqb (mode (data v)) mode_) eqn:E.
    + apply mode_eqb_eq in E.
      destruct (H v (or_introl eq_refl) E) as (mask & loc & -> & -> & Hloc).
      replace (64 <=? loc) with false by (symmetry; apply Z.leb_gt; lia).
      destruct (patch (data v)); apply IH; intros; apply H; auto; now right.
    + apply IH; intros; apply H; auto; now right.
Qed.

(** The driver location of a linkable X variable: four times the number of
    set bits of the mask of its patch-ness below its linked slot. *)
Lemma linked_driver_location_value stage io_mask patch_io_mask v :
  linkable X stage v ->
  exists loc,
    get_linked_variable_location X (Mach.u32 (location (data v))) (patch (data v)) = Some loc /\
    0 <= loc < 64 /\
    linked_driver_location X io_mask patch_io_mask v
    = Some (util_bitcount64 (Z.land (if patch (data v) then patch_io_mask else io_mask)
                                    (Z.ones loc)) * 4).
Proof.
  intros (mask & loc & _ & Hloc & Hr). exists loc. split; [exact Hloc |]. split; [exact Hr |].
  unfold linked_driver_location. rewrite Hloc.
  rewrite (MachFacts.u32_small loc) by lia. rewrite (u_bit_consecutive64_below loc Hr).
  f_equal. apply MachFacts.u32_small.
  pose proof (util_bitcount64_range
                (Z.land (if patch (data v) then patch_io_mask else io_mask) (Z.ones loc))).
  lia.
Qed.

Lemma assign_linked_locations_total shader mode_ io_mask patch_io_mask :
  (forall v, In v (variables shader) -> mode (data v) = mode_ ->
             linkable X (info_stage shader) v) ->
  exists shader', assign_linked_locations X shader mode_ io_mask patch_io_mask = Some shader'.
Proof.
  intros H. unfold assign_linked_locations.
  match goal with |- context [map_option ?f ?l] =>
    destruct (map_option_total f l) as [vars ->]; [| eauto]
  end.
  intros v Hv. destruct (mode_eqb (mode (data v)) mode_) eqn:E; [| eauto].
  apply mode_eqb_eq in E.
  destruct (linked_driver_location_value _ io_mask patch_io_mask v (H v Hv E))
    as (loc & _ & _ & ->).
  eauto.
Qed.

Lemma assign_linked_locations_nth shader mode_ io_mask patch_io_mask shader' i v :
  assign_linked_locations X shader mode_ io_mask patch_io_mask = Some shader' ->
  nth_error (variables shader) i = Some v ->
  mode (data v) = mode_ ->
  linkable X (info_stage shader) v ->
  exists loc,
    get_linked_variable_location X (Mach.u32 (location (data v))) (patch (data v)) = Some loc /\
    nth_error (variables shader') i
    = Some (set_driver_location v
              (util_bitcount64 (Z.land (if patch (data v) then patch_io_mask else io_mask)
                                       (Z.ones loc)) * 4)).
Proof.
  intros Ha Hi Hm Hl. unfold assign_linked_locations in Ha.
  destruct (map_option _ _) as [vars |] eqn:Em; [| discriminate].
  apply some_inj in Ha. subst shader'. cbn [variables].
  destruct (map_option_nth _ _ _ _ _ Em Hi) as (y & Hy & Hn).
  rewrite (proj2 (mode_eqb_eq _ _) Hm) in Hy.
  destruct (linked_driver_location_value _ io_mask patch_io_mask v Hl)
    as (loc & Hloc & _ & Hd).
  rewrite Hd in Hy. apply some_inj in Hy. subst y. exists loc. split; assumption.
Qed.

(** The mask of a variable holds its [linked_slot_count] lowest bits. *)
Lemma get_linked_variable_io_mask_ones stage v mask :
  (forall t, 0 <= glsl_count_attribute_slots X t false) ->
  get_linked_variable_io_mask X v stage = Some mask ->
  0 <= linked_slot_count X v stage <= 64 /\ mask = Z.ones (linked_slot_count X v stage).
Proof.
  intros Hslots. unfold get_linked_variable_io_mask, linked_slot_count.
  set (t := if nir_is_per_vertex_io X v stage
            then glsl_get_array_element X (type v) else type v).
  set (count := if compact (data v)
                then Mach.u32 (Mach.u32 (location_frac (data v) + glsl_get_length X t) + 4 - 1) / 4
                else glsl_count_attribute_slots X t false).
  assert (Hc : 0 <= count).
  { unfold count. destruct (compact (data v)); [| apply Hslots].
    apply Z.div_pos; [apply MachFacts.u32_range | lia]. }
  unfold u_bit_consecutive64. cbn [Z.add].
  destruct (64 <? count) eqn:E64; [discriminate |]. apply Z.ltb_ge in E64.
  destruct (count =? 64) eqn:Ec.
  { apply Z.eqb_eq in Ec. intros H. apply some_inj in H. subst mask. rewrite Ec.
    split; [lia | reflexivity]. }
  apply Z.eqb_neq in Ec. intros H. apply some_inj in H. subst mask.
  split; [lia |].
  assert (Hpow : 0 < 2 ^ count < 2 ^ 64).
  { split; [apply Z.pow_pos_nonneg; lia | apply Z.pow_lt_mono_r; lia]. }
  unfold shl64.
  replace (count <? 64) with true by (symmetry; apply Z.ltb_lt; lia).
  cbn [Z.ltb Z.compare]. rewrite Z.shiftl_0_r, Z.shiftl_1_l.
  rewrite (MachFacts.u64_small (2 ^ count)) by lia.
  rewrite !(MachFacts.u64_small (2 ^ count - 1)) by lia.
  rewrite Z.ones_equiv. lia.
Qed.

(** The bits of a run of [count] slots moved up to slot [loc]. *)
Lemma shl64_ones_testbit count loc b :
  0 <= count -> 0 <= loc < 64 ->
  Z.testbit (shl64 (Z.ones count) loc) b = true <-> loc <= b < loc + count /\ 0 <= b < 64.
Proof.
  intros Hc Hl. unfold shl64, Mach.u64, Mach.wrap.
  replace (loc <? 64) with true by (symmetry; apply Z.ltb_lt; lia).
  destruct (Z_lt_ge_dec b 0) as [Hneg | Hpos].
  { rewrite Z.testbit_neg_r by assumption. split; [discriminate | lia]. }
  destruct (Z_lt_ge_dec b 64) as [Hlow | Hhigh].
  - rewrite Z.mod_pow2_bits_low by assumption.
    rewrite Z.shiftl_spec by lia. rewrite Z.testbit_ones by assumption.
    rewrite andb_true_iff, Z.leb_le, Z.ltb_lt. lia.
  - rewrite Z.mod_pow2_bits_high by lia. split; [discriminate | lia].
Qed.

(** The masks one of the first two loops returns hold the slots occupied by
    the variables it visits, besides what they held before. *)
Lemma linked_io_masks_bits stage mode_ vars :
  (forall t, 0 <= glsl_count_attribute_slots X t false) ->
  forall m0 pm0 m pm,
    fold_left
      (fun acc variable =>
         match acc with
         | None => None
         | Some (m, pm) =>
             if mode_eqb (mode (data variable)) mode_ then
               match get_linked_variable_io_mask X variable stage,
                     get_linked_variable_location X (Mach.u32 (location (data variable)))
                                                  (patch (data variable)) with
               | Some mask, Some loc =>
                   if 64 <=? loc then None
                   else if patch (data variable)
                        then Some (m, Z.lor pm (shl64 mask loc))
                        else Some (Z.lor m (shl64 mask loc), pm)
               | _, _ => None
               end
             else acc
         end) vars (Some (m0, pm0)) = Some (m, pm) ->
    forall (p : bool) (b : Z),
      Z.testbit (if p then pm else m) b = true <->
      Z.testbit (if p then pm0 else m0) b = true \/
      exists v, In v vars /\ mode (data v) = mode_ /\ patch (data v) = p /\
                occupies_linked_slot X v stage b.
Proof.
  intros Hslots. induction vars as [| x vars IH]; intros m0 pm0 m pm H p b;
    cbn [fold_left] in H.
  - apply some_inj in H. apply pair_equal_spec in H. destruct H as [-> ->].
    split; [auto |]. intros [H | (v & [] & _)]. exact H.
  - destruct (mode_eqb (mode (data x)) mode_) eqn:Em.
    + apply mode_eqb_eq in Em.
      destruct (get_linked_variable_io_mask X x stage) as [mask |] eqn:Emask.
      2:{ exfalso. revert H. clear. induction vars as [| y vars IHv]; cbn [fold_left];
            [discriminate | exact IHv]. }
      destruct (get_linked_variable_location X _ _) as [loc |] eqn:Eloc.
      2:{ exfalso. revert H. clear. induction vars as [| y vars IHv]; cbn [fold_left];
            [discriminate | exact IHv]. }
      destruct (64 <=? loc) eqn:E64.
      { exfalso. revert H. clear. induction vars as [| y vars IHv]; cbn [fold_left];
          [discriminate | exact IHv]. }
      apply Z.leb_gt in E64.
      assert (Hnn : 0 <= loc).
      { revert Eloc. unfold get_linked_variable_location.
        destruct (negb _); [intros E; apply some_inj in E; subst loc;
                            apply MachFacts.u32_range |].
        destruct (_ <=? _); [intros E; apply some_inj in E; subst loc;
                             apply MachFacts.u32_range |].
        destruct (_ && _); [intros E; apply some_inj in E; subst loc;
                            apply MachFacts.u32_range | discriminate]. }
      destruct (get_linked_variable_io_mask_ones _ _ _ Hslots Emask) as [Hcount ->].
      assert (Hocc : Z.testbit (shl64 (Z.ones (linked_slot_count X x stage)) loc) b = true
                     <-> occupies_linked_slot X x stage b).
      { rewrite shl64_ones_testbit by lia. unfold occupies_linked_slot. rewrite Eloc.
        split.
        - intros Hb. exists loc. split; [reflexivity | exact Hb].
        - intros (loc' & E & Hb). apply some_inj in E. subst loc'. exact Hb. }
      destruct (patch (data x)) eqn:Ep.
      * rewrite (IH _ _ _ _ H p b). destruct p.
        -- rewrite Z.lor_spec, orb_true_iff, Hocc. split.
           ++ intros [[Hb | Hb] | (v & Hv & Hr)]; [auto | | ].
              ** right. exists x. split; [now left |]. repeat split; assumption.
              ** right. exists v. split; [now right | exact Hr].
           ++ intros [Hb | (v & [<- | Hv] & Hm & Hp & Ho)]; [auto | auto |].
              right. exists v. auto.
        -- split.
           ++ intros [Hb | (v & Hv & Hr)]; [auto |].
              right. exists v. split; [now right | exact Hr].
           ++ intros [Hb | (v & [<- | Hv] & Hm & Hp & Ho)]; [auto | congruence |].
              right. exists v. auto.
      * rewrite (IH _ _ _ _ H p b). destruct p.
        -- split.
           ++ intros [Hb | (v & Hv & Hr)]; [auto |].
              right. exists v. split; [now right | exact Hr].
           ++ intros [Hb | (v & [<- | Hv] & Hm & Hp & Ho)]; [auto | congruence |].
              right. exists v. auto.
        -- rewrite Z.lor_spec, orb_true_iff, Hocc. split.
           ++ intros [[Hb | Hb] | (v & Hv & Hr)]; [auto | | ].
              ** right. exists x. split; [now left |]. repeat split; assumption.
              ** right. exists v. split; [now right | exact Hr].
           ++ intros [Hb | (v & [<- | Hv] & Hm & Hp & Ho)]; [auto | auto |].
              right. exists v. auto.
    + rewrite (IH _ _ _ _ H p b). split.
      * intros [Hb | (v & Hv & Hr)]; [auto |].
        right. exists v. split; [now right | exact Hr].
      * intros [Hb | (v & [<- | Hv] & Hm & Hp & Ho)]; [auto | |].
        -- rewrite Hm in Em. rewrite (proj2 (mode_eqb_eq _ _) eq_refl) in Em. discriminate.
        -- right. exists v. auto.
Qed.

(** C8. When the outputs of the producer and the inputs of the consumer have
    linked slots, [nir_assign_linked_io_var_locations] returns.  The mask it
    builds for each patch-ness holds exactly the linked slots occupied by a
    producer output or a consumer input of that patch-ness, and the counts
    it reports are the numbers of set bits of the two masks.  Every producer
    output and every consumer input gets the driver location 4 times the
    number of set bits of the mask of its patch-ness below its linked slot;
    so a producer output and a consumer input of the same patch-ness and the
    same linked slot get equal driver locations.  The slot count of a type
    is an [unsigned]. *)
Theorem nir_assign_linked_io_var_locations_agree (producer consumer : nir_shader (glsl_type X)) :
  (forall t, 0 <= glsl_count_attribute_slots X t false) ->
  (forall v, In v (variables producer) -> mode (data v) = nir_var_shader_out ->
             linkable X (info_stage producer) v) ->
  (forall v, In v (variables consumer) -> mode (data v) = nir_var_shader_in ->
             linkable X (info_stage consumer) v) ->
  exists info producer' consumer' po ppo ci cpi,
    nir_assign_linked_io_var_locations X producer consumer
    = Some (info, producer', consumer') /\
    linked_io_masks X producer nir_var_shader_out = Some (po, ppo) /\
    linked_io_masks X consumer nir_var_shader_in = Some (ci, cpi) /\
    (forall (p : bool) (b : Z),
        Z.testbit (if p then Z.lor ppo cpi else Z.lor po ci) b = true <->
        linked_slot_used X producer nir_var_shader_out p b \/
        linked_slot_used X consumer nir_var_shader_in p b) /\
    num_linked_io_vars info = util_bitcount64 (Z.lor po ci) /\
    num_linked_patch_io_vars info = util_bitcount64 (Z.lor ppo cpi) /\
    (forall i v,
        nth_error (variables producer) i = Some v ->
        mode (data v) = nir_var_shader_out ->
        exists loc,
          get_linked_variable_location X (Mach.u32 (location (data v))) (patch (data v))
          = Some loc /\
          nth_error (variables producer') i
          = Some (set_driver_location v
                    (util_bitcount64
                       (Z.land (if patch (data v) then Z.lor ppo cpi else Z.lor po ci)
                               (Z.ones loc)) * 4))) /\
    (forall j w,
        nth_error (variables consumer) j = Some w ->
        mode (data w) = nir_var_shader_in ->
        exists loc,
          get_linked_variable_location X (Mach.u32 (location (data w))) (patch (data w))
          = Some loc /\
          nth_error (variables consumer') j
          = Some (set_driver_location w
                    (util_bitcount64
                       (Z.land (if patch (data w) then Z.lor ppo cpi else Z.lor po ci)
                               (Z.ones loc)) * 4))) /\
    (forall i j v w v' w',
        nth_error (variables producer) i = Some v ->
        mode (data v) = nir_var_shader_out ->
        nth_error (variables consumer) j = Some w ->
        mode (data w) = nir_var_shader_in ->
        patch (data v) = patch (data w) ->
        get_linked_variable_location X (Mach.u32 (location (data v))) (patch (data v))
        = get_linked_variable_location X (Mach.u32 (location (data w))) (patch (data w)) ->
        nth_error (variables producer') i = Some v' ->
        nth_error (variables consumer') j = Some w' ->
        driver_location (data v') = driver_location (data w')).
Proof.
  intros Hslots Hp Hc.
  destruct (linked_io_masks_total producer nir_var_shader_out Hp) as (po & ppo & Epo).
  destruct (linked_io_masks_total consumer nir_var_shader_in Hc) as (ci & cpi & Eci).
  destruct (assign_linked_locations_total producer nir_var_shader_out
              (Z.lor po ci) (Z.lor ppo cpi) Hp) as [producer' Ep].
  destruct (assign_linked_locations_total consumer nir_var_shader_in
              (Z.lor po ci) (Z.lor ppo cpi) Hc) as [consumer' Ec].
  assert (Hout : forall i v,
             nth_error (variables producer) i = Some v ->
             mode (data v) = nir_var_shader_out ->
             exists loc,
               get_linked_variable_location X (Mach.u32 (location (data v))) (patch (data v))
               = Some loc /\
               nth_error (variables producer') i
               = Some (set_driver_location v
                         (util_bitcount64
                            (Z.land (if patch (data v) then Z.lor ppo cpi else Z.lor po ci)
                                    (Z.ones loc)) * 4))).
  { intros i v Hi Hm.
    apply (assign_linked_locations_nth producer nir_var_shader_out _ _ producer' i v Ep Hi Hm).
    apply Hp; [eapply nth_error_In; eauto | assumption]. }
  assert (Hin : forall j w,
             nth_error (variables consumer) j = Some w ->
             mode (data w) = nir_var_shader_in ->
             exists loc,
               get_linked_variable_location X (Mach.u32 (location (data w))) (patch (data w))
               = Some loc /\
               nth_error (variables consumer') j
               = Some (set_driver_location w
                         (util_bitcount64
                            (Z.land (if patch (data w) then Z.lor ppo cpi else Z.lor po ci)
                                    (Z.ones loc)) * 4))).
  { intros j w Hj Hm.
    apply (assign_linked_locations_nth consumer nir_var_shader_in _ _ consumer' j w Ec Hj Hm).
    apply Hc; [eapply nth_error_In; eauto | assumption]. }
  exists {| num_linked_io_vars := util_bitcount64 (Z.lor po ci);
            num_linked_patch_io_vars := util_bitcount64 (Z.lor ppo cpi) |},
         producer', consumer', po, ppo, ci, cpi.
  split; [unfold nir_assign_linked_io_var_locations; rewrite Epo, Eci, Ep, Ec; reflexivity |].
  split; [exact Epo |]. split; [exact Eci |].
  split.
  { intros p b.
    pose proof (linked_io_masks_bits (info_stage producer) nir_var_shader_out
                  (variables producer) Hslots 0 0 po ppo Epo p b) as Hpb.
    pose proof (linked_io_masks_bits (info_stage consumer) nir_var_shader_in
                  (variables consumer) Hslots 0 0 ci cpi Eci p b) as Hcb.
    assert (H0 : Z.testbit (if p then 0 else 0) b = true <-> False)
      by (destruct p; rewrite Z.bits_0; (split; [discriminate | contradiction])).
    unfold linked_slot_used.
    destruct p; rewrite Z.lor_spec, orb_true_iff, Hpb, Hcb, H0; tauto. }
  split; [reflexivity |]. split; [reflexivity |].
  split; [exact Hout |]. split; [exact Hin |].
  intros i j v w v' w' Hi Hmv Hj Hmw Hpatch Hloc Hi' Hj'.
  destruct (Hout i v Hi Hmv) as (lv & Hlv & Hv').
  destruct (Hin j w Hj Hmw) as (lw & Hlw & Hw').
  rewrite Hi' in Hv'. rewrite Hj' in Hw'.
  apply some_inj in Hv'. apply some_inj in Hw'. subst v' w'.
  rewrite Hlv, Hlw in Hloc. apply some_inj in Hloc. subst lw.
  cbn [set_driver_location data driver_location]. rewrite Hpatch. reflexivity.
Qed.

End NirFacts.

(** *** The properties at the example shaders *)

(** C5 at a vertex-shader output in generic slot 5 (location 37), all-zero
    used masks. *)
Lemma nir_remove_unused_io_vars_demotes_witness :
  nth_error
    (variables (snd (nir_remove_unused_io_vars
                       ex (ex_shader MESA_SHADER_VERTEX
                                     [ex_var nir_var_shader_out 37 0 false] [])
                       nir_var_shader_out [0; 0; 0; 0] [0; 0; 0; 0]))) 0
  = Some (demote (ex_var nir_var_shader_out 37 0 false)).
Proof.
  destruct (nir_remove_unused_io_vars_demotes
              ex (ex_shader MESA_SHADER_VERTEX [ex_var nir_var_shader_out 37 0 false] [])
              nir_var_shader_out [0; 0; 0; 0] [0; 0; 0; 0] 0%nat
              (ex_var nir_var_shader_out 37 0 false))
    as (_ & (_ & H) & _).
  - reflexivity.
  - reflexivity.
  - left. vm_compute. discriminate.
  - reflexivity.
  - reflexivity.
  - exact H.
Defined.

(** C5 as stated fails: an output in a generic slot that is not
    always-active but carries the explicit-transform-feedback-buffer mark is
    kept by a pass with all-zero used masks. *)
Lemma nir_remove_unused_io_vars_keeps_xfb :
  nth_error
    (variables (snd (nir_remove_unused_io_vars
                       ex (ex_shader MESA_SHADER_VERTEX
                                     [ex_var nir_var_shader_out 37 0 true] [])
                       nir_var_shader_out [0; 0; 0; 0] [0; 0; 0; 0]))) 0
  = Some (ex_var nir_var_shader_out 37 0 true) /\
  mode (data (ex_var nir_var_shader_out 37 0 true)) = nir_var_shader_out /\
  VARYING_SLOT_VAR0 ex <= location (data (ex_var nir_var_shader_out 37 0 true)) /\
  always_active_io (data (ex_var nir_var_shader_out 37 0 true)) = false.
Proof.
  repeat split; try reflexivity. vm_compute. discriminate.
Qed.

(** C6 at a tessellation-control output in slot 37 that the stage loads and
    no consumer input references. *)
Lemma nir_remove_unused_varyings_keeps_tcs_reads_witness :
  nth_error
    (variables
       (snd (fst (nir_remove_unused_varyings
                    ex (ex_shader MESA_SHADER_TESS_CTRL
                                  [ex_var nir_var_shader_out 37 0 false] [0%nat])
                    (ex_shader MESA_SHADER_TESS_EVAL [] []))))) 0
  = Some (ex_var nir_var_shader_out 37 0 false).
Proof.
  apply (nir_remove_unused_varyings_keeps_tcs_reads
           ex (ex_shader MESA_SHADER_TESS_CTRL [ex_var nir_var_shader_out 37 0 false] [0%nat])
           (ex_shader MESA_SHADER_TESS_EVAL [] []) 0%nat
           (ex_var nir_var_shader_out 37 0 false)).
  - reflexivity.
  - reflexivity.
  - eexists _, _, _. repeat split; [left; reflexivity | reflexivity | left; reflexivity
                                    | left; reflexivity].
  - simpl. lia.
  - reflexivity.
  - vm_compute. discriminate.
Defined.

(** C6 as stated fails: a tessellation-control output with an unassigned
    location (-1) that the stage loads is demoted all the same. *)
Lemma nir_remove_unused_varyings_demotes_unassigned_read :
  nth_error
    (variables
       (snd (fst (nir_remove_unused_varyings
                    ex (ex_shader MESA_SHADER_TESS_CTRL
                                  [ex_var nir_var_shader_out (-1) 0 false] [0%nat])
                    (ex_shader MESA_SHADER_TESS_EVAL [] []))))) 0
  = Some (demote (ex_var nir_var_shader_out (-1) 0 false)) /\
  mode (data (demote (ex_var nir_var_shader_out (-1) 0 false))) = nir_var_shader_temp /\
  loads_output (ex_shader MESA_SHADER_TESS_CTRL
                          [ex_var nir_var_shader_out (-1) 0 false] [0%nat]) 0.
Proof.
  split; [reflexivity |]. split; [reflexivity |].
  eexists _, _, _. repeat split; [left; reflexivity | reflexivity | left; reflexivity
                                  | left; reflexivity].
Qed.

(** C7 at a non-patch record and a patch record. *)
Lemma cmp_varying_component_order_witness :
  cmp_varying_component (ex_component 40 0 false) (ex_component 33 0 true) < 0.
Proof.
  destruct (cmp_varying_component_order
              (ex_component 40 0 false) (ex_component 33 0 true) (ex_component 33 0 true))
    as (_ & _ & _ & _ & H & _).
  - unfold slot_assigned. simpl. lia.
  - unfold slot_assigned. simpl. lia.
  - unfold slot_assigned. simpl. lia.
  - apply H; reflexivity.
Defined.

(** C7 as stated fails: the two components 0 and 1 of slot 33 are distinct
    records that compare equal in both directions, so the comparison is not
    antisymmetric and leaves their relative order to the sort. *)
Lemma cmp_varying_component_ties :
  cmp_varying_component (ex_component 33 0 false) (ex_component 33 1 false) = 0 /\
  cmp_varying_component (ex_component 33 1 false) (ex_component 33 0 false) = 0 /\
  ex_component 33 0 false <> ex_component 33 1 false.
Proof.
  split; [reflexivity |]. split; [reflexivity |]. discriminate.
Qed.

(** C8 at a vertex shader writing slots 32 and 33 and a fragment shader
    reading slot 33: the call returns, it counts two linked slots, and both
    variables of slot 33 get driver location 4, one occupied slot lying
    below theirs. *)
Lemma nir_assign_linked_io_var_locations_agree_witness :
  exists info producer' consumer' v' w',
    nir_assign_linked_io_var_locations
      ex
      (ex_shader MESA_SHADER_VERTEX
                 [ex_var nir_var_shader_out 32 0 false; ex_var nir_var_shader_out 33 0 false] [])
      (ex_shader MESA_SHADER_FRAGMENT [ex_var nir_var_shader_in 33 0 false] [])
    = Some (info, producer', consumer') /\
    nth_error (variables producer') 1 = Some v' /\
    nth_error (variables consumer') 0 = Some w' /\
    driver_location (data v') = 4 /\
    driver_location (data w') = 4 /\
    num_linked_io_vars info = 2.
Proof.
  destruct (nir_assign_linked_io_var_locations_agree
              ex
              (ex_shader MESA_SHADER_VERTEX
                         [ex_var nir_var_shader_out 32 0 false;
                          ex_var nir_var_shader_out 33 0 false] [])
              (ex_shader MESA_SHADER_FRAGMENT [ex_var nir_var_shader_in 33 0 false] []))
    as (info & producer' & consumer' & po & ppo & ci & cpi
        & Hr & Epo & Eci & _ & Hn & _ & Hout & Hin & _).
  - intros t. cbn. lia.
  - intros v [<- | [<- | []]] _; exists 1; eexists; repeat split;
      try reflexivity; vm_compute; congruence.
  - intros v [<- | []] _; exists 1; eexists; repeat split;
      try reflexivity; vm_compute; congruence.
  - destruct (Hout 1%nat (ex_var nir_var_shader_out 33 0 false) eq_refl eq_refl)
      as (lv & Elv & Ev').
    destruct (Hin 0%nat (ex_var nir_var_shader_in 33 0 false) eq_refl eq_refl)
      as (lw & Elw & Ew').
    vm_compute in Epo. injection Epo as <- <-.
    vm_compute in Eci. injection Eci as <- <-.
    vm_compute in Elv. injection Elv as <-.
    vm_compute in Elw. injection Elw as <-.
    exists info, producer', consumer'. eexists. eexists.
    split; [exact Hr |]. split; [exact Ev' |]. split; [exact Ew' |].
    split; [reflexivity |]. split; [reflexivity |].
    rewrite Hn. reflexivity.
Defined.


(** *** Sorting the variables of a mode by location *)

Lemma filter_none {A : Type} (p : A -> bool) (l : list A) :
  (forall z, In z l -> p z = false) -> filter p l = [].
Proof.
  induction l as [| y l IH]; intros H; cbn [filter]; [reflexivity |].
  rewrite (H y (or_introl eq_refl)). apply IH. intros z Hz. apply H. now right.
Qed.

Lemma insert_sorted_perm {T : Type} (l : list (nir_variable T)) x :
  Permutation (insert_sorted l x) (x :: l).
Proof.
  induction l as [| y l IH]; cbn [insert_sorted]; [apply Permutation_refl |].
  destruct (location (data x) <? location (data y)); [apply Permutation_refl |].
  eapply Permutation_trans; [apply perm_skip, IH | apply perm_swap].
Qed.

Lemma insert_sorted_sorted {T : Type} (l : list (nir_variable T)) x :
  StronglySorted location_le l -> StronglySorted location_le (insert_sorted l x).
Proof.
  induction l as [| y l IH]; intros Hs; cbn [insert_sorted].
  - constructor; constructor.
  - inversion Hs as [| y' l' Hl Hy]; subst.
    destruct (location (data x) <? location (data y)) eqn:E.
    + apply Z.ltb_lt in E. constructor; [exact Hs |].
      constructor; [unfold location_le; lia |].
      rewrite Forall_forall in *. intros z Hz. specialize (Hy z Hz).
      unfold location_le in *. lia.
    + apply Z.ltb_ge in E. constructor; [now apply IH |].
      rewrite Forall_forall in *. intros z Hz.
      apply (Permutation_in _ (insert_sorted_perm l x)) in Hz.
      destruct Hz as [<- | Hz]; [exact E | now apply Hy].
Qed.

(** Inserting keeps the variables of every location in the order they
    had, the new one last among its equals. *)
Lemma insert_sorted_at_location {T : Type} (l : list (nir_variable T)) x loc :
  StronglySorted location_le l ->
  at_location loc (insert_sorted l x) = at_location loc (l ++ [x]).
Proof.
  unfold at_location.
  induction l as [| y l IH]; intros Hs; cbn [insert_sorted]; [reflexivity |].
  inversion Hs as [| y' l' Hl Hy]; subst.
  destruct (location (data x) <? location (data y)) eqn:E.
  - apply Z.ltb_lt in E.
    cbn [app filter].
    destruct (location (data x) =? loc) eqn:Ex.
    + apply Z.eqb_eq in Ex.
      replace (location (data y) =? loc) with false by (symmetry; apply Z.eqb_neq; lia).
      rewrite filter_app. cbn [filter]. rewrite (proj2 (Z.eqb_eq _ _) Ex).
      assert (Hnone : filter (fun var => location (data var) =? loc) l = []).
      { apply filter_none. intros z Hz.
        rewrite Forall_forall in Hy. specialize (Hy z Hz). unfold location_le in Hy.
        apply Z.eqb_neq. lia. }
      rewrite Hnone. reflexivity.
    + rewrite filter_app. cbn [filter]. rewrite Ex, app_nil_r. reflexivity.
  - cbn [app filter]. rewrite (IH Hl). reflexivity.
Qed.

Lemma sort_varyings_invariant {T : Type} (mode_ : nir_variable_mode)
      (vars : list (nir_variable T)) :
  forall acc,
    StronglySorted location_le acc ->
    let sorted :=
      fold_left (fun sorted_list var =>
                   if mode_eqb (mode (data var)) mode_ then insert_sorted sorted_list var
                   else sorted_list) vars acc in
    StronglySorted location_le sorted /\
    Permutation sorted (acc ++ with_mode mode_ vars) /\
    forall loc, at_location loc sorted = at_location loc (acc ++ with_mode mode_ vars).
Proof.
  unfold with_mode.
  induction vars as [| v vars IH]; intros acc Hacc; cbn [fold_left filter].
  - rewrite app_nil_r. repeat split; [assumption | apply Permutation_refl].
  - destruct (mode_eqb (mode (data v)) mode_).
    + destruct (IH (insert_sorted acc v) (insert_sorted_sorted acc v Hacc))
        as (Hs & Hp & Hl).
      split; [exact Hs |]. split.
      * eapply Permutation_trans; [exact Hp |].
        replace (acc ++ v :: filter (fun var => mode_eqb (mode (data var)) mode_) vars)
          with ((acc ++ [v]) ++ filter (fun var => mode_eqb (mode (data var)) mode_) vars)
          by (rewrite <- app_assoc; reflexivity).
        apply Permutation_app_tail.
        eapply Permutation_trans; [apply insert_sorted_perm |].
        apply Permutation_cons_append.
      * intros loc. rewrite Hl. unfold at_location.
        rewrite !filter_app.
        fold (at_location loc (insert_sorted acc v)).
        rewrite (insert_sorted_at_location acc v loc Hacc).
        unfold at_location. rewrite filter_app. cbn [filter].
        destruct (location (data v) =? loc); rewrite <- ?app_assoc; reflexivity.
    + apply IH. exact Hacc.
Qed.

(** X19. [sort_varyings] yields the variables of the mode, each once, in
    ascending order of location. *)
Theorem sort_varyings_sorted {T : Type} (shader : nir_shader T) (mode_ : nir_variable_mode) :
  StronglySorted location_le (fst (sort_varyings shader mode_)) /\
  Permutation (fst (sort_varyings shader mode_)) (with_mode mode_ (variables shader)) /\
  Permutation (fst (sort_varyings shader mode_)
               ++ variables (snd (sort_varyings shader mode_)))
              (variables shader).
Proof.
  destruct (sort_varyings_invariant mode_ (variables shader) [] (SSorted_nil _))
    as (Hs & Hp & _).
  cbn [app] in Hp. unfold sort_varyings. cbn [fst snd variables].
  split; [exact Hs |]. split; [exact Hp |].
  eapply Permutation_trans; [apply Permutation_app_tail, Hp |].
  unfold with_mode. clear.
  induction (variables shader) as [| v l IH]; cbn [filter]; [apply Permutation_refl |].
  destruct (mode_eqb (mode (data v)) mode_); cbn [negb app].
  - now apply perm_skip.
  - eapply Permutation_trans; [apply Permutation_sym, Permutation_middle |].
    now apply perm_skip.
Qed.

(** X20. The sort is stable: variables that share a location come out in the
    order the shader listed them. *)
Theorem sort_varyings_stable {T : Type} (shader : nir_shader T)
        (mode_ : nir_variable_mode) (loc : Z) :
  at_location loc (fst (sort_varyings shader mode_))
  = at_location loc (with_mode mode_ (variables shader)).
Proof.
  destruct (sort_varyings_invariant mode_ (variables shader) [] (SSorted_nil _))
    as (_ & _ & Hl).
  apply Hl.
Qed.

(** *** What the removal pass keeps *)

Section RemovalFacts.

Variable X : nir_externals.

Lemma demote_mode (var : nir_variable (glsl_type X)) :
  mode (data (demote var)) = nir_var_shader_temp.
Proof. reflexivity. Qed.

(** The variables of the shader after the pass, as a list. *)
Lemma nir_remove_unused_io_vars_variables shader mode_ used usedp :
  variables (snd (nir_remove_unused_io_vars X shader mode_ used usedp))
  = map (fun var =>
           if mode_eqb (mode (data var)) mode_
              && is_unused_io_var X (info_stage shader) used usedp var
           then demote var else var)
        (variables shader).
Proof.
  unfold nir_remove_unused_io_vars. cbn [snd].
  match goal with |- context [if ?p then nir_fixup_deref_modes X ?s else ?s] =>
    destruct p; [rewrite (nir_fixup_deref_modes_variables X) |]; reflexivity
  end.
Qed.

Lemma nir_remove_unused_io_vars_stage shader mode_ used usedp :
  info_stage (snd (nir_remove_unused_io_vars X shader mode_ used usedp))
  = info_stage shader.
Proof.
  unfold nir_remove_unused_io_vars. cbn [snd].
  match goal with |- context [if ?p then nir_fixup_deref_modes X ?s else ?s] =>
    destruct p; [rewrite (nir_fixup_deref_modes_stage X) |]; reflexivity
  end.
Qed.

(** A pass that reports no progress has changed no variable, and a pass
    over a mode other than the temporary one that reports progress has
    changed one. *)
Lemma nir_remove_unused_io_vars_no_progress shader mode_ used usedp :
  fst (nir_remove_unused_io_vars X shader mode_ used usedp) = false ->
  variables (snd (nir_remove_unused_io_vars X shader mode_ used usedp))
  = variables shader.
Proof.
  intros Hp. rewrite nir_remove_unused_io_vars_variables.
  unfold nir_remove_unused_io_vars in Hp. cbn [fst] in Hp.
  rewrite <- (map_id (variables shader)) at 2.
  apply map_ext_in. intros v Hv.
  destruct (mode_eqb (mode (data v)) mode_
            && is_unused_io_var X (info_stage shader) used usedp v) eqn:E;
    [| reflexivity].
  exfalso.
  assert (Hex : existsb (fun v => mode_eqb (mode (data v)) mode_
                                  && is_unused_io_var X (info_stage shader) used usedp v)
                        (variables shader) = true)
    by (apply existsb_exists; exists v; auto).
  cbv zeta in Hp. congruence.
Qed.

Lemma nir_remove_unused_io_vars_progress_changes shader mode_ used usedp :
  mode_ <> nir_var_shader_temp ->
  fst (nir_remove_unused_io_vars X shader mode_ used usedp) = true ->
  variables (snd (nir_remove_unused_io_vars X shader mode_ used usedp))
  <> variables shader.
Proof.
  intros Hmode Hp E.
  unfold nir_remove_unused_io_vars in Hp. cbn [fst] in Hp.
  apply existsb_exists in Hp. destruct Hp as (v & Hv & Hvisit).
  apply In_nth_error in Hv. destruct Hv as [i Hi].
  pose proof (nir_remove_unused_io_vars_nth X shader mode_ used usedp i v Hi) as Hn.
  rewrite E, Hi, Hvisit in Hn. apply some_inj in Hn.
  apply andb_true_iff in Hvisit. destruct Hvisit as [Hm _]. apply mode_eqb_eq in Hm.
  assert (Hd : mode (data v) = nir_var_shader_temp) by (rewrite Hn at 1; reflexivity).
  congruence.
Qed.

(** X13. [nir_remove_unused_io_vars] never touches a variable of another mode, a
    variable in a built-in slot, an always-active variable, a variable with
    an explicit transform-feedback buffer, or a variable whose slot mask
    meets the used mask at its component offset; and when it reports no
    progress it has changed no variable at all. *)
Theorem nir_remove_unused_io_vars_keeps shader mode_ used usedp i var :
  nth_error (variables shader) i = Some var ->
  (mode (data var) <> mode_ \/
   0 <= location (data var) < VARYING_SLOT_VAR0 X \/
   always_active_io (data var) = true \/
   explicit_xfb_buffer (data var) = true \/
   Z.land (nth (Z.to_nat (location_frac (data var)))
               (if patch (data var) then usedp else used) 0)
          (get_variable_io_mask X var (info_stage shader)) <> 0 ->
   nth_error (variables (snd (nir_remove_unused_io_vars X shader mode_ used usedp))) i
   = Some var) /\
  (fst (nir_remove_unused_io_vars X shader mode_ used usedp) = false ->
   variables (snd (nir_remove_unused_io_vars X shader mode_ used usedp))
   = variables shader).
Proof.
  intros Hi. split.
  - intros Hkeep. rewrite (nir_remove_unused_io_vars_nth X shader mode_ used usedp i var Hi).
    destruct (mode_eqb (mode (data var)) mode_) eqn:Hm; [| reflexivity].
    apply mode_eqb_eq in Hm. cbn [andb].
    unfold is_unused_io_var.
    destruct Hkeep as [H | [H | [H | [H | H]]]].
    + contradiction.
    + replace ((location (data var) <? VARYING_SLOT_VAR0 X) && (0 <=? location (data var)))
        with true; [reflexivity |].
      symmetry. apply andb_true_iff. split; [apply Z.ltb_lt | apply Z.leb_le]; lia.
    + rewrite H. destruct (_ && _); reflexivity.
    + rewrite H. destruct (_ && _); [reflexivity |].
      destruct (always_active_io (data var)); reflexivity.
    + destruct (_ && _); [reflexivity |].
      destruct (always_active_io (data var)); [reflexivity |].
      destruct (explicit_xfb_buffer (data var)); [reflexivity |].
      cbv zeta. replace (_ =? 0) with false; [reflexivity |].
      symmetry. apply Z.eqb_neq. exact H.
  - apply nir_remove_unused_io_vars_no_progress.
Qed.

(** X14. The pass is idempotent: run again on its own result with the same
    masks, it reports no progress and changes no variable.  The mode is one
    of the two the source asserts, so it is not the temporary mode. *)
Theorem nir_remove_unused_io_vars_idempotent shader mode_ used usedp :
  mode_ <> nir_var_shader_temp ->
  let once := snd (nir_remove_unused_io_vars X shader mode_ used usedp) in
  fst (nir_remove_unused_io_vars X once mode_ used usedp) = false /\
  variables (snd (nir_remove_unused_io_vars X once mode_ used usedp)) = variables once.
Proof.
  intros Hmode. cbv zeta.
  set (once := snd (nir_remove_unused_io_vars X shader mode_ used usedp)).
  assert (Hstage : info_stage once = info_stage shader)
    by apply nir_remove_unused_io_vars_stage.
  assert (Hvars : variables once
                  = map (fun var =>
                           if mode_eqb (mode (data var)) mode_
                              && is_unused_io_var X (info_stage shader) used usedp var
                           then demote var else var)
                        (variables shader))
    by apply nir_remove_unused_io_vars_variables.
  assert (Hnone : forall v, In v (variables once) ->
                            mode_eqb (mode (data v)) mode_
                            && is_unused_io_var X (info_stage once) used usedp v = false).
  { intros v Hv. rewrite Hvars in Hv. apply in_map_iff in Hv.
    destruct Hv as (u & <- & _). rewrite Hstage.
    destruct (mode_eqb (mode (data u)) mode_
              && is_unused_io_var X (info_stage shader) used usedp u) eqn:E.
    - rewrite demote_mode.
      replace (mode_eqb nir_var_shader_temp mode_) with false; [reflexivity |].
      symmetry. destruct (mode_eqb nir_var_shader_temp mode_) eqn:E'; [| reflexivity].
      apply mode_eqb_eq in E'. congruence.
    - exact E. }
  assert (Hfst : fst (nir_remove_unused_io_vars X once mode_ used usedp) = false).
  { unfold nir_remove_unused_io_vars. cbn [fst].
    destruct (existsb _ (variables once)) eqn:E; [| reflexivity].
    apply existsb_exists in E. destruct E as (v & Hv & Et).
    rewrite (Hnone v Hv) in Et. discriminate. }
  split; [exact Hfst |].
  rewrite nir_remove_unused_io_vars_variables.
  rewrite <- (map_id (variables once)) at 2.
  apply map_ext_in. intros v Hv. now rewrite (Hnone v Hv).
Qed.

(** *** Varyings both stages use *)

Lemma gather_io_masks_covers shader mode_ w :
  In w (variables shader) ->
  mode (data w) = mode_ ->
  0 < get_num_components X w ->
  0 <= location_frac (data w) < 4 ->
  covers X w (info_stage shader) (gather_io_masks X shader mode_).
Proof.
  intros Hin Hm Hn Hfrac. unfold gather_io_masks.
  set (step := fun (m : list Z * list Z) (var : nir_variable (glsl_type X)) =>
                 if mode_eqb (mode (data var)) mode_
                 then mark_components X var (info_stage shader) m else m).
  assert (Hstep : forall a b, masks2_sub a (step a b)).
  { intros a b. unfold step.
    destruct (mode_eqb _ _); [apply mark_components_grows | apply masks2_sub_refl]. }
  set (P := fun m : list Z * list Z =>
              length (fst m) = 4%nat -> length (snd m) = 4%nat ->
              covers X w (info_stage shader) m).
  assert (Hup : forall a a', masks2_sub a a' -> P a -> P a').
  { intros a a' Hs Pa Q1 Q2. destruct (masks2_sub_length _ _ Hs) as [E1 E2].
    apply (covers_grows X _ _ a a' Hs). apply Pa; lia. }
  assert (Pw : forall a, P (step a w)).
  { intros a Q1 Q2. unfold step in *. rewrite (proj2 (mode_eqb_eq _ _) Hm) in *.
    destruct (masks2_sub_length _ _ (mark_components_grows X w (info_stage shader) a))
      as [E1 E2].
    apply mark_components_covers; try assumption; lia. }
  destruct (gather_io_masks_length X shader mode_) as [L1 L2].
  apply (fold_left_reaches step masks2_sub P masks2_sub_refl masks2_sub_trans
                           Hstep Hup (variables shader) w Hin Pw); assumption.
Qed.

Lemma tcs_add_output_reads_grows shader m :
  masks2_sub m (tcs_add_output_reads X shader m).
Proof.
  unfold tcs_add_output_reads.
  apply (fold_left_grows _ masks2_sub masks2_sub_refl masks2_sub_trans).
  intros a b. destruct (impl b); [| apply masks2_sub_refl].
  apply (fold_left_grows _ masks2_sub masks2_sub_refl masks2_sub_trans).
  intros a' b'.
  apply (fold_left_grows _ masks2_sub masks2_sub_refl masks2_sub_trans).
  intros a'' b''. apply tcs_add_output_reads_instr_grows.
Qed.

Lemma land_meets other mw mv :
  Z.land other mw = mw -> Z.land mw mv <> 0 -> Z.land other mv <> 0.
Proof.
  intros Hc Hne H0. apply Hne.
  rewrite <- Hc, <- Z.land_assoc, (Z.land_comm mw mv), Z.land_assoc.
  rewrite H0. apply Z.land_0_l.
Qed.

(** A variable is kept by the pass when the masks handed to it cover a
    variable of the same patch-ness and component whose slot mask meets its
    own. *)
Lemma is_unused_io_var_met stage stage' (m : list Z * list Z) v w :
  covers X w stage' m ->
  patch (data v) = patch (data w) ->
  location_frac (data v) = location_frac (data w) ->
  Z.land (get_variable_io_mask X w stage') (get_variable_io_mask X v stage) <> 0 ->
  is_unused_io_var X stage (fst m) (snd m) v = false.
Proof.
  intros Hc Hp Hf Hmeet. unfold is_unused_io_var.
  destruct (_ && _); [reflexivity |].
  destruct (always_active_io (data v)); [reflexivity |].
  destruct (explicit_xfb_buffer (data v)); [reflexivity |].
  cbv zeta. apply Z.eqb_neq.
  unfold covers in Hc. rewrite Hp, Hf.
  eapply land_meets; [exact Hc | exact Hmeet].
Qed.

(** X15. [nir_remove_unused_varyings] keeps both ends of a varying the two
    stages share: a producer output and a consumer input of the same
    patch-ness, at the same component, whose slot masks meet, are both left
    as they were. *)
Theorem nir_remove_unused_varyings_keeps_shared producer consumer i v j w :
  nth_error (variables producer) i = Some v ->
  mode (data v) = nir_var_shader_out ->
  nth_error (variables consumer) j = Some w ->
  mode (data w) = nir_var_shader_in ->
  patch (data v) = patch (data w) ->
  location_frac (data v) = location_frac (data w) ->
  0 <= location_frac (data v) < 4 ->
  0 < get_num_components X v ->
  0 < get_num_components X w ->
  Z.land (get_variable_io_mask X w (info_stage consumer))
         (get_variable_io_mask X v (info_stage producer)) <> 0 ->
  nth_error (variables (snd (fst (nir_remove_unused_varyings X producer consumer)))) i
  = Some v /\
  nth_error (variables (snd (nir_remove_unused_varyings X producer consumer))) j
  = Some w.
Proof.
  intros Hi Hv Hj Hw Hp Hf Hfrac Hnv Hnw Hmeet.
  unfold nir_remove_unused_varyings.
  set (written := gather_io_masks X producer nir_var_shader_out).
  set (read0 := gather_io_masks X consumer nir_var_shader_in).
  set (read := if stage_eqb (info_stage producer) MESA_SHADER_TESS_CTRL
               then tcs_add_output_reads X producer read0 else read0).
  assert (Hread : covers X w (info_stage consumer) read).
  { assert (H0 : covers X w (info_stage consumer) read0).
    { apply gather_io_masks_covers; try assumption; [eapply nth_error_In; eauto | lia]. }
    unfold read. destruct (stage_eqb _ _); [| exact H0].
    eapply covers_grows; [apply tcs_add_output_reads_grows | exact H0]. }
  assert (Hwritten : covers X v (info_stage producer) written).
  { apply gather_io_masks_covers; try assumption. eapply nth_error_In; eauto. }
  destruct (nir_remove_unused_io_vars X producer nir_var_shader_out (fst read) (snd read))
    as [progress1 producer'] eqn:E1.
  destruct (nir_remove_unused_io_vars X consumer nir_var_shader_in
                                      (fst written) (snd written))
    as [progress2 consumer'] eqn:E2.
  cbn [fst snd]. split.
  - replace producer' with
      (snd (nir_remove_unused_io_vars X producer nir_var_shader_out (fst read) (snd read)))
      by (rewrite E1; reflexivity).
    rewrite (nir_remove_unused_io_vars_nth X _ _ _ _ i v Hi).
    rewrite (is_unused_io_var_met (info_stage producer) (info_stage consumer) read v w);
      try assumption.
    now rewrite andb_false_r.
  - replace consumer' with
      (snd (nir_remove_unused_io_vars X consumer nir_var_shader_in
                                      (fst written) (snd written)))
      by (rewrite E2; reflexivity).
    rewrite (nir_remove_unused_io_vars_nth X _ _ _ _ j w Hj).
    rewrite (is_unused_io_var_met (info_stage consumer) (info_stage producer) written w v);
      try assumption; try (symmetry; assumption).
    + now rewrite andb_false_r.
    + rewrite Z.land_comm. exact Hmeet.
Qed.

(** X16. The value [nir_remove_unused_varyings] returns is truthful: it is
    FALSE exactly when the call has left the variables of both shaders as
    they were. *)
Theorem nir_remove_unused_varyings_progress producer consumer :
  fst (fst (nir_remove_unused_varyings X producer consumer)) = false <->
  variables (snd (fst (nir_remove_unused_varyings X producer consumer)))
  = variables producer /\
  variables (snd (nir_remove_unused_varyings X producer consumer))
  = variables consumer.
Proof.
  unfold nir_remove_unused_varyings.
  set (written := gather_io_masks X producer nir_var_shader_out).
  set (read := if stage_eqb (info_stage producer) MESA_SHADER_TESS_CTRL
               then tcs_add_output_reads X producer
                      (gather_io_masks X consumer nir_var_shader_in)
               else gather_io_masks X consumer nir_var_shader_in).
  pose proof (nir_remove_unused_io_vars_no_progress
                producer nir_var_shader_out (fst read) (snd read)) as Hn1.
  pose proof (nir_remove_unused_io_vars_no_progress
                consumer nir_var_shader_in (fst written) (snd written)) as Hn2.
  pose proof (nir_remove_unused_io_vars_progress_changes
                producer nir_var_shader_out (fst read) (snd read)
                ltac:(discriminate)) as Hc1.
  pose proof (nir_remove_unused_io_vars_progress_changes
                consumer nir_var_shader_in (fst written) (snd written)
                ltac:(discriminate)) as Hc2.
  destruct (nir_remove_unused_io_vars X producer nir_var_shader_out (fst read) (snd read))
    as [progress1 producer'].
  destruct (nir_remove_unused_io_vars X consumer nir_var_shader_in
                                      (fst written) (snd written))
    as [progress2 consumer'].
  cbn [fst snd] in *. split.
  - intros H. apply orb_false_iff in H. destruct H as [-> ->]. auto.
  - intros [E1 E2].
    destruct progress1; [exfalso; now apply Hc1 |].
    destruct progress2; [exfalso; now apply Hc2 |].
    reflexivity.
Qed.

End RemovalFacts.

(** X13 on an output in the built-in slot 5. *)
Lemma nir_remove_unused_io_vars_keeps_witness :
  nth_error
    (variables (snd (nir_remove_unused_io_vars
                       ex (ex_shader MESA_SHADER_VERTEX
                                     [ex_var nir_var_shader_out 5 0 false] [])
                       nir_var_shader_out [0; 0; 0; 0] [0; 0; 0; 0]))) 0
  = Some (ex_var nir_var_shader_out 5 0 false).
Proof.
  apply (proj1 (nir_remove_unused_io_vars_keeps
                  ex (ex_shader MESA_SHADER_VERTEX [ex_var nir_var_shader_out 5 0 false] [])
                  nir_var_shader_out [0; 0; 0; 0] [0; 0; 0; 0] 0%nat
                  (ex_var nir_var_shader_out 5 0 false) eq_refl)).
  right; left. cbn. lia.
Defined.

(** X14 on a shader whose only output the first pass demotes. *)
Lemma nir_remove_unused_io_vars_idempotent_witness :
  fst (nir_remove_unused_io_vars
         ex
         (snd (nir_remove_unused_io_vars
                 ex (ex_shader MESA_SHADER_VERTEX
                               [ex_var nir_var_shader_out 37 0 false] [])
                 nir_var_shader_out [0; 0; 0; 0] [0; 0; 0; 0]))
         nir_var_shader_out [0; 0; 0; 0] [0; 0; 0; 0]) = false.
Proof.
  apply (proj1 (nir_remove_unused_io_vars_idempotent
                  ex (ex_shader MESA_SHADER_VERTEX [ex_var nir_var_shader_out 37 0 false] [])
                  nir_var_shader_out [0; 0; 0; 0] [0; 0; 0; 0] ltac:(discriminate))).
Defined.

(** X15 on a vertex output and a fragment input at slot 37, component 1. *)
Lemma nir_remove_unused_varyings_keeps_shared_witness :
  nth_error
    (variables
       (snd (fst (nir_remove_unused_varyings
                    ex (ex_shader MESA_SHADER_VERTEX
                                  [ex_var nir_var_shader_out 37 1 false] [])
                    (ex_shader MESA_SHADER_FRAGMENT
                               [ex_var nir_var_shader_in 37 1 false] []))))) 0
  = Some (ex_var nir_var_shader_out 37 1 false) /\
  nth_error
    (variables
       (snd (nir_remove_unused_varyings
               ex (ex_shader MESA_SHADER_VERTEX
                             [ex_var nir_var_shader_out 37 1 false] [])
               (ex_shader MESA_SHADER_FRAGMENT
                          [ex_var nir_var_shader_in 37 1 false] [])))) 0
  = Some (ex_var nir_var_shader_in 37 1 false).
Proof.
  apply (nir_remove_unused_varyings_keeps_shared
           ex (ex_shader MESA_SHADER_VERTEX [ex_var nir_var_shader_out 37 1 false] [])
           (ex_shader MESA_SHADER_FRAGMENT [ex_var nir_var_shader_in 37 1 false] [])
           0%nat (ex_var nir_var_shader_out 37 1 false)
           0%nat (ex_var nir_var_shader_in 37 1 false));
    try reflexivity; try (cbn; lia).
Defined.

(** *** Marking transform-feedback varyings *)

Lemma update_nth_nth {A : Type} (f : A -> A) (l : list A) :
  forall i idx,
    nth_error (update_nth l i f) idx
    = if Nat.eqb idx i then option_map f (nth_error l idx) else nth_error l idx.
Proof.
  induction l as [| x l IH]; intros i idx.
  - cbn [update_nth]. destruct (Nat.eqb idx i); destruct idx; reflexivity.
  - destruct i as [| i]; destruct idx as [| idx]; cbn [update_nth nth_error Nat.eqb];
      try reflexivity.
    apply IH.
Qed.

Lemma set_always_active_io_idem {T : Type} (var : nir_variable T) :
  set_always_active_io (set_always_active_io var) = set_always_active_io var.
Proof. reflexivity. Qed.

Section XfbFacts.

Variable X : nir_externals.
Variable MAX_VARYING : Z.

(** An input recorded for a slot is an input of the list sitting in that
    slot, or it was recorded before. *)
Lemma xfb_input_vars_from_some vars :
  forall i input_vars l k,
    xfb_input_vars_from X MAX_VARYING i vars input_vars l = Some k ->
    input_vars l = Some k \/
    exists w, (i <= k)%nat /\ nth_error vars (k - i) = Some w /\
              mode (data w) = nir_var_shader_in /\
              in_generic_slots X MAX_VARYING w = true /\
              generic_slot X w = l.
Proof.
  induction vars as [| var rest IH]; intros i input_vars l k H; cbn in H; [now left |].
  apply IH in H. destruct H as [H | (w & Hle & Hw & Hm & Hr & Hl)].
  - destruct (mode_eqb (mode (data var)) nir_var_shader_in
              && in_generic_slots X MAX_VARYING var) eqn:E; [| now left].
    destruct (l =? generic_slot X var) eqn:El; [| now left].
    injection H as <-. right. exists var.
    apply andb_true_iff in E. destruct E as [Em Er].
    apply mode_eqb_eq in Em. apply Z.eqb_eq in El.
    rewrite Nat.sub_diag. repeat split; auto.
  - right. exists w. repeat split; auto; [lia |].
    replace (k - i)%nat with (S (k - S i)) by lia. exact Hw.
Qed.

(** Inputs that do not sit in slot [l] leave its entry alone. *)
Lemma xfb_input_vars_from_other vars :
  forall i input_vars l,
    (forall w, In w vars -> mode (data w) = nir_var_shader_in ->
               in_generic_slots X MAX_VARYING w = true -> generic_slot X w <> l) ->
    xfb_input_vars_from X MAX_VARYING i vars input_vars l = input_vars l.
Proof.
  induction vars as [| var rest IH]; intros i input_vars l H; cbn; [reflexivity |].
  rewrite IH by (intros w Hw; apply H; now right).
  destruct (mode_eqb (mode (data var)) nir_var_shader_in
            && in_generic_slots X MAX_VARYING var) eqn:E; [| reflexivity].
  apply andb_true_iff in E. destruct E as [Em Er]. apply mode_eqb_eq in Em.
  replace (l =? generic_slot X var) with false; [reflexivity |].
  symmetry. apply Z.eqb_neq. intros ->.
  now apply (H var (or_introl eq_refl) Em Er).
Qed.

(** The entry of a slot is the last input of the list that sits in it. *)
Lemma xfb_input_vars_from_last vars :
  forall i input_vars j w,
    nth_error vars j = Some w ->
    mode (data w) = nir_var_shader_in ->
    in_generic_slots X MAX_VARYING w = true ->
    (forall j' w', (j < j')%nat -> nth_error vars j' = Some w' ->
                   mode (data w') = nir_var_shader_in ->
                   in_generic_slots X MAX_VARYING w' = true ->
                   generic_slot X w' <> generic_slot X w) ->
    xfb_input_vars_from X MAX_VARYING i vars input_vars (generic_slot X w)
    = Some (i + j)%nat.
Proof.
  induction vars as [| var rest IH]; intros i input_vars j w Hj Hm Hr Hlast.
  - destruct j; discriminate.
  - destruct j as [| j]; cbn [nth_error] in Hj; cbn [xfb_input_vars_from].
    + injection Hj as ->.
      rewrite xfb_input_vars_from_other.
      * rewrite (proj2 (mode_eqb_eq _ _) Hm), Hr. cbn [andb].
        rewrite Z.eqb_refl. f_equal. lia.
      * intros w' Hin Hm' Hr'. apply In_nth_error in Hin. destruct Hin as [n Hn].
        apply (Hlast (S n) w'); auto. lia.
    + rewrite (IH (S i) _ j w Hj Hm Hr).
      * f_equal. lia.
      * intros j' w' Hlt Hj' Hm' Hr'. apply (Hlast (S j') w'); auto. lia.
Qed.

(** The variable at position [idx] after the second loop: marked when some
    always-active output of the list hits it, untouched otherwise. *)
Lemma xfb_mark_input_nth input_vars pvars :
  forall vars idx,
    nth_error (fold_left (xfb_mark_input X MAX_VARYING input_vars) pvars vars) idx
    = if existsb (xfb_hits X MAX_VARYING input_vars idx) pvars
      then option_map set_always_active_io (nth_error vars idx)
      else nth_error vars idx.
Proof.
  induction pvars as [| v rest IH]; intros vars idx; cbn [fold_left existsb];
    [reflexivity |].
  rewrite IH. unfold xfb_mark_input, xfb_hits at 2.
  destruct (mode_eqb (mode (data v)) nir_var_shader_out
            && in_generic_slots X MAX_VARYING v); cbn [andb orb]; [| reflexivity].
  destruct (always_active_io (data v)); cbn [negb andb orb]; [| reflexivity].
  destruct (input_vars (generic_slot X v)) as [i |]; cbn [orb]; [| reflexivity].
  rewrite update_nth_nth.
  destruct (Nat.eqb idx i); cbn [orb]; [| reflexivity].
  destruct (existsb _ rest); [| reflexivity].
  destruct (nth_error vars idx); reflexivity.
Qed.

(** X17. [nir_link_xfb_varyings] only raises the always-active flag of inputs:
    every variable of the consumer is left as it was or has that one flag
    set, and a variable that was changed is an input in a generic slot, not
    yet always-active, whose location an always-active output of the
    producer shares.  [MAX_VARYING] is a count of slots that fits an
    [unsigned]. *)
Theorem nir_link_xfb_varyings_only_flags producer consumer idx w :
  MAX_VARYING <= 2 ^ 32 ->
  nth_error (variables consumer) idx = Some w ->
  let after := nth_error (variables (nir_link_xfb_varyings X MAX_VARYING producer consumer))
                         idx in
  (after = Some w \/ after = Some (set_always_active_io w)) /\
  (after <> Some w ->
   mode (data w) = nir_var_shader_in /\
   VARYING_SLOT_VAR0 X <= location (data w) /\
   always_active_io (data w) = false /\
   exists v, In v (variables producer) /\
             mode (data v) = nir_var_shader_out /\
             always_active_io (data v) = true /\
             location (data v) = location (data w)).
Proof.
  intros Hmax Hw. cbv zeta. unfold nir_link_xfb_varyings. cbn [variables].
  rewrite xfb_mark_input_nth, Hw. cbn [option_map].
  destruct (existsb _ (variables producer)) eqn:E.
  2:{ split; [now left | congruence]. }
  split; [now right |]. intros Hchanged.
  apply existsb_exists in E. destruct E as (v & Hv & Hhit).
  unfold xfb_hits in Hhit.
  apply andb_true_iff in Hhit. destruct Hhit as [Hhit Hidx].
  apply andb_true_iff in Hhit. destruct Hhit as [Hhit Hact].
  apply andb_true_iff in Hhit. destruct Hhit as [Hmode Hrange].
  apply mode_eqb_eq in Hmode.
  destruct (xfb_input_vars X MAX_VARYING consumer (generic_slot X v)) as [i |] eqn:Ei;
    [| discriminate].
  apply Nat.eqb_eq in Hidx. subst i.
  unfold xfb_input_vars in Ei. apply xfb_input_vars_from_some in Ei.
  destruct Ei as [Ei | (w' & _ & Hw' & Hm' & Hr' & Hl')]; [discriminate |].
  rewrite Nat.sub_0_r, Hw in Hw'. injection Hw' as <-.
  unfold in_generic_slots in Hrange, Hr'.
  apply andb_true_iff in Hrange, Hr'.
  destruct Hrange as [Hv0 Hv1]. destruct Hr' as [Hw0 Hw1].
  apply Z.leb_le in Hv0, Hw0. apply Z.ltb_lt in Hv1, Hw1.
  assert (Hflag : always_active_io (data w) = false).
  { destruct (always_active_io (data w)) eqn:Ea; [| reflexivity].
    exfalso. apply Hchanged. f_equal.
    destruct w as [ty [m l lf dl p a x pv c s ce ip]]. cbn in Ea. subst a. reflexivity. }
  repeat split; auto.
  exists v. repeat split; auto.
  unfold generic_slot, Mach.u32, Mach.wrap in Hl'.
  rewrite !Z.mod_small in Hl' by lia. lia.
Qed.

(** X18. An input that [nir_link_xfb_varyings] has marked is out of reach of the
    removal pass: when the producer holds an always-active output in a
    generic slot and [w] is the last input of the consumer in that slot,
    [w] comes out always-active, and [nir_remove_unused_io_vars] then keeps
    it whatever masks it is given. *)
Theorem nir_link_xfb_varyings_protects producer consumer v j w :
  In v (variables producer) ->
  mode (data v) = nir_var_shader_out ->
  in_generic_slots X MAX_VARYING v = true ->
  always_active_io (data v) = true ->
  nth_error (variables consumer) j = Some w ->
  mode (data w) = nir_var_shader_in ->
  location (data w) = location (data v) ->
  (forall j' w', (j < j')%nat -> nth_error (variables consumer) j' = Some w' ->
                 mode (data w') = nir_var_shader_in ->
                 in_generic_slots X MAX_VARYING w' = true ->
                 generic_slot X w' <> generic_slot X w) ->
  let consumer' := nir_link_xfb_varyings X MAX_VARYING producer consumer in
  nth_error (variables consumer') j = Some (set_always_active_io w) /\
  forall used usedp,
    nth_error (variables (snd (nir_remove_unused_io_vars X consumer' nir_var_shader_in
                                                         used usedp))) j
    = Some (set_always_active_io w).
Proof.
  intros Hv Hmv Hrv Hav Hw Hmw Hloc Hlast. cbv zeta.
  assert (Hrw : in_generic_slots X MAX_VARYING w = true).
  { unfold in_generic_slots in *. now rewrite Hloc. }
  assert (Hslot : generic_slot X v = generic_slot X w).
  { unfold generic_slot. now rewrite Hloc. }
  assert (Hmarked : nth_error (variables (nir_link_xfb_varyings X MAX_VARYING
                                                                producer consumer)) j
                    = Some (set_always_active_io w)).
  { unfold nir_link_xfb_varyings. cbn [variables].
    rewrite xfb_mark_input_nth, Hw. cbn [option_map].
    replace (existsb _ (variables producer)) with true; [reflexivity |].
    symmetry. apply existsb_exists. exists v. split; [exact Hv |].
    unfold xfb_hits. rewrite (proj2 (mode_eqb_eq _ _) Hmv), Hrv, Hav. cbn [andb].
    rewrite Hslot. unfold xfb_input_vars.
    rewrite (xfb_input_vars_from_last (variables consumer) 0 _ j w Hw Hmw Hrw Hlast).
    apply Nat.eqb_refl. }
  split; [exact Hmarked |].
  intros used usedp.
  rewrite (nir_remove_unused_io_vars_nth X _ _ _ _ j _ Hmarked).
  replace (is_unused_io_var X _ used usedp (set_always_active_io w)) with false;
    [now rewrite andb_false_r |].
  symmetry. unfold is_unused_io_var. cbn [set_always_active_io data always_active_io].
  destruct ((_ <? _) && _); reflexivity.
Qed.

End XfbFacts.

(** X17 on an always-active output and an input at slot 33. *)
Lemma nir_link_xfb_varyings_only_flags_witness :
  nth_error
    (variables (nir_link_xfb_varyings
                  ex 32
                  (ex_shader MESA_SHADER_VERTEX
                             [set_always_active_io (ex_var nir_var_shader_out 33 0 false)] [])
                  (ex_shader MESA_SHADER_FRAGMENT [ex_var nir_var_shader_in 33 0 false] [])))
    0
  = Some (set_always_active_io (ex_var nir_var_shader_in 33 0 false)).
Proof.
  destruct (nir_link_xfb_varyings_only_flags
              ex 32
              (ex_shader MESA_SHADER_VERTEX
                         [set_always_active_io (ex_var nir_var_shader_out 33 0 false)] [])
              (ex_shader MESA_SHADER_FRAGMENT [ex_var nir_var_shader_in 33 0 false] [])
              0%nat (ex_var nir_var_shader_in 33 0 false)
              ltac:(lia) eq_refl) as [[H | H] _].
  - vm_compute in H. congruence.
  - exact H.
Defined.

(** X18 on the same pair, followed by a removal pass with all-zero masks. *)
Lemma nir_link_xfb_varyings_protects_witness :
  let consumer' :=
    nir_link_xfb_varyings
      ex 32
      (ex_shader MESA_SHADER_VERTEX
                 [set_always_active_io (ex_var nir_var_shader_out 33 0 false)] [])
      (ex_shader MESA_SHADER_FRAGMENT [ex_var nir_var_shader_in 33 0 false] []) in
  nth_error (variables consumer') 0
  = Some (set_always_active_io (ex_var nir_var_shader_in 33 0 false)) /\
  nth_error (variables (snd (nir_remove_unused_io_vars
                               ex consumer' nir_var_shader_in
                               [0; 0; 0; 0] [0; 0; 0; 0]))) 0
  = Some (set_always_active_io (ex_var nir_var_shader_in 33 0 false)).
Proof.
  cbv zeta.
  destruct (nir_link_xfb_varyings_protects
              ex 32
              (ex_shader MESA_SHADER_VERTEX
                         [set_always_active_io (ex_var nir_var_shader_out 33 0 false)] [])
              (ex_shader MESA_SHADER_FRAGMENT [ex_var nir_var_shader_in 33 0 false] [])
              (set_always_active_io (ex_var nir_var_shader_out 33 0 false))
              0%nat (ex_var nir_var_shader_in 33 0 false))
    as [Hmark Hkeep];
    try reflexivity.
  - left. reflexivity.
  - intros j' w' Hlt Hn. destruct j' as [| [| j']]; [lia | discriminate | discriminate].
  - split; [exact Hmark | apply Hkeep].
Defined.

(** *** Linked slots and driver locations *)

Lemma count_fold_shift {A : Type} (p : A -> bool) l :
  forall acc,
    fold_left (fun acc i => if p i then acc + 1 else acc) l acc
    = acc + fold_left (fun acc i => if p i then acc + 1 else acc) l 0.
Proof.
  induction l as [| x l IH]; intros acc; cbn [fold_left]; [lia |].
  rewrite (IH (if p x then acc + 1 else acc)), (IH (if p x then 0 + 1 else 0)).
  destruct (p x); lia.
Qed.

(** Counting with a stronger test counts less, and strictly less when some
    element passes the weaker test only. *)
Lemma count_fold_le {A : Type} (p q : A -> bool) l :
  (forall i, In i l -> p i = true -> q i = true) ->
  fold_left (fun acc i => if p i then acc + 1 else acc) l 0
  <= fold_left (fun acc i => if q i then acc + 1 else acc) l 0.
Proof.
  induction l as [| x l IH]; intros H; cbn [fold_left]; [lia |].
  rewrite (count_fold_shift p l (if p x then 0 + 1 else 0)).
  rewrite (count_fold_shift q l (if q x then 0 + 1 else 0)).
  specialize (IH (fun i Hi => H i (or_intror Hi))).
  pose proof (H x (or_introl eq_refl)) as Hx.
  destruct (p x), (q x); try lia; specialize (Hx eq_refl); discriminate.
Qed.

Lemma count_fold_lt {A : Type} (p q : A -> bool) l j :
  (forall i, In i l -> p i = true -> q i = true) ->
  In j l -> p j = false -> q j = true ->
  fold_left (fun acc i => if p i then acc + 1 else acc) l 0 + 1
  <= fold_left (fun acc i => if q i then acc + 1 else acc) l 0.
Proof.
  induction l as [| x l IH]; intros H Hj Hp Hq; [destruct Hj |].
  cbn [fold_left].
  rewrite (count_fold_shift p l (if p x then 0 + 1 else 0)).
  rewrite (count_fold_shift q l (if q x then 0 + 1 else 0)).
  pose proof (H x (or_introl eq_refl)) as Hx.
  destruct Hj as [-> | Hj].
  - rewrite Hp, Hq.
    pose proof (count_fold_le p q l (fun i Hi => H i (or_intror Hi))). lia.
  - specialize (IH (fun i Hi => H i (or_intror Hi)) Hj Hp Hq).
    destruct (p x), (q x); try lia; specialize (Hx eq_refl); discriminate.
Qed.

Lemma testbit_below m loc i :
  0 <= loc -> 0 <= i ->
  Z.testbit (Z.land m (Z.ones loc)) i = Z.testbit m i && (i <? loc).
Proof.
  intros Hloc Hi. rewrite Z.land_spec. f_equal.
  apply Z.testbit_ones_nonneg; assumption.
Qed.

(** The set bits of a mask below a slot it holds are fewer than those
    below any later slot, and fewer than all its set bits. *)
Lemma util_bitcount64_below_lt m l1 l2 :
  0 <= l1 < l2 -> l1 < 64 -> Z.testbit m l1 = true ->
  util_bitcount64 (Z.land m (Z.ones l1)) + 1 <= util_bitcount64 (Z.land m (Z.ones l2)).
Proof.
  intros Hl H64 Hbit. unfold util_bitcount64.
  apply (count_fold_lt _ _ (seq 0 64) (Z.to_nat l1)).
  - intros i _. rewrite !testbit_below by lia.
    intros H. apply andb_true_iff in H. destruct H as [-> H]. apply Z.ltb_lt in H.
    cbn [andb]. apply Z.ltb_lt. lia.
  - apply in_seq. lia.
  - rewrite testbit_below by lia. rewrite Z2Nat.id by lia.
    rewrite Z.ltb_irrefl. apply andb_false_r.
  - rewrite testbit_below by lia. rewrite Z2Nat.id by lia. rewrite Hbit.
    cbn [andb]. apply Z.ltb_lt. lia.
Qed.

Lemma util_bitcount64_below_total m l1 :
  0 <= l1 < 64 -> Z.testbit m l1 = true ->
  util_bitcount64 (Z.land m (Z.ones l1)) + 1 <= util_bitcount64 m.
Proof.
  intros Hl Hbit. unfold util_bitcount64.
  apply (count_fold_lt _ _ (seq 0 64) (Z.to_nat l1)).
  - intros i _. rewrite testbit_below by lia.
    intros H. apply andb_true_iff in H. now destruct H.
  - apply in_seq. lia.
  - rewrite testbit_below by lia. rewrite Z2Nat.id by lia.
    rewrite Z.ltb_irrefl. apply andb_false_r.
  - rewrite Z2Nat.id by lia. exact Hbit.
Qed.

Lemma land_testbit a b i :
  Z.land a b = a -> Z.testbit a i = true -> Z.testbit b i = true.
Proof.
  intros H Ha. rewrite <- H in Ha. rewrite Z.land_spec in Ha.
  apply andb_true_iff in Ha. now destruct Ha.
Qed.

Lemma shl64_testbit mask loc :
  0 <= loc < 64 -> Z.testbit mask 0 = true -> Z.testbit (shl64 mask loc) loc = true.
Proof.
  intros Hloc Hbit. unfold shl64, Mach.u64, Mach.wrap.
  replace (loc <? 64) with true by (symmetry; apply Z.ltb_lt; lia).
  rewrite Z.mod_pow2_bits_low by lia.
  rewrite Z.shiftl_spec by lia. now rewrite Z.sub_diag.
Qed.

(** A non-empty mask of consecutive slots from slot 0 holds slot 0. *)
Lemma u_bit_consecutive64_first count mask :
  u_bit_consecutive64 0 count = Some mask -> mask <> 0 -> Z.testbit mask 0 = true.
Proof.
  unfold u_bit_consecutive64. intros H Hne.
  destruct (64 <? 0 + count) eqn:E64; [discriminate |]. apply Z.ltb_ge in E64.
  destruct (count =? 64) eqn:Ec.
  { injection H as <-. reflexivity. }
  apply Z.eqb_neq in Ec. injection H as <-.
  unfold shl64 in *.
  replace (count <? 64) with true in * by (symmetry; apply Z.ltb_lt; lia).
  cbn [Z.ltb Z.compare] in *. rewrite Z.shiftl_0_r in *.
  rewrite Z.shiftl_1_l in *.
  destruct (Z_lt_ge_dec count 0) as [Hneg | Hpos].
  - rewrite Z.pow_neg_r in * by lia. reflexivity.
  - destruct (Z.eq_dec count 0) as [-> | Hc]; [exfalso; apply Hne; reflexivity |].
    assert (0 < 2 ^ count < 2 ^ 64).
    { split; [apply Z.pow_pos_nonneg; lia | apply Z.pow_lt_mono_r; lia]. }
    rewrite (MachFacts.u64_small (2 ^ count)) by lia.
    rewrite (MachFacts.u64_small (2 ^ count - 1)) by lia.
    rewrite (MachFacts.u64_small (2 ^ count - 1)) by lia.
    replace (2 ^ count - 1) with (Z.ones count) by (rewrite Z.ones_equiv; lia).
    rewrite Z.testbit_ones_nonneg by lia.
    apply Z.ltb_lt. lia.
Qed.

Section LinkedFacts.

Variable X : nir_externals.

Lemma get_linked_variable_location_nonneg l p loc :
  get_linked_variable_location X (Mach.u32 l) p = Some loc -> 0 <= loc.
Proof.
  unfold get_linked_variable_location. intros H.
  destruct p; cbn [negb] in H.
  - destruct (_ <=? _); [injection H as <-; apply MachFacts.u32_range |].
    destruct (_ && _); [injection H as <-; apply MachFacts.u32_range | discriminate].
  - injection H as <-. apply MachFacts.u32_range.
Qed.

(** When the masks of a mode are defined, every variable of the mode has a
    linked mask and a linked slot below 64, and its mask shifted to its
    slot is part of the mask of its patch-ness. *)
Lemma linked_io_masks_fold stage mode_ vars :
  forall acc m pm,
    fold_left
      (fun acc variable =>
         match acc with
         | None => None
         | Some (m, pm) =>
             if mode_eqb (mode (data variable)) mode_ then
               match get_linked_variable_io_mask X variable stage,
                     get_linked_variable_location X (Mach.u32 (location (data variable)))
                                                  (patch (data variable)) with
               | Some mask, Some loc =>
                   if 64 <=? loc then None
                   else if patch (data variable)
                        then Some (m, Z.lor pm (shl64 mask loc))
                        else Some (Z.lor m (shl64 mask loc), pm)
               | _, _ => None
               end
             else acc
         end) vars acc = Some (m, pm) ->
    exists m0 pm0,
      acc = Some (m0, pm0) /\
      (forall i, Z.testbit m0 i = true -> Z.testbit m i = true) /\
      (forall i, Z.testbit pm0 i = true -> Z.testbit pm i = true) /\
      forall v, In v vars -> mode (data v) = mode_ ->
        exists mask loc,
          get_linked_variable_io_mask X v stage = Some mask /\
          get_linked_variable_location X (Mach.u32 (location (data v))) (patch (data v))
          = Some loc /\
          0 <= loc < 64 /\
          forall i, Z.testbit (shl64 mask loc) i = true ->
                    Z.testbit (if patch (data v) then pm else m) i = true.
Proof.
  induction vars as [| x vars IH]; intros acc m pm H; cbn [fold_left] in H.
  - subst acc. exists m, pm. repeat split; auto. intros v [].
  - apply IH in H. destruct H as (m1 & pm1 & Hacc & Hm1 & Hpm1 & Hvars).
    destruct acc as [[m0 pm0] |]; [| discriminate].
    exists m0, pm0. split; [reflexivity |].
    destruct (mode_eqb (mode (data x)) mode_) eqn:Em.
    + destruct (get_linked_variable_io_mask X x stage) as [mask |] eqn:Emask;
        [| discriminate].
      destruct (get_linked_variable_location X _ _) as [loc |] eqn:Eloc; [| discriminate].
      destruct (64 <=? loc) eqn:E64; [discriminate |]. apply Z.leb_gt in E64.
      pose proof (get_linked_variable_location_nonneg _ _ _ Eloc) as Hnn.
      assert (Hx : (forall i, Z.testbit m0 i = true -> Z.testbit m i = true) /\
                   (forall i, Z.testbit pm0 i = true -> Z.testbit pm i = true) /\
                   (forall i, Z.testbit (shl64 mask loc) i = true ->
                              Z.testbit (if patch (data x) then pm else m) i = true)).
      { destruct (patch (data x)); apply some_inj in Hacc; injection Hacc as <- <-;
          repeat split; intros i Hi;
          first [ apply Hm1 | apply Hpm1 ]; rewrite ?Z.lor_spec, ?Hi;
          auto using orb_true_r. }
      destruct Hx as (H1 & H2 & H3).
      repeat split; try assumption.
      intros v [<- | Hv] Hmv.
      * exists mask, loc. repeat split; auto.
      * now apply Hvars.
    + apply some_inj in Hacc. injection Hacc as <- <-.
      repeat split; try assumption.
      intros v [-> | Hv] Hmv.
      * rewrite (proj2 (mode_eqb_eq _ _) Hmv) in Em. discriminate.
      * now apply Hvars.
Qed.


(** What a successful call gives each variable of the interface. *)
Lemma nir_assign_linked_io_var_locations_value producer consumer info producer' consumer' :
  nir_assign_linked_io_var_locations X producer consumer
  = Some (info, producer', consumer') ->
  exists io pio,
    num_linked_io_vars info = util_bitcount64 io /\
    num_linked_patch_io_vars info = util_bitcount64 pio /\
    forall stage u u',
      interface_variable producer consumer producer' consumer' stage u u' ->
      exists mask loc,
        get_linked_variable_io_mask X u stage = Some mask /\
        get_linked_variable_location X (Mach.u32 (location (data u))) (patch (data u))
        = Some loc /\
        0 <= loc < 64 /\
        (forall i, Z.testbit (shl64 mask loc) i = true ->
                   Z.testbit (if patch (data u) then pio else io) i = true) /\
        driver_location (data u')
        = util_bitcount64 (Z.land (if patch (data u) then pio else io) (Z.ones loc)) * 4.
Proof.
  unfold nir_assign_linked_io_var_locations. intros Hres.
  destruct (linked_io_masks X producer nir_var_shader_out) as [[po ppo] |] eqn:Ep;
    [| discriminate].
  destruct (linked_io_masks X consumer nir_var_shader_in) as [[ci cpi] |] eqn:Ec;
    [| discriminate].
  destruct (assign_linked_locations X producer _ _ _) as [p1 |] eqn:Eap; [| discriminate].
  destruct (assign_linked_locations X consumer _ _ _) as [c1 |] eqn:Eac; [| discriminate].
  apply some_inj in Hres.
  apply pair_equal_spec in Hres. destruct Hres as [Hres <-].
  apply pair_equal_spec in Hres. destruct Hres as [<- <-].
  exists (Z.lor po ci), (Z.lor ppo cpi).
  split; [reflexivity |]. split; [reflexivity |].
  unfold linked_io_masks in Ep, Ec.
  apply linked_io_masks_fold in Ep. destruct Ep as (? & ? & Ep0 & _ & _ & Hp).
  apply linked_io_masks_fold in Ec. destruct Ec as (? & ? & Ec0 & _ & _ & Hc).
  intros stage u u' [[-> (i & Hu & Hm & Hu')] | [-> (j & Hu & Hm & Hu')]].
  - destruct (Hp u (nth_error_In _ _ Hu) Hm) as (mask & loc & Hmask & Hloc & Hr & Hbits).
    exists mask, loc. repeat split; try assumption; try lia.
    + intros b Hb. specialize (Hbits b Hb).
      destruct (patch (data u)); rewrite Z.lor_spec, Hbits; reflexivity.
    + assert (Hl : linkable X (info_stage producer) u) by (exists mask, loc; auto).
      destruct (assign_linked_locations_nth X _ _ _ _ _ _ _ Eap Hu Hm Hl)
        as (loc' & Hloc' & Hn).
      rewrite Hloc in Hloc'. apply some_inj in Hloc'. subst loc'.
      rewrite Hu' in Hn. apply some_inj in Hn. rewrite Hn. reflexivity.
  - destruct (Hc u (nth_error_In _ _ Hu) Hm) as (mask & loc & Hmask & Hloc & Hr & Hbits).
    exists mask, loc. repeat split; try assumption; try lia.
    + intros b Hb. specialize (Hbits b Hb).
      destruct (patch (data u)); rewrite Z.lor_spec, Hbits; apply orb_true_r.
    + assert (Hl : linkable X (info_stage consumer) u) by (exists mask, loc; auto).
      destruct (assign_linked_locations_nth X _ _ _ _ _ _ _ Eac Hu Hm Hl)
        as (loc' & Hloc' & Hn).
      rewrite Hloc in Hloc'. apply some_inj in Hloc'. subst loc'.
      rewrite Hu' in Hn. apply some_inj in Hn. rewrite Hn. reflexivity.
Qed.

(** X22. After [nir_assign_linked_io_var_locations], driver locations follow the
    linked slots: of two variables of the interface with the same
    patch-ness, the one in the lower linked slot, when it occupies at least
    one slot, gets a driver location at least 4 below the other's, and its
    own vec4 fits below 4 times the count the call reports for its
    patch-ness; driver locations are multiples of 4. *)
Theorem nir_assign_linked_io_var_locations_increasing
        producer consumer info producer' consumer' sv v v' sw w w' lv lw mask :
  nir_assign_linked_io_var_locations X producer consumer
  = Some (info, producer', consumer') ->
  interface_variable producer consumer producer' consumer' sv v v' ->
  interface_variable producer consumer producer' consumer' sw w w' ->
  patch (data v) = patch (data w) ->
  get_linked_variable_location X (Mach.u32 (location (data v))) (patch (data v)) = Some lv ->
  get_linked_variable_location X (Mach.u32 (location (data w))) (patch (data w)) = Some lw ->
  get_linked_variable_io_mask X v sv = Some mask ->
  mask <> 0 ->
  lv < lw ->
  driver_location (data v') + 4 <= driver_location (data w') /\
  driver_location (data v') + 4
  <= 4 * (if patch (data v) then num_linked_patch_io_vars info
          else num_linked_io_vars info) /\
  driver_location (data v') mod 4 = 0 /\
  driver_location (data w') mod 4 = 0.
Proof.
  intros Hres Hv Hw Hp Hlv Hlw Hmask Hne Hlt.
  destruct (nir_assign_linked_io_var_locations_value _ _ _ _ _ Hres)
    as (io & pio & Hio & Hpio & Hvars).
  destruct (Hvars sv v v' Hv) as (mask1 & loc1 & Hm1 & Hl1 & Hr1 & Hb1 & Hd1).
  destruct (Hvars sw w w' Hw) as (mask2 & loc2 & Hm2 & Hl2 & Hr2 & Hb2 & Hd2).
  rewrite Hmask in Hm1. apply some_inj in Hm1. subst mask1.
  rewrite Hlv in Hl1. apply some_inj in Hl1. subst loc1.
  rewrite Hlw in Hl2. apply some_inj in Hl2. subst loc2.
  assert (Hfirst : Z.testbit mask 0 = true).
  { unfold get_linked_variable_io_mask in Hmask.
    eapply u_bit_consecutive64_first; eauto. }
  assert (Hbit : Z.testbit (if patch (data v) then pio else io) lv = true).
  { apply Hb1. apply shl64_testbit; assumption. }
  rewrite Hd1, Hd2, <- Hp.
  pose proof (util_bitcount64_below_lt _ lv lw ltac:(lia) ltac:(lia) Hbit).
  pose proof (util_bitcount64_below_total _ lv ltac:(lia) Hbit).
  rewrite Hio, Hpio. split; [lia |]. split; [destruct (patch (data v)); lia |].
  split; apply Z.mod_mul; lia.
Qed.

End LinkedFacts.


(** X22 on outputs at slots 32 and 35 and an input at slot 35. *)
Lemma nir_assign_linked_io_var_locations_increasing_witness :
  exists info producer' consumer' v' w',
    nir_assign_linked_io_var_locations
      ex
      (ex_shader MESA_SHADER_VERTEX
                 [ex_var nir_var_shader_out 32 0 false; ex_var nir_var_shader_out 35 0 false] [])
      (ex_shader MESA_SHADER_FRAGMENT [ex_var nir_var_shader_in 35 0 false] [])
    = Some (info, producer', consumer') /\
    nth_error (variables producer') 0 = Some v' /\
    nth_error (variables consumer') 0 = Some w' /\
    driver_location (data v') + 4 <= driver_location (data w') /\
    driver_location (data v') + 4 <= 4 * num_linked_io_vars info.
Proof.
  do 5 eexists. split; [reflexivity |]. split; [reflexivity |]. split; [reflexivity |].
  refine ((fun H => conj (proj1 H) (proj1 (proj2 H))) _).
  apply (nir_assign_linked_io_var_locations_increasing
           ex
           (ex_shader MESA_SHADER_VERTEX
                      [ex_var nir_var_shader_out 32 0 false;
                       ex_var nir_var_shader_out 35 0 false] [])
           (ex_shader MESA_SHADER_FRAGMENT [ex_var nir_var_shader_in 35 0 false] [])
           _ _ _
           MESA_SHADER_VERTEX (ex_var nir_var_shader_out 32 0 false) _
           MESA_SHADER_FRAGMENT (ex_var nir_var_shader_in 35 0 false) _
           32 35 1 eq_refl).
  - left. split; [reflexivity |]. exists 0%nat. repeat split; reflexivity.
  - right. split; [reflexivity |]. exists 0%nat. repeat split; reflexivity.
  - reflexivity.
  - reflexivity.
  - reflexivity.
  - reflexivity.
  - discriminate.
  - lia.
Defined.

(** *** Assigning remap locations in the varying compactor *)

Lemma land_bit_clear slot_comps t :
  0 <= t -> Z.land slot_comps (Z.shiftl 1 t) = 0 -> Z.testbit slot_comps t = false.
Proof.
  intros Ht H. destruct (Z.testbit slot_comps t) eqn:E; [| reflexivity].
  assert (Hb : Z.testbit (Z.land slot_comps (Z.shiftl 1 t)) t = true).
  { rewrite Z.land_spec, E, Z.shiftl_spec by lia. now rewrite Z.sub_diag. }
  rewrite H, Z.bits_0 in Hb. discriminate.
Qed.

(** The inner loop stops on a component of the slot that is free, or on 4. *)
Lemma skip_assigned_spec slot_comps fuel :
  forall t,
    0 <= t <= 4 -> 4 - t <= Z.of_nat fuel ->
    t <= skip_assigned fuel slot_comps t <= 4 /\
    (skip_assigned fuel slot_comps t < 4 ->
     Z.testbit slot_comps (skip_assigned fuel slot_comps t) = false).
Proof.
  induction fuel as [| fuel IH]; intros t Ht Hfuel; cbn [skip_assigned].
  - split; [lia |]. intros. lia.
  - destruct ((t <? 4) && negb (Z.land slot_comps (Z.shiftl 1 t) =? 0)) eqn:E.
    + apply andb_true_iff in E. destruct E as [E _]. apply Z.ltb_lt in E.
      destruct (IH (t + 1)) as [H1 H2]; [lia | lia |]. split; [lia | exact H2].
    + split; [lia |]. intros Hlt.
      apply andb_false_iff in E. destruct E as [E | E].
      * apply Z.ltb_ge in E. lia.
      * apply negb_false_iff, Z.eqb_eq in E. apply land_bit_clear; [lia | exact E].
Qed.

Lemma store_same {A : Type} (a : Z -> A) i x : store a i x i = x.
Proof. unfold store. now rewrite Z.eqb_refl. Qed.

Lemma store_other {A : Type} (a : Z -> A) i x k : k <> i -> store a i x k = a k.
Proof. intros H. unfold store. now rewrite (proj2 (Z.eqb_neq _ _) H). Qed.

Lemma store2_same {A : Type} (a : Z -> Z -> A) i j x : store2 a i j x i j = x.
Proof. unfold store2. now rewrite !Z.eqb_refl. Qed.

Lemma store2_other {A : Type} (a : Z -> Z -> A) i j x k l :
  (k, l) <> (i, j) -> store2 a i j x k l = a k l.
Proof.
  intros H. unfold store2.
  destruct (k =? i) eqn:E1; [| reflexivity].
  destruct (l =? j) eqn:E2; [| reflexivity].
  apply Z.eqb_eq in E1, E2. congruence.
Qed.

Lemma u8_small x : 0 <= x < 2 ^ 8 -> Mach.u8 x = x.
Proof. intros H. unfold Mach.u8, Mach.wrap. now apply Z.mod_small. Qed.

Section CompactFacts.

Variable X : nir_externals.
Variable MAX_VARYING : Z.
Variable MAX_VARYINGS_INCL_PATCH : Z.

Lemma assign_remap_loop_spec info max_location fuel :
  forall remap assigned cursor comp st,
    0 <= cursor -> 0 <= comp <= 4 ->
    max_location - cursor <= Z.of_nat fuel ->
    assign_remap_loop X MAX_VARYINGS_INCL_PATCH fuel remap assigned info
                      cursor comp max_location = Some st ->
    no_slot_found remap assigned cursor max_location st \/
    slot_taken X MAX_VARYINGS_INCL_PATCH remap assigned info cursor max_location st.
Proof.
  induction fuel as [| fuel IH]; intros remap assigned cursor comp st Hc Hcomp Hfuel H;
    cbn [assign_remap_loop] in H.
  - injection H as <-. left. unfold no_slot_found. cbn [st_cursor st_comp st_remap st_assigned].
    repeat split; lia.
  - destruct (cursor <? max_location) eqn:Elt; cbn [negb] in H.
    2:{ injection H as <-. left. apply Z.ltb_ge in Elt.
        unfold no_slot_found. cbn [st_cursor st_comp st_remap st_assigned].
    repeat split; lia. }
    apply Z.ltb_lt in Elt.
    destruct ((0 <=? cursor) && (cursor <? MAX_VARYINGS_INCL_PATCH)) eqn:Ein;
      cbn [negb] in H; [| discriminate].
    apply andb_true_iff in Ein. destruct Ein as [_ Ein]. apply Z.ltb_lt in Ein.
    assert (Hnext : forall st',
               assign_remap_loop X MAX_VARYINGS_INCL_PATCH fuel remap assigned info
                                 (cursor + 1) 0 max_location = Some st' ->
               no_slot_found remap assigned cursor max_location st' \/
               slot_taken X MAX_VARYINGS_INCL_PATCH remap assigned info cursor max_location st').
    { intros st' H'. apply IH in H'; try lia.
      destruct H' as [(H1 & H2 & H3 & H4 & H5) | H'].
      - left. unfold no_slot_found. repeat split; auto; lia.
      - right. unfold slot_taken in *. cbv zeta in *.
        destruct H' as (H1 & H'). split; [lia | exact H']. }
    cbv zeta in H.
    destruct (comps (assigned cursor) =? 0) eqn:Ez; cbn [negb andb] in H.
    + (* the slot is empty *)
      apply Z.eqb_eq in Ez.
      destruct (comp =? 4) eqn:E4; [now apply Hnext |].
      apply Z.eqb_neq in E4.
      destruct (negb _) eqn:Er in H; [discriminate |].
      apply negb_false_iff in Er.
      apply andb_true_iff in Er. destruct Er as [Er Er3].
      apply andb_true_iff in Er. destruct Er as [Er1 Er2].
      apply Z.ltb_lt in Er1, Er3. apply Z.leb_le in Er2.
      injection H as <-. right. unfold slot_taken, remap_key.
      cbn [st_cursor st_comp st_remap st_assigned fst snd].
      rewrite (MachFacts.u32_small (comp + 1)) by lia.
      replace (comp + 1 - 1) with comp by lia.
      rewrite (u8_small comp) by lia.
      repeat split; try lia; try congruence.
      * rewrite Ez. apply Z.bits_0.
      * apply MachFacts.u32_range.
    + (* the slot holds components *)
      apply Z.eqb_neq in Ez.
      destruct (negb (comps_interp_type (assigned cursor) =? interp_type info)
                || negb (comps_interp_loc (assigned cursor) =? interp_loc info)) eqn:Ei;
        [now apply Hnext |].
      apply orb_false_iff in Ei. destruct Ei as [Ei1 Ei2].
      apply negb_false_iff, Z.eqb_eq in Ei1, Ei2.
      destruct (comps_is_32bit (assigned cursor)) eqn:E32; cbn [negb] in H;
        [| now apply Hnext].
      destruct (skip_assigned_spec (comps (assigned cursor)) 4 comp Hcomp ltac:(lia))
        as [Hr Hfree].
      set (c := skip_assigned 4 (comps (assigned cursor)) comp) in *.
      destruct (c =? 4) eqn:E4; [now apply Hnext |].
      apply Z.eqb_neq in E4.
      destruct (negb _) eqn:Er in H; [discriminate |].
      apply negb_false_iff in Er.
      apply andb_true_iff in Er. destruct Er as [Er Er3].
      apply andb_true_iff in Er. destruct Er as [Er1 Er2].
      apply Z.ltb_lt in Er1, Er3. apply Z.leb_le in Er2.
      injection H as <-. right. unfold slot_taken, remap_key.
      cbn [st_cursor st_comp st_remap st_assigned fst snd].
      rewrite (MachFacts.u32_small (c + 1)) by lia.
      replace (c + 1 - 1) with c by lia.
      rewrite (u8_small c) by lia.
      repeat split; try lia; try congruence.
      * apply Hfree. lia.
      * apply MachFacts.u32_range.
Qed.

(** X23. [assign_remap_locations] never hands out a component that is taken:
    when it returns it has either found no slot and left both arrays as
    they were, or moved the cursor to a slot [s] below [max_location] and
    taken there a component [c] that was free; a slot that already held
    components had the interpolation type and location of the record and
    was 32-bit; the record's entry of [remap] names [(s, c)] and no other
    entry of either array has changed. *)
Theorem assign_remap_locations_takes_free remap assigned info cursor comp max_location st :
  0 <= cursor -> 0 <= comp <= 4 ->
  assign_remap_locations X MAX_VARYINGS_INCL_PATCH remap assigned info
                         cursor comp max_location = Some st ->
  no_slot_found remap assigned cursor max_location st \/
  slot_taken X MAX_VARYINGS_INCL_PATCH remap assigned info cursor max_location st.
Proof.
  intros Hc Hcomp H. unfold assign_remap_locations in H.
  apply (assign_remap_loop_spec info max_location (Z.to_nat (max_location - cursor))
                                remap assigned cursor comp st Hc Hcomp);
    [lia | exact H].
Qed.

(** The generic slots start above slot 0 and the remapped locations fit a
    [uint32_t]. *)
Hypothesis VAR0_positive : 0 < VARYING_SLOT_VAR0 X.
Hypothesis slots_fit : VARYING_SLOT_VAR0 X + MAX_VARYINGS_INCL_PATCH <= 2 ^ 32.
Hypothesis MAX_VARYING_nonneg : 0 <= MAX_VARYING.

Lemma u8_testbit x c : 0 <= c < 4 -> Z.testbit (Mach.u8 x) c = Z.testbit x c.
Proof. intros H. unfold Mach.u8, Mach.wrap. apply Z.mod_pow2_bits_low. lia. Qed.

Lemma assign_remap_locations_invariant assigned0 st info cursor comp max_location st' :
  remap_invariant X MAX_VARYINGS_INCL_PATCH assigned0 st ->
  0 <= cursor -> 0 <= comp <= 4 ->
  assign_remap_locations X MAX_VARYINGS_INCL_PATCH (st_remap st) (st_assigned st) info
                         cursor comp max_location = Some st' ->
  remap_invariant X MAX_VARYINGS_INCL_PATCH assigned0 st'.
Proof.
  intros (_ & _ & Hmono & Hset & Hinj) Hc Hcomp H.
  unfold assign_remap_locations in H.
  apply (assign_remap_loop_spec info max_location (Z.to_nat (max_location - cursor))
                                _ _ cursor comp st' Hc Hcomp) in H; [| lia].
  destruct H as [(H1 & H2 & H3 & H4 & H5) | H].
  { unfold remap_invariant. rewrite H4, H5.
    split; [lia |]. split; [lia |]. split; [exact Hmono |].
    split; [exact Hset | exact Hinj]. }
  unfold slot_taken in H. cbv zeta in H.
  destruct H as (Hs & Hs' & Hcc & Hfree & _ & Ha & Hk1 & Hk2 & Hr).
  set (s := st_cursor st') in *. set (c := st_comp st' - 1) in *.
  set (key := remap_key X info) in *.
  assert (Hloc : Mach.u32 (s + VARYING_SLOT_VAR0 X) = s + VARYING_SLOT_VAR0 X)
    by (apply MachFacts.u32_small; lia).
  assert (Hmono' : forall s2 c2, 0 <= c2 < 4 ->
                     Z.testbit (comps (st_assigned st s2)) c2 = true ->
                     Z.testbit (comps (st_assigned st' s2)) c2 = true).
  { intros s2 c2 Hc2 Hb. rewrite Ha. unfold store.
    destruct (s2 =? s) eqn:E; [| exact Hb].
    apply Z.eqb_eq in E. subst s2. cbn [comps].
    rewrite u8_testbit by lia. rewrite Z.lor_spec, Hb. reflexivity. }
  assert (Hnew : Z.testbit (comps (st_assigned st' s)) c = true).
  { rewrite Ha, store_same. cbn [comps]. rewrite u8_testbit by lia.
    rewrite Z.lor_spec, Z.shiftl_spec by lia. rewrite Z.sub_diag. apply orb_true_r. }
  assert (Hinit : Z.testbit (comps (assigned0 s)) c = false).
  { destruct (Z.testbit (comps (assigned0 s)) c) eqn:E; [| reflexivity].
    rewrite (Hmono s c Hcc E) in Hfree. discriminate. }
  assert (Hother : forall l f, (l, f) <> (fst key, snd key) ->
                               st_remap st' l f = st_remap st l f).
  { intros l f Hne. rewrite Hr. now apply store2_other. }
  assert (Hkey : st_remap st' (fst key) (snd key)
                 = {| component := c; remap_location := s + VARYING_SLOT_VAR0 X |}).
  { rewrite Hr, store2_same, Hloc. reflexivity. }
  assert (Hclash : forall l f,
             (l, f) <> (fst key, snd key) ->
             remap_location (st_remap st l f) <> 0 ->
             st_remap st l f
             <> {| component := c; remap_location := s + VARYING_SLOT_VAR0 X |}).
  { intros l f Hne Hnz E. destruct (Hset l f Hnz) as (_ & _ & Hb & _).
    rewrite E in Hb. cbn [component remap_location] in Hb.
    replace (s + VARYING_SLOT_VAR0 X - VARYING_SLOT_VAR0 X) with s in Hb by lia.
    rewrite Hb in Hfree. discriminate. }
  unfold remap_invariant. split; [lia |]. split; [unfold c in Hcc; lia |].
  split; [| split].
  - intros s2 c2 Hc2 Hb. apply Hmono'; [exact Hc2 |]. now apply Hmono.
  - intros l f Hnz.
    destruct (Z.eq_dec l (fst key)) as [El | Nl];
      [destruct (Z.eq_dec f (snd key)) as [Ef | Nf] |].
    + subst l f. rewrite Hkey in *. cbn [component remap_location] in *.
      replace (s + VARYING_SLOT_VAR0 X - VARYING_SLOT_VAR0 X) with s by lia.
      repeat split; auto; lia.
    + assert (Hne : (l, f) <> (fst key, snd key)) by congruence.
      rewrite (Hother l f Hne) in *.
      destruct (Hset l f Hnz) as (H1 & H2 & H3 & H4).
      repeat split; auto; try lia.
    + assert (Hne : (l, f) <> (fst key, snd key)) by congruence.
      rewrite (Hother l f Hne) in *.
      destruct (Hset l f Hnz) as (H1 & H2 & H3 & H4).
      repeat split; auto; try lia.
  - intros l1 f1 l2 f2 Hne Hz1 Hz2.
    assert (Hd1 : (l1, f1) = (fst key, snd key) \/ (l1, f1) <> (fst key, snd key)).
    { destruct (Z.eq_dec l1 (fst key)), (Z.eq_dec f1 (snd key));
        [left; congruence | right; congruence ..]. }
    assert (Hd2 : (l2, f2) = (fst key, snd key) \/ (l2, f2) <> (fst key, snd key)).
    { destruct (Z.eq_dec l2 (fst key)), (Z.eq_dec f2 (snd key));
        [left; congruence | right; congruence ..]. }
    destruct Hd1 as [E1 | N1]; destruct Hd2 as [E2 | N2].
    + congruence.
    + assert (E1' : st_remap st' l1 f1
                    = {| component := c; remap_location := s + VARYING_SLOT_VAR0 X |})
        by (rewrite <- Hkey; congruence).
      rewrite E1'. rewrite (Hother l2 f2 N2) in *.
      intros E. apply (Hclash l2 f2 N2 Hz2). now symmetry.
    + assert (E2' : st_remap st' l2 f2
                    = {| component := c; remap_location := s + VARYING_SLOT_VAR0 X |})
        by (rewrite <- Hkey; congruence).
      rewrite E2'. rewrite (Hother l1 f1 N1) in *.
      now apply Hclash.
    + rewrite (Hother l1 f1 N1), (Hother l2 f2 N2) in *. now apply Hinj.
Qed.

Lemma compact_components_step_invariant assigned0 st info st' :
  remap_invariant X MAX_VARYINGS_INCL_PATCH assigned0 st ->
  compact_components_step X MAX_VARYING MAX_VARYINGS_INCL_PATCH st info = Some st' ->
  remap_invariant X MAX_VARYINGS_INCL_PATCH assigned0 st'.
Proof.
  intros Hinv H. unfold compact_components_step in H.
  pose proof Hinv as (Hc & Hcomp & _).
  destruct (is_patch info).
  - cbv zeta in H.
    destruct (st_cursor st <? MAX_VARYING);
      eapply assign_remap_locations_invariant; try exact H; try exact Hinv; lia.
  - destruct (assign_remap_locations _ _ (st_remap st) _ _ _ _ _) as [st1 |] eqn:E1;
      [| discriminate].
    assert (Hinv1 : remap_invariant X MAX_VARYINGS_INCL_PATCH assigned0 st1)
      by (eapply assign_remap_locations_invariant; try exact E1; try exact Hinv; lia).
    destruct (st_cursor st1 =? MAX_VARYING).
    + eapply assign_remap_locations_invariant; try exact H; try exact Hinv1; lia.
    + injection H as <-. exact Hinv1.
Qed.

(** X24. The compactor never packs two varyings into one component, nor a
    varying onto a component that could not be moved: after the loop that
    sets the remap array, started from an empty array, every entry that has
    been set names a component of a generic slot that was free in the
    [assigned_comps] the loop was given, and two entries that have been set
    name different components. *)
Theorem compact_components_remap_injective remap assigned varying_comp_info st :
  (forall l f, remap_location (remap l f) = 0) ->
  compact_components_remap X MAX_VARYING MAX_VARYINGS_INCL_PATCH
                           remap assigned varying_comp_info = Some st ->
  (forall l f,
      remap_location (st_remap st l f) <> 0 ->
      VARYING_SLOT_VAR0 X <= remap_location (st_remap st l f)
      < VARYING_SLOT_VAR0 X + MAX_VARYINGS_INCL_PATCH /\
      0 <= component (st_remap st l f) < 4 /\
      Z.testbit (comps (assigned (remap_location (st_remap st l f)
                                  - VARYING_SLOT_VAR0 X)))
                (component (st_remap st l f)) = false) /\
  (forall l1 f1 l2 f2,
      (l1, f1) <> (l2, f2) ->
      remap_location (st_remap st l1 f1) <> 0 ->
      remap_location (st_remap st l2 f2) <> 0 ->
      st_remap st l1 f1 <> st_remap st l2 f2).
Proof.
  intros Hzero H. unfold compact_components_remap in H.
  assert (Hinit : remap_invariant X MAX_VARYINGS_INCL_PATCH assigned
                    {| st_remap := remap; st_assigned := assigned;
                       st_cursor := 0; st_comp := 0 |}).
  { unfold remap_invariant. cbn [st_remap st_assigned st_cursor st_comp].
    repeat split; auto; try lia; intros; exfalso; rewrite Hzero in *; congruence. }
  assert (Hfold : forall l acc,
             fold_left
               (fun st info =>
                  match st with
                  | Some st =>
                      compact_components_step X MAX_VARYING MAX_VARYINGS_INCL_PATCH st info
                  | None => None
                  end) l acc = Some st ->
             exists st0, acc = Some st0 /\
                         (remap_invariant X MAX_VARYINGS_INCL_PATCH assigned st0 ->
                          remap_invariant X MAX_VARYINGS_INCL_PATCH assigned st)).
  { induction l as [| info l IH]; intros acc Hacc; cbn [fold_left] in Hacc.
    - exists st. auto.
    - apply IH in Hacc. destruct Hacc as (st1 & Hstep & Himp).
      destruct acc as [st0 |]; [| discriminate].
      exists st0. split; [reflexivity |]. intros Hinv0. apply Himp.
      eapply compact_components_step_invariant; eauto. }
  destruct (Hfold _ _ H) as (st0 & E & Himp). injection E as <-.
  destruct (Himp Hinit) as (_ & _ & _ & Hset & Hinj).
  split; [| exact Hinj].
  intros l f Hnz. destruct (Hset l f Hnz) as (H1 & H2 & _ & H4). auto.
Qed.

End CompactFacts.

(** X23 on empty arrays: the record at (33, 2) takes component 0 of slot 0. *)
Lemma assign_remap_locations_takes_free_witness :
  exists st,
    assign_remap_locations ex 64 remap_zero assigned_zero (ex_component 33 2 false) 0 0 32
    = Some st /\
    st_cursor st = 0 /\ st_comp st = 1 /\
    st_remap st 1 2 = {| component := 0; remap_location := 32 |}.
Proof.
  eexists. split; [reflexivity |].
  destruct (assign_remap_locations_takes_free
              ex 64 remap_zero assigned_zero (ex_component 33 2 false) 0 0 32 _
              ltac:(lia) ltac:(lia) eq_refl) as [(H & _) | _].
  - cbn in H. lia.
  - repeat split.
Defined.

(** X24 on two records packed into slot 0. *)
Lemma compact_components_remap_injective_witness :
  exists st,
    compact_components_remap ex 32 64 remap_zero assigned_zero
                             [ex_component 33 2 false; ex_component 40 0 false]
    = Some st /\
    st_remap st 1 2 = {| component := 0; remap_location := 32 |} /\
    st_remap st 8 0 = {| component := 1; remap_location := 32 |} /\
    st_remap st 1 2 <> st_remap st 8 0.
Proof.
  eexists. split; [reflexivity |]. split; [reflexivity |]. split; [reflexivity |].
  destruct (compact_components_remap_injective
              ex 32 64 ltac:(cbn; lia) ltac:(cbn; lia) ltac:(lia)
              remap_zero assigned_zero
              [ex_component 33 2 false; ex_component 40 0 false] _
              ltac:(reflexivity) eq_refl) as [_ Hinj].
  apply (Hinj 1 2 8 0); [congruence | cbn; lia | cbn; lia].
Defined.

End LinkingFacts.
